(** * Casing simulations: mesh design, grounded source and casing currents

    A shallow embedding of [CasingSimulations.py]: the property container
    [CasingProperties], the mesh designer [CasingMesh], the down-hole source
    [DownHoleCasingSrc] and the post-processing function [CasingCurrents].

    A finite double is the rational it denotes ([Q]); where numpy would
    leave the rationals (a division by zero gives [inf] or [nan]) the model
    stops with [NonFinite].  The count of core layers [ncz] uses only
    addition, division and [ceil]; IEEE 754 fixes their results to the last
    bit, and the model follows them in double precision ([Double.round]).
    The radial construction ([ncx1], [npadx1], [hx]) goes through [np.log]
    and [**], whose last bit is left to the platform; it, and every sum and
    product of widths, is read over exact arithmetic.  numpy arrays are lists; an array that the
    code mutates while another name may still refer to it lives in a
    store. *)

From Stdlib Require Import ZArith QArith Qround Qabs Qpower Qminmax Lia Lqa List Bool.
From stdpp Require Import base option list gmap.

Local Open Scope Q_scope.

(** ** Python outcomes *)

Inductive exn : Type :=
| ValueError      (* wrong shape, empty reduction, negative dimension *)
| IndexError      (* index or mask out of bounds *)
| KeyError        (* missing dictionary key *)
| NonFinite       (* numpy produced inf or nan: outside the rational model *)
| BadRef.         (* a reference that is not in the store; unreachable from Python *)

Inductive result (A : Type) : Type :=
| Ok (a : A)
| Raise (e : exn).
Arguments Ok {A} a.
Arguments Raise {A} e.

Definition rbind {A B} (r : result A) (k : A -> result B) : result B :=
  match r with
  | Ok a => k a
  | Raise e => Raise e
  end.

Notation "x <- r ;; k" := (rbind r (fun x => k))
  (at level 100, r at next level, right associativity).

Definition is_ok {A} (r : result A) : bool :=
  match r with Ok _ => true | Raise _ => false end.

(** ** Numbers and arrays *)

Definition Qlt_bool (x y : Q) : bool := negb (Qle_bool y x).

(** [a / b] on floats: a zero divisor gives inf or nan. *)
Definition np_div (a b : Q) : result Q :=
  if Qeq_bool b 0 then Raise NonFinite else Ok (a / b).

(** Python's [sum] over an array. *)
Definition Qsum (l : list Q) : Q := fold_right Qplus 0 l.

(** A count as a number. *)
Definition qnat (n : nat) : Q := inject_Z (Z.of_nat n).

(** [a.min()]: numpy refuses an empty array. *)
Definition amin (l : list Q) : result Q :=
  match l with
  | [] => Raise ValueError
  | x :: l' => Ok (fold_left Qmin l' x)
  end.

(** ** Double precision

    Rounding to the nearest double, ties to even, with gradual underflow:
    a positive number [a] is brought to [m * 2^e] with a whole [m] of at
    most 53 bits and [e >= -1074]; a result of [2^1024] or more is [inf]. *)

Module Double.

(** [floor(log2 a)] for a positive [a]. *)
Definition ilog2 (a : Q) : Z :=
  let k := (Z.log2 (Qnum a) - Z.log2 (Zpos (Qden a)))%Z in
  if Qle_bool (2 ^ k) a then k else (k - 1)%Z.

(** The nearest whole number, the even one of two equally near. *)
Definition rne (q : Q) : Z :=
  let f := Qfloor q in
  match Qcompare (q - inject_Z f) (1 # 2) with
  | Lt => f
  | Gt => (f + 1)%Z
  | Eq => if Z.even f then f else (f + 1)%Z
  end.

Definition round_pos (a : Q) : Q :=
  let e := Z.max (-1074) (ilog2 a - 52) in
  inject_Z (rne (a / 2 ^ e)) * 2 ^ e.

(** The double nearest to [x]; a decimal literal, and the exact result of
    an operation on doubles, become a double this way. *)
Definition round (x : Q) : result Q :=
  let x' := Qred x in
  if Qeq_bool x' 0 then Ok 0
  else
    let r := Qred (round_pos (Qabs x')) in
    if Qle_bool (2 ^ 1024) r then Raise NonFinite
    else Ok (if Qlt_bool x' 0 then - r else r).

(** [x + y], [x - y] and [x / y] on doubles. *)
Definition fadd (x y : Q) : result Q := round (x + y).

Definition fsub (x y : Q) : result Q := round (x - y).

Definition fdiv (x y : Q) : result Q :=
  if Qeq_bool y 0 then Raise NonFinite else round (x / y).

End Double.

(** ** Logarithms

    [np.floor(np.log(r) / np.log(p))] in exact arithmetic.  For [1 < p] and
    [1 <= r] it is the largest [n] with [p^n <= r]; for [r < 1] it is [-m]
    for the least [m] with [1 / r <= p^m]; a base below one is turned over
    ([log r / log p = log (1/r) / log (1/p)]).  With the base [0] the
    divisor is [-inf] and the quotient zero.  [log] of a non-positive
    number elsewhere, or a base equal to one, leaves the rationals. *)

Fixpoint pow_below (fuel : nat) (p r acc : Q) (n : Z) : Z :=
  match fuel with
  | O => n
  | S fuel' =>
      let acc' := Qred (acc * p) in
      if Qle_bool acc' r then pow_below fuel' p r acc' (n + 1) else n
  end.

Fixpoint pow_reach (fuel : nat) (p r acc : Q) (m : Z) : Z :=
  match fuel with
  | O => m
  | S fuel' =>
      if Qle_bool r acc then m
      else pow_reach fuel' p r (Qred (acc * p)) (m + 1)
  end.

(** Bernoulli: [p^n >= 1 + n (p - 1) >= 1 + n / den p], so [r * den p]
    steps are enough. *)
Definition log_fuel (p r : Q) : nat :=
  Z.to_nat (Qceiling (r * inject_Z (Zpos (Qden p)))) + 1.

Definition floor_log_gt1 (p r : Q) : Z :=
  if Qle_bool 1 r then pow_below (log_fuel p r) p r 1 0
  else (- pow_reach (log_fuel p (/ r)) p (/ r) 1 0)%Z.

Definition floor_log (p r : Q) : result Z :=
  if Qle_bool r 0 then Raise NonFinite
  else if Qeq_bool p 0 then Ok 0%Z
  else if Qle_bool p 0 then Raise NonFinite
  else if Qeq_bool p 1 then Raise NonFinite
  else if Qlt_bool 1 p then Ok (floor_log_gt1 p r)
  else Ok (floor_log_gt1 (/ p) (/ r)).

(** ** Tensor-product cell widths *)

Module Utils.

(** Modelled from the spec: SimPEG's [Utils.meshTensor] is a library function
    outside the repository.  A pair [(h, n)] stands for [n] cells of width
    [h]; a triple [(h, n, f)] for [n] cells growing from [h] by the ratio
    [|f|], that is [h * |f|^k] for [k = 1 .. n], listed in the reverse
    order when [f] is negative.  A negative count is an empty run for a
    pair ([[h] * n]) and an error for a triple ([np.ones(n)]). *)
Inductive tensor_item : Type :=
| Cells (h : Q) (n : Z)
| Padded (h : Q) (n : Z) (f : Q).

Definition pad_cells (h : Q) (n : nat) (f : Q) : list Q :=
  map (fun k => Qabs f ^ Z.of_nat k * h) (seq 1 n).

Definition expand (v : tensor_item) : result (list Q) :=
  match v with
  | Cells h n => Ok (repeat h (Z.to_nat n))
  | Padded h n f =>
      if (n <? 0)%Z then Raise ValueError
      else
        let pad := pad_cells h (Z.to_nat n) f in
        Ok (if Qlt_bool f 0 then rev pad else pad)
  end.

Fixpoint meshTensor (value : list tensor_item) : result (list Q) :=
  match value with
  | [] => Ok []
  | v :: rest =>
      cells <- expand v ;;
      more <- meshTensor rest ;;
      Ok (cells ++ more)
  end.

End Utils.

(** ** The cylindrical mesh *)

Module Mesh.

(** The attributes of the mesh object that the code reads.  A grid of face
    locations has one row [(r, theta, z)] per face; [vnFx], [vnFy] and [vnFz]
    count the faces of each kind along the three axes; [aveF2CC] is the
    face-to-cell-centre averaging matrix, one row per cell and one column
    per face. *)
Record t : Type := {
  hx : list Q;
  hz : list Q;
  gridFx : list (Q * Q * Q);
  gridFz : list (Q * Q * Q);
  vnFx : nat * nat * nat;
  vnFy : nat * nat * nat;
  vnFz : nat * nat * nat;
  area : list Q;
  aveF2CC : list (list Q)
}.

Definition prod3 (v : nat * nat * nat) : nat :=
  (fst (fst v) * snd (fst v) * snd v)%nat.

Definition nFx (m : t) : nat := prod3 (vnFx m).
Definition nFy (m : t) : nat := prod3 (vnFy m).
Definition nFz (m : t) : nat := prod3 (vnFz m).
Definition vnF (m : t) : nat * nat * nat := (nFx m, nFy m, nFz m).
Definition nF (m : t) : nat := (nFx m + nFy m + nFz m)%nat.

(** Column [0] and column [2] of a grid row. *)
Definition col0 (f : Q * Q * Q) : Q := fst (fst f).
Definition col2 (f : Q * Q * Q) : Q := snd f.

(** Modelled from the spec: SimPEG's [Mesh.CylMesh] is a library class
    outside the repository.  For the rotationally symmetric mesh
    [CylMesh([hx, 1, hz], [0, 0, z0])] the radial nodes are the running sums
    of [hx] (the axis itself carries no face), the vertical nodes run from
    [z0] upwards by [hz], cell centres sit half a cell before the node that
    closes the cell, x-faces lie at (radial node, vertical centre), z-faces
    at (radial centre, vertical node), and the radial index runs fastest.
    Face areas (multiples of pi) and the averaging matrix are given. *)
Fixpoint cumsum (start : Q) (h : list Q) : list Q :=
  match h with
  | [] => []
  | w :: h' => let n := Qred (start + w) in n :: cumsum n h'
  end.

Definition centres (start : Q) (h : list Q) : list Q :=
  zip_with (fun n w => Qred (n - w / 2)) (cumsum start h) h.

Definition ndgrid (rs zs : list Q) : list (Q * Q * Q) :=
  flat_map (fun z => map (fun r => (r, 0, z)) rs) zs.

Definition cyl (hx0 hz0 : list Q) (z0 : Q) (area0 : list Q)
    (ave : list (list Q)) : t := {|
  hx := hx0;
  hz := hz0;
  gridFx := ndgrid (cumsum 0 hx0) (centres z0 hz0);
  gridFz := ndgrid (centres 0 hx0) (z0 :: cumsum z0 hz0);
  vnFx := (length hx0, 1%nat, length hz0);
  vnFy := (length hx0, 0%nat, length hz0);
  vnFz := (length hx0, 1%nat, S (length hz0));
  area := area0;
  aveF2CC := ave
|}.

End Mesh.

(** ** Simulation parameters *)

Module CasingProperties.

Record t : Type := {
  sigmaair : Q;
  sigmaback : Q;
  sigmalayer : Q;
  sigmacasing : Q;
  sigmainside : Q;
  muModels : list Q;
  casing_top : Q;
  casing_l : Q;
  casing_d : Q;
  casing_t : Q;
  layer_z : Q * Q;
  freqs : list Q;
  dsz : Q;
  src_b : Q * Q * Q
}.

Definition src_a (cp : t) : Q * Q * Q := (0, 0, dsz cp).

Definition casing_r (cp : t) : Q := casing_d cp / 2.

Definition casing_a (cp : t) : Q :=
  casing_r cp - casing_t cp / 2.

Definition casing_b (cp : t) : Q :=
  casing_r cp + casing_t cp / 2.

(** [np.r_[-casing_l, 0.] + casing_top], in double precision. *)
Definition casing_z (cp : t) : result (Q * Q) :=
  l <- Double.round (casing_l cp) ;;
  top <- Double.round (casing_top cp) ;;
  z0 <- Double.fadd (- l) top ;;
  z1 <- Double.fadd 0 top ;;
  Ok (z0, z1).

(** The defaults of the property declarations. *)
Definition default : t := {|
  sigmaair := 1 # 100000000;
  sigmaback := 1 # 100;
  sigmalayer := 1 # 100;
  sigmacasing := 5500000;
  sigmainside := 1;
  muModels := [1; 50; 100; 200];
  casing_top := 0;
  casing_l := 1000;
  casing_d := 1 # 10;
  casing_t := 1 # 100;
  layer_z := (-1000, -900);
  freqs := [1 # 10000; 1 # 1000; 1 # 100; 1 # 10; 1 # 2; 1];
  dsz := -950;
  src_b := (10000, 0, 0)
|}.

End CasingProperties.

(** ** The mesh designer *)

Module CasingMesh.

Import Utils CasingProperties.

(** The object: its properties, the parameters it was built with, and the
    attributes [_hx], [_ncz], [_hz] and [_mesh] that the first read of the
    property of that name sets. *)
Record t : Type := {
  csx1 : Q;
  csx2 : Q;
  pfx1 : Q;
  pfx2 : Q;
  dx2 : Q;
  npadx2 : Z;
  csz : Q;
  nza : Z;
  pfz : Q;
  npadzu : Z;
  npadzd : Z;
  cp : CasingProperties.t;
  _hx : option (list Q);
  _ncz : option Z;
  _hz : option (list Q);
  _mesh : option Mesh.t
}.

(** [CasingMesh(cp)] with the default properties. *)
Definition init (cp0 : CasingProperties.t) : t := {|
  csx1 := 25 # 10000;
  csx2 := 25;
  pfx1 := 13 # 10;
  pfx2 := 15 # 10;
  dx2 := 1000;
  npadx2 := 23;
  csz := 5 # 100;
  nza := 10;
  pfz := 15 # 10;
  npadzu := 38;
  npadzd := 38;
  cp := cp0;
  _hx := None;
  _ncz := None;
  _hz := None;
  _mesh := None
|}.

Definition set_hx (self : t) (v : list Q) : t := {|
  csx1 := csx1 self; csx2 := csx2 self; pfx1 := pfx1 self;
  pfx2 := pfx2 self; dx2 := dx2 self; npadx2 := npadx2 self;
  csz := csz self; nza := nza self; pfz := pfz self;
  npadzu := npadzu self; npadzd := npadzd self; cp := cp self;
  _hx := Some v; _ncz := _ncz self; _hz := _hz self; _mesh := _mesh self
|}.

Definition set_ncz (self : t) (v : Z) : t := {|
  csx1 := csx1 self; csx2 := csx2 self; pfx1 := pfx1 self;
  pfx2 := pfx2 self; dx2 := dx2 self; npadx2 := npadx2 self;
  csz := csz self; nza := nza self; pfz := pfz self;
  npadzu := npadzu self; npadzd := npadzd self; cp := cp self;
  _hx := _hx self; _ncz := Some v; _hz := _hz self; _mesh := _mesh self
|}.

Definition set_hz (self : t) (v : list Q) : t := {|
  csx1 := csx1 self; csx2 := csx2 self; pfx1 := pfx1 self;
  pfx2 := pfx2 self; dx2 := dx2 self; npadx2 := npadx2 self;
  csz := csz self; nza := nza self; pfz := pfz self;
  npadzu := npadzu self; npadzd := npadzd self; cp := cp self;
  _hx := _hx self; _ncz := _ncz self; _hz := Some v; _mesh := _mesh self
|}.

Definition set_mesh (self : t) (v : Mesh.t) : t := {|
  csx1 := csx1 self; csx2 := csx2 self; pfx1 := pfx1 self;
  pfx2 := pfx2 self; dx2 := dx2 self; npadx2 := npadx2 self;
  csz := csz self; nza := nza self; pfz := pfz self;
  npadzu := npadzu self; npadzd := npadzd self; cp := cp self;
  _hx := _hx self; _ncz := _ncz self; _hz := _hz self; _mesh := Some v
|}.

(** [np.ceil(self.cp.casing_b/self.csx1+2)] *)
Definition ncx1 (self : t) : result Z :=
  q <- np_div (casing_b (cp self)) (csx1 self) ;;
  Ok (Qceiling (q + 2)).

(** [np.floor(np.log(self.csx2/self.csx1) / np.log(self.pfx1))] *)
Definition npadx1 (self : t) : result Z :=
  ratio <- np_div (csx2 self) (csx1 self) ;;
  floor_log (pfx1 self) ratio.

(** The local variables of [hx] when it reaches [np.hstack]; [hx1b_pad] is
    [hx1b] before [*=], [dx1_sum] is [dx1] before it is reassigned. *)
Record hx_locals : Type := {
  hx1a : list Q;
  hx1b_pad : list Q;
  dx1_sum : Q;
  dx1 : Q;
  hx1b : list Q;
  ncx2 : Z;
  hx2a : list Q;
  hx2b : list Q
}.

(** [hx1b *= num / den]: the quotient is taken first; when it is [inf] or
    [nan] (a zero divisor) an array without entries stays as it is, and an
    array with entries leaves the rationals. *)
Definition rescale (b : list Q) (num den : Q) : result (list Q) :=
  match b with
  | [] => Ok []
  | _ :: _ => scale <- np_div num den ;; Ok (map (fun h => h * scale) b)
  end.

(** The lines of [hx] for given values [n1] of [self.ncx1] and [np1] of
    [self.npadx1]. *)
Definition hx_cells (self : t) (n1 np1 : Z) : result hx_locals :=
  a <- meshTensor [Cells (csx1 self) n1] ;;
  b <- meshTensor [Padded (csx1 self) np1 (pfx1 self)] ;;
  let s := Qsum a + Qsum b in
  q <- np_div s (csx2 self) ;;
  let d := inject_Z (Qfloor q) in
  b' <- rescale b (d * csx2 self - Qsum a) (Qsum b) ;;
  q2 <- np_div (dx2 self - d) (csx2 self) ;;
  let n2 := Qceiling q2 in
  a2 <- meshTensor [Cells (csx2 self) n2] ;;
  b2 <- meshTensor [Padded (csx2 self) (npadx2 self) (pfx2 self)] ;;
  Ok {| hx1a := a; hx1b_pad := b; dx1_sum := s; dx1 := d; hx1b := b';
        ncx2 := n2; hx2a := a2; hx2b := b2 |}.

Definition hx_body (self : t) : result hx_locals :=
  n1 <- ncx1 self ;;
  np1 <- npadx1 self ;;
  hx_cells self n1 np1.

Definition hstack (L : hx_locals) : list Q :=
  hx1a L ++ hx1b L ++ hx2a L ++ hx2b L.

(** The property [hx]: computed on the first read, then kept. *)
Definition hx (self : t) : result (list Q) * t :=
  match _hx self with
  | Some v => (Ok v, self)
  | None =>
      match hx_body self with
      | Ok L => (Ok (hstack L), set_hx self (hstack L))
      | Raise e => (Raise e, self)
      end
  end.

(** [np.int(np.ceil(-self.cp.casing_z[0]/self.csz))+10], the quotient in
    double precision. *)
Definition ncz_body (self : t) : result Z :=
  z <- casing_z (cp self) ;;
  c <- Double.round (csz self) ;;
  q <- Double.fdiv (- fst z) c ;;
  Ok (Qceiling q + 10)%Z.

(** The property [ncz]: computed on the first read, then kept. *)
Definition ncz (self : t) : result Z * t :=
  match _ncz self with
  | Some v => (Ok v, self)
  | None =>
      match ncz_body self with
      | Ok v => (Ok v, set_ncz self v)
      | Raise e => (Raise e, self)
      end
  end.

(** The property [hz]; reading it reads [ncz]. *)
Definition hz (self : t) : result (list Q) * t :=
  match _hz self with
  | Some v => (Ok v, self)
  | None =>
      let (rn, self1) := ncz self in
      match (n <- rn ;;
             meshTensor [Padded (csz self1) (npadzd self1) (- pfz self1);
                         Cells (csz self1) n;
                         Padded (csz self1) (npadzu self1) (pfz self1)]) with
      | Ok v => (Ok v, set_hz self1 v)
      | Raise e => (Raise e, self1)
      end
  end.

(** [a[:k]] for a Python integer [k]: a negative [k] counts from the end. *)
Definition slice_to (a : list Q) (k : Z) : list Q :=
  if (0 <=? k)%Z then take (Z.to_nat k) a
  else take (length a - Z.to_nat (- k)) a.

(** The property [mesh]: [Mesh.CylMesh([hx, 1., hz], [0., 0., -np.sum(
    hz[:npadzu+ncz-nza])])].  The face areas and the averaging matrix of
    the mesh, which the library derives from the cell widths, are given. *)
Definition mesh (self : t) (area0 : list Q) (ave : list (list Q))
  : result Mesh.t * t :=
  match _mesh self with
  | Some m => (Ok m, self)
  | None =>
      let (rx, self1) := hx self in
      match rx with
      | Raise e => (Raise e, self1)
      | Ok x =>
          let (rz, self2) := hz self1 in
          match rz with
          | Raise e => (Raise e, self2)
          | Ok z =>
              let (rn, self3) := ncz self2 in
              match rn with
              | Raise e => (Raise e, self3)
              | Ok n =>
                  let k := (npadzu self3 + n - nza self3)%Z in
                  let m := Mesh.cyl x z (- Qsum (slice_to z k)) area0 ave in
                  (Ok m, set_mesh self3 m)
              end
          end
      end
  end.

End CasingMesh.

(** ** Complex numbers ([dtype=complex]) *)

Record complex : Type := mkC { re : Q; im : Q }.

Definition C0 : complex := mkC 0 0.
Definition C1 : complex := mkC 1 0.
Definition Cm1 : complex := mkC (-1) 0.

Definition Cadd (c d : complex) : complex := mkC (re c + re d) (im c + im d).

(** a real array entry times a complex one *)
Definition Cscale (a : Q) (c : complex) : complex := mkC (a * re c) (a * im c).

(** a complex entry over a real one *)
Definition Cdivr (c : complex) (a : Q) : complex := mkC (re c / a) (im c / a).

Definition Csum (l : list complex) : complex := fold_right Cadd C0 l.

Definition Ceq (c d : complex) : Prop := re c == re d /\ im c == im d.

Definition zeros (n : nat) : list complex := repeat C0 n.

(** [arr[mask] = v]: a boolean mask has the length of the array. *)
Definition mask_set (arr : list complex) (mask : list bool) (v : complex)
  : result (list complex) :=
  if Nat.eqb (length mask) (length arr)
  then Ok (zip_with (fun (b : bool) a => if b then v else a) mask arr)
  else Raise IndexError.

(** [dg / area] with numpy's broadcasting of one-element arrays. *)
Definition div_entry (c : complex) (a : Q) : result complex :=
  if Qeq_bool a 0 then Raise NonFinite else Ok (Cdivr c a).

Fixpoint div_zip (v : list complex) (a : list Q) : result (list complex) :=
  match v, a with
  | c :: v', x :: a' =>
      q <- div_entry c x ;;
      rest <- div_zip v' a' ;;
      Ok (q :: rest)
  | _, _ => Ok []
  end.

Definition array_div (v : list complex) (a : list Q) : result (list complex) :=
  if Nat.eqb (length v) (length a) then div_zip v a
  else match a, v with
       | [x], _ => div_zip v (repeat x (length v))
       | _, [c] => div_zip (repeat c (length a)) a
       | _, _ => Raise ValueError
       end.

(** ** Source grounded on the casing *)

Module DownHoleCasingSrc.

Import Mesh.

(** [FDEM.Src.RawVec_e(rxList, freq, s_e)] *)
Record RawVec_e : Type := {
  rxList : list unit;
  freq : Q;
  s_e : list complex
}.

Record t : Type := {
  mesh : Mesh.t;
  src_a : Q * Q * Q;
  src_b : Q * Q * Q;
  casing_a : Q;
  freqs : list Q;
  _dg_p : option (list RawVec_e)
}.

Definition init (m : Mesh.t) (a b : Q * Q * Q) (ca : Q) (fs : list Q) : t :=
  {| mesh := m; src_a := a; src_b := b; casing_a := ca; freqs := fs;
     _dg_p := None |}.

Definition set_dg_p (self : t) (v : list RawVec_e) : t :=
  {| mesh := mesh self; src_a := src_a self; src_b := src_b self;
     casing_a := casing_a self; freqs := freqs self; _dg_p := Some v |}.

(** The test applied to one row of [gridFz]: the vertical wire in the
    borehole. *)
Definition dgv_test (self : t) (hxmin hzmin : Q) (f : Q * Q * Q) : bool :=
  Qlt_bool (col0 f) hxmin
  && (Qle_bool (col2 (src_a self)) (col2 f)
      && Qle_bool (col2 f) (col2 (src_b self) + 2 * hzmin)).

Definition dgv_ind (self : t) : result (list bool) :=
  hxmin <- amin (hx (mesh self)) ;;
  hzmin <- amin (hz (mesh self)) ;;
  Ok (map (dgv_test self hxmin hzmin) (gridFz (mesh self))).

(** One row of [gridFx]: the coupling to the casing down the hole. *)
Definition dgh_test (self : t) (hzmin : Q) (f : Q * Q * Q) : bool :=
  Qle_bool (col0 f) (casing_a self)
  && (Qle_bool (col2 f) (col2 (src_a self))
      && Qlt_bool (col2 (src_a self) - hzmin) (col2 f)).

Definition dgh_ind2 (self : t) : result (list bool) :=
  hzmin <- amin (hz (mesh self)) ;;
  Ok (map (dgh_test self hzmin) (gridFx (mesh self))).

(** One row of [gridFx]: the horizontal wire along the surface. *)
Definition sgh_test (self : t) (hzmin : Q) (f : Q * Q * Q) : bool :=
  Qle_bool (col0 f) (col0 (src_b self))
  && (Qlt_bool hzmin (col2 f) && Qlt_bool (col2 f) (2 * hzmin)).

Definition sgh_ind (self : t) : result (list bool) :=
  hzmin <- amin (hz (mesh self)) ;;
  Ok (map (sgh_test self hzmin) (gridFx (mesh self))).

(** One row of [gridFz]: the return electrode. *)
Definition sgv_test (self : t) (hzmin : Q) (f : Q * Q * Q) : bool :=
  (Qlt_bool (col0 (src_b self) * (9 # 10)) (col0 f)
   && Qlt_bool (col0 f) (col0 (src_b self) * (11 # 10)))
  && (Qle_bool (- hzmin) (col2 f) && Qlt_bool (col2 f) (2 * hzmin)).

Definition sgv_ind (self : t) : result (list bool) :=
  hzmin <- amin (hz (mesh self)) ;;
  Ok (map (sgv_test self hzmin) (gridFz (mesh self))).

(** The number of rows of a grid that pass a test. *)
Fixpoint count_if {A} (p : A -> bool) (l : list A) : nat :=
  match l with
  | [] => O
  | x :: l' => if p x then S (count_if p l') else count_if p l'
  end.

(** The arrays [dg_x], [dg_y], [dg_z] after the four masked assignments. *)
Definition dg_parts (self : t)
  : result (list complex * list complex * list complex) :=
  let dg_x := zeros (fst (fst (vnF (mesh self)))) in
  let dg_y := zeros (snd (fst (vnF (mesh self)))) in
  let dg_z := zeros (snd (vnF (mesh self))) in
  m1 <- dgv_ind self ;;
  dg_z <- mask_set dg_z m1 Cm1 ;;
  m2 <- dgh_ind2 self ;;
  dg_x <- mask_set dg_x m2 C1 ;;
  m3 <- sgh_ind self ;;
  dg_x <- mask_set dg_x m3 Cm1 ;;
  m4 <- sgv_ind self ;;
  dg_z <- mask_set dg_z m4 C1 ;;
  Ok (dg_x, dg_y, dg_z).

(** [np.hstack([dg_x, dg_y, dg_z])]: the signed unit injections. *)
Definition dg (self : t) : result (list complex) :=
  p <- dg_parts self ;;
  Ok (fst (fst p) ++ snd (fst p) ++ snd p).

(** [[RawVec_e([], _, dg/area) for _ in freqs]] *)
Fixpoint sources (v : list complex) (a : list Q) (fs : list Q)
  : result (list RawVec_e) :=
  match fs with
  | [] => Ok []
  | f :: fs' =>
      s <- array_div v a ;;
      rest <- sources v a fs' ;;
      Ok ({| rxList := []; freq := f; s_e := s |} :: rest)
  end.

Definition dg_p_body (self : t) : result (list RawVec_e) :=
  v <- dg self ;;
  sources v (area (mesh self)) (freqs self).

(** The property [dg_p]: computed on the first read, then kept. *)
Definition dg_p (self : t) : result (list RawVec_e) * t :=
  match _dg_p self with
  | Some v => (Ok v, self)
  | None =>
      match dg_p_body self with
      | Ok v => (Ok v, set_dg_p self v)
      | Raise e => (Raise e, self)
      end
  end.

(** What the masked assignments leave on one face: the later assignment
    wins where two masks overlap. *)
Definition unit_x (self : t) (hzmin : Q) (f : Q * Q * Q) : complex :=
  if sgh_test self hzmin f then Cm1
  else if dgh_test self hzmin f then C1
  else C0.

Definition unit_z (self : t) (hxmin hzmin : Q) (f : Q * Q * Q) : complex :=
  if sgv_test self hzmin f then C1
  else if dgv_test self hxmin hzmin f then Cm1
  else C0.

(** The reading of the coupling faces as "within one minimum vertical cell
    width above the source depth", for comparison with [dgh_test]. *)
Definition dgh_test_above (self : t) (hzmin : Q) (f : Q * Q * Q) : bool :=
  Qle_bool (col0 f) (casing_a self)
  && (Qle_bool (col2 (src_a self)) (col2 f)
      && Qle_bool (col2 f) (col2 (src_a self) + hzmin)).

End DownHoleCasingSrc.

(** ** Arrays that are shared: the store *)

Module Store.

(** A reference to a float array, and the arrays that are alive. *)
Definition ref : Type := positive.
Abbreviation store := (gmap positive (list Q)).

(** A computation that reads and writes the store and may raise. *)
Definition M (A : Type) : Type := store -> result A * store.

Definition ret {A} (a : A) : M A := fun h => (Ok a, h).

Definition bind {A B} (c : M A) (k : A -> M B) : M B :=
  fun h =>
    match c h with
    | (Ok a, h') => k a h'
    | (Raise e, h') => (Raise e, h')
    end.

Definition lift {A} (r : result A) : M A := fun h => (r, h).

(** The value of an array. *)
Definition get (l : ref) : M (list Q) :=
  fun h =>
    match h !! l with
    | Some v => (Ok v, h)
    | None => (Raise BadRef, h)
    end.

(** [a.copy()]: a new array with the same entries. *)
Definition copy (l : ref) : M ref :=
  fun h =>
    match h !! l with
    | Some v => let l' := fresh (dom h) in (Ok l', <[l' := v]> h)
    | None => (Raise BadRef, h)
    end.

(** [a[[i1, .., ik]] = v]: every index is checked, then the entries are
    written in place. *)
Definition setitems (l : ref) (idx : list nat) (v : Q) : M unit :=
  fun h =>
    match h !! l with
    | Some a =>
        if forallb (fun i => Nat.ltb i (length a)) idx
        then (Ok tt, <[l := foldr (fun i a' => <[i := v]> a') a idx]> h)
        else (Raise IndexError, h)
    | None => (Raise BadRef, h)
    end.

(** [a[i] = v] *)
Definition setitem (l : ref) (i : nat) (v : Q) : M unit := setitems l [i] v.

End Store.

Notation "x <~ c ;; k" := (Store.bind c (fun x => k))
  (at level 100, c at next level, right associativity).

(** ** Casing currents from a fields object *)

Module Currents.

Import Store.

(** A dictionary keyed by floats, in insertion order; a key that is already
    there keeps its place and takes the new value. *)
Fixpoint dict_set {V} (d : list (Q * V)) (k : Q) (v : V) : list (Q * V) :=
  match d with
  | [] => [(k, v)]
  | (k', v') :: d' =>
      if Qeq_bool k' k then (k', v) :: d' else (k', v') :: dict_set d' k v
  end.

Fixpoint dict_get {V} (d : list (Q * V)) (k : Q) : result V :=
  match d with
  | [] => Raise KeyError
  | (k', v') :: d' => if Qeq_bool k' k then Ok v' else dict_get d' k
  end.

(** Modelled from the spec: SimPEG's [Maps.InjectActiveCells(mesh,
    indActive, 0.)] is a library class outside the repository.  Applied to
    a vector on the active cells it gives a vector on all cells: the next
    active value where [indActive] holds, the fill value [0] elsewhere; the
    vector must have one entry per active cell. *)
Fixpoint inject_active (indActive : list bool) (m : list Q) : result (list Q) :=
  match indActive with
  | [] => match m with [] => Ok [] | _ :: _ => Raise ValueError end
  | true :: ind' =>
      match m with
      | [] => Raise ValueError
      | x :: m' => rest <- inject_active ind' m' ;; Ok (x :: rest)
      end
  | false :: ind' => rest <- inject_active ind' m ;; Ok (0 :: rest)
  end.

Definition vadd (u v : list Q) : list Q := zip_with Qplus u v.

(** [A.T * v] for a matrix given by its rows, each with [n] entries. *)
Fixpoint tmul_rows (n : nat) (A : list (list Q)) (v : list Q) : list Q :=
  match A, v with
  | row :: A', x :: v' => vadd (map (fun a => a * x) row) (tmul_rows n A' v')
  | _, _ => repeat 0 n
  end.

Definition tmul (n : nat) (A : list (list Q)) (v : list Q) : result (list Q) :=
  if Nat.eqb (length A) (length v) then Ok (tmul_rows n A v)
  else Raise ValueError.

(** [a[a < 0.25] = 0] *)
Definition threshold (a : list Q) : list Q :=
  map (fun x => if Qlt_bool x (1 # 4) then 0 else x) a.

(** [Utils.sdiag(d) * col] for one column of a two-dimensional array. *)
Definition sdiag_mul (d : list Q) (col : list complex) : result (list complex) :=
  if Nat.eqb (length d) (length col) then Ok (zip_with Cscale d col)
  else Raise ValueError.

Fixpoint sdiag_mul_cols (d : list Q) (cols : list (list complex))
  : result (list (list complex)) :=
  match cols with
  | [] => Ok []
  | c :: cols' =>
      c' <- sdiag_mul d c ;;
      rest <- sdiag_mul_cols d cols' ;;
      Ok (c' :: rest)
  end.

(** The column sums of [v.reshape(n0, n2, order='F')], that is [.sum(0)]:
    entry [k] adds the [n0] entries from position [k * n0] on. *)
Fixpoint block_sums (n0 n2 : nat) (v : list complex) : list complex :=
  match n2 with
  | O => []
  | S n2' => Csum (take n0 v) :: block_sums n0 n2' (drop n0 v)
  end.

Definition reshape_sum0 (n0 n2 : nat) (v : list complex)
  : result (list complex) :=
  if Nat.eqb (length v) (n0 * n2) then Ok (block_sums n0 n2 v)
  else Raise ValueError.

(** [a[:, freqind]] for an array kept by columns. *)
Definition column (cols : list (list complex)) (i : nat)
  : result (list complex) :=
  match cols !! i with
  | Some c => Ok c
  | None => Raise IndexError
  end.

(** The body of [for freqind in range(len(cp.freqs))]. *)
Fixpoint freq_loop (m : Mesh.t) (jACasing : list (list complex))
    (freqinds : list nat) : result (list (list complex) * list (list complex)) :=
  match freqinds with
  | [] => Ok ([], [])
  | freqind :: rest =>
      c <- column jACasing freqind ;;
      jx <- reshape_sum0 (fst (fst (Mesh.vnFx m))) (snd (Mesh.vnFx m))
              (take (Mesh.nFx m) c) ;;
      jz <- reshape_sum0 (fst (fst (Mesh.vnFz m))) (snd (Mesh.vnFz m))
              (drop (Mesh.nFx m) c) ;;
      r <- freq_loop m jACasing rest ;;
      Ok (jx :: fst r, jz :: snd r)
  end.

Definition profile : Type := list (Q * list (list complex)).

(** The body of [for mur in cp.muModels], threading the two dictionaries. *)
Fixpoint mu_loop (cp : CasingProperties.t)
    (fields : list (Q * list (list complex))) (m : Mesh.t)
    (casing_faces : list Q) (murs : list Q) (Ix Iz : profile)
  : result (profile * profile) :=
  match murs with
  | [] => Ok (Ix, Iz)
  | mur :: rest =>
      j <- dict_get fields mur ;;
      jA <- sdiag_mul_cols (Mesh.area m) j ;;
      jACasing <- sdiag_mul_cols casing_faces jA ;;
      r <- freq_loop m jACasing (seq 0 (length (CasingProperties.freqs cp))) ;;
      mu_loop cp fields m casing_faces rest
        (dict_set Ix mur (fst r)) (dict_set Iz mur (snd r))
  end.

(** The indicator on the model vector: a copy of [sigma_m] with zero at
    positions 0, 1 and 3 and one at position 2. *)
Definition casing_indicator (sigma_m : ref) : M ref :=
  casing_ind <~ copy sigma_m ;;
  _ <~ setitems casing_ind [0; 1; 3]%nat 0 ;;
  _ <~ setitem casing_ind 2%nat 1 ;;
  ret casing_ind.

(** [casing_faces] after the threshold. *)
Definition casing_faces_of (m : Mesh.t) (indActive : list bool)
    (casingMap : list Q -> result (list Q)) (casing_ind : list Q)
  : result (list Q) :=
  on_active <- casingMap casing_ind ;;
  indCasing <- inject_active indActive on_active ;;
  faces <- tmul (Mesh.nF m) (Mesh.aveF2CC m) indCasing ;;
  Ok (threshold faces).

(** The indicator in closed form. *)
Definition marked (v : list Q) : list Q :=
  <[2%nat := 1]> (<[0%nat := 0]> (<[1%nat := 0]> (<[3%nat := 0]> v))).

(** The lines up to [indCasing = actMap_Zeros * casingMap * casing_ind]:
    the indicator on all cells. *)
Definition indCasing (sigma_m : ref) (indActive : list bool)
    (casingMap : list Q -> result (list Q)) : M (list Q) :=
  casing_ind <~ casing_indicator sigma_m ;;
  ind <~ get casing_ind ;;
  lift (on_active <- casingMap ind ;; inject_active indActive on_active).

(** The lines up to the threshold: the indicator on the model vector, its
    image on the faces, the threshold. *)
Definition casing_faces (m : Mesh.t) (sigma_m : ref) (indActive : list bool)
    (casingMap : list Q -> result (list Q)) : M (list Q) :=
  casing_ind <~ casing_indicator sigma_m ;;
  ind <~ get casing_ind ;;
  lift (casing_faces_of m indActive casingMap ind).

(** [fields] is the dictionary from a permeability to its array [j], kept by
    columns (one per source); [casingMap] is the map from the model vector
    to the active cells. *)
Definition CasingCurrents (cp : CasingProperties.t)
    (fields : list (Q * list (list complex))) (m : Mesh.t) (sigma_m : ref)
    (indActive : list bool) (casingMap : list Q -> result (list Q))
  : M (profile * profile) :=
  faces <~ casing_faces m sigma_m indActive casingMap ;;
  lift (mu_loop cp fields m faces (CasingProperties.muModels cp) [] []).

(** The order in which the spec lists the four categories of the material
    vector, for comparison with the positions that [casing_indicator]
    writes. *)
Inductive category : Type := air | background | layer | casing.

Definition category_index (c : category) : nat :=
  match c with
  | air => 0
  | background => 1
  | layer => 2
  | casing => 3
  end.

(** An array, and a profile, whose entries are all zero. *)
Abbreviation zero_entries := (Forall (fun c : complex => Ceq c C0)).

Definition all_zero (p : profile) : Prop :=
  Forall (fun kv => Forall zero_entries (snd kv)) p.

(** A map that gives every active cell the model entry of its category. *)
Definition by_category (cats : list nat) (model : list Q) : result (list Q) :=
  Ok (map (fun c => nth c model 0) cats).

(** The number of active cells in a run of cells; the active cell at
    position [i] is number [count_true (take i indActive)] among them. *)
Fixpoint count_true (l : list bool) : nat :=
  match l with
  | [] => O
  | true :: l' => S (count_true l')
  | false :: l' => count_true l'
  end.

(** One column of [Utils.sdiag(casing_faces) * (Utils.sdiag(mesh.area) * j)]. *)
Definition masked_current (faces area : list Q) (col : list complex)
  : list complex :=
  zip_with Cscale faces (zip_with Cscale area col).

End Currents.

(** ** Sample inputs *)

Module Samples.

Import CasingProperties.

(** The default casing, its top 100 m below the surface. *)
Definition buried : CasingProperties.t := {|
  sigmaair := 1 # 100000000;
  sigmaback := 1 # 100;
  sigmalayer := 1 # 100;
  sigmacasing := 5500000;
  sigmainside := 1;
  muModels := [1; 50; 100; 200];
  casing_top := -100;
  casing_l := 1000;
  casing_d := 1 # 10;
  casing_t := 1 # 100;
  layer_z := (-1000, -900);
  freqs := [1 # 10000; 1 # 1000; 1 # 100; 1 # 10; 1 # 2; 1];
  dsz := -950;
  src_b := (10000, 0, 0)
|}.

(** A wide casing (outer radius 1 m) of length 10 m. *)
Definition wide : CasingProperties.t := {|
  sigmaair := 1 # 100000000;
  sigmaback := 1 # 100;
  sigmalayer := 1 # 100;
  sigmacasing := 5500000;
  sigmainside := 1;
  muModels := [1];
  casing_top := 0;
  casing_l := 10;
  casing_d := 18 # 10;
  casing_t := 2 # 10;
  layer_z := (-10, -9);
  freqs := [1];
  dsz := -5;
  src_b := (10, 0, 0)
|}.

(** A mesh for it whose second uniform region has cells of half a metre:
    [csx1 = 0.01], [csx2 = 0.5], [pfx1 = 2], [dx2 = 10]. *)
Definition half_metre : CasingMesh.t := {|
  CasingMesh.csx1 := 1 # 100;
  CasingMesh.csx2 := 1 # 2;
  CasingMesh.pfx1 := 2;
  CasingMesh.pfx2 := 15 # 10;
  CasingMesh.dx2 := 10;
  CasingMesh.npadx2 := 3;
  CasingMesh.csz := 1;
  CasingMesh.nza := 2;
  CasingMesh.pfz := 15 # 10;
  CasingMesh.npadzu := 3;
  CasingMesh.npadzd := 3;
  CasingMesh.cp := wide;
  CasingMesh._hx := None;
  CasingMesh._ncz := None;
  CasingMesh._hz := None;
  CasingMesh._mesh := None
|}.

(** A short casing (inner radius 1, outer radius 2, length 2), the source at
    depth 1 and the return electrode at radius 7.5. *)
Definition short : CasingProperties.t := {|
  sigmaair := 1 # 100000000;
  sigmaback := 1 # 100;
  sigmalayer := 1 # 100;
  sigmacasing := 5500000;
  sigmainside := 1;
  muModels := [1];
  casing_top := 0;
  casing_l := 2;
  casing_d := 3;
  casing_t := 1;
  layer_z := (-2, -1);
  freqs := [1; 10];
  dsz := -1;
  src_b := (15 # 2, 0, 0)
|}.

(** A coarse mesh for it: [csx1 = 1], [csx2 = 3], [pfx1 = 1.5],
    [dx2 = 12], [csz = 1], one cell above the surface and one padding cell
    each way. *)
Definition coarse : CasingMesh.t := {|
  CasingMesh.csx1 := 1;
  CasingMesh.csx2 := 3;
  CasingMesh.pfx1 := 15 # 10;
  CasingMesh.pfx2 := 15 # 10;
  CasingMesh.dx2 := 12;
  CasingMesh.npadx2 := 1;
  CasingMesh.csz := 1;
  CasingMesh.nza := 1;
  CasingMesh.pfz := 15 # 10;
  CasingMesh.npadzu := 1;
  CasingMesh.npadzd := 1;
  CasingMesh.cp := short;
  CasingMesh._hx := None;
  CasingMesh._ncz := None;
  CasingMesh._hz := None;
  CasingMesh._mesh := None
|}.

(** The source on a mesh [m] built for [short]. *)
Definition short_src (m : Mesh.t) : DownHoleCasingSrc.t :=
  DownHoleCasingSrc.init m (src_a short) (src_b short) (casing_a short)
    (freqs short).

(** A mesh of three unit cells across and six unit cells up, from
    [z = -4] to [z = 2]; every face area is taken to be one. *)
Definition toy : Mesh.t :=
  Mesh.cyl [1; 1; 1] [1; 1; 1; 1; 1; 1] (-4) (repeat 1 39%nat) [].

(** A source at depth 2 in a casing of inner radius 1, the return electrode
    at radius 2.5. *)
Definition toy_src : DownHoleCasingSrc.t :=
  DownHoleCasingSrc.init toy (0, 0, -2) (5 # 2, 0, 0) 1 [1; 2].

(** The same with the return electrode at radius 0.5, inside the innermost
    cell. *)
Definition near_src : DownHoleCasingSrc.t :=
  DownHoleCasingSrc.init toy (0, 0, -2) (1 # 2, 0, 0) 1 [1; 2].

(** A store with one model vector of four entries. *)
Definition sigma_ref : Store.ref := 1%positive.

Definition one_vector : gmap positive (list Q) :=
  {[ sigma_ref := [1 # 100000000; 1 # 100; 1 # 100; 5500000] ]}.

(** A mesh of two by two unit cells; faces average their neighbouring cells
    with weight one quarter each (one half on the innermost x-faces). *)
Definition quad : Mesh.t :=
  Mesh.cyl [1; 1] [1; 1] (-2) (repeat 1 10%nat)
    [ [1 # 2; 0; 0; 0; 1 # 4; 0; 1 # 4; 0; 0; 0];
      [1 # 4; 1 # 4; 0; 0; 0; 1 # 4; 0; 1 # 4; 0; 0];
      [0; 0; 1 # 2; 0; 0; 0; 1 # 4; 0; 1 # 4; 0];
      [0; 0; 1 # 4; 1 # 4; 0; 0; 0; 1 # 4; 0; 1 # 4] ].

(** One permeability, one frequency, a current density of [1 + i] on every
    face. *)
Definition one_run : CasingProperties.t := {|
  sigmaair := 1 # 100000000;
  sigmaback := 1 # 100;
  sigmalayer := 1 # 100;
  sigmacasing := 5500000;
  sigmainside := 1;
  muModels := [1];
  casing_top := 0;
  casing_l := 1;
  casing_d := 1;
  casing_t := 1 # 2;
  layer_z := (-2, -1);
  freqs := [1];
  dsz := -1;
  src_b := (2, 0, 0)
|}.

Definition one_field : list (Q * list (list complex)) :=
  [ (1, [ repeat (mkC 1 1) 10%nat ]) ].

(** A mesh of one cell with four faces, two x-faces and two z-faces, to
    which the cell is averaged with the weights 0.5, 0.2, 0.5 and 0.1. *)
Definition four_faces : Mesh.t := {|
  Mesh.hx := [1; 1];
  Mesh.hz := [1];
  Mesh.gridFx := [];
  Mesh.gridFz := [];
  Mesh.vnFx := (2%nat, 1%nat, 1%nat);
  Mesh.vnFy := (2%nat, 0%nat, 1%nat);
  Mesh.vnFz := (2%nat, 1%nat, 1%nat);
  Mesh.area := [1; 1; 1; 1];
  Mesh.aveF2CC := [ [1 # 2; 1 # 5; 1 # 2; 1 # 10] ]
|}.

Definition four_field : list (Q * list (list complex)) :=
  [ (1, [ repeat (mkC 1 1) 4%nat ]) ].

(** A casing of length 2.1 m under a mesh with layers of 0.3 m. *)
Definition stub : CasingProperties.t := {|
  sigmaair := 1 # 100000000;
  sigmaback := 1 # 100;
  sigmalayer := 1 # 100;
  sigmacasing := 5500000;
  sigmainside := 1;
  muModels := [1];
  casing_top := 0;
  casing_l := 21 # 10;
  casing_d := 3;
  casing_t := 1;
  layer_z := (-2, -1);
  freqs := [1];
  dsz := -1;
  src_b := (15 # 2, 0, 0)
|}.

Definition thin_layers : CasingMesh.t := {|
  CasingMesh.csx1 := 1;
  CasingMesh.csx2 := 3;
  CasingMesh.pfx1 := 15 # 10;
  CasingMesh.pfx2 := 15 # 10;
  CasingMesh.dx2 := 12;
  CasingMesh.npadx2 := 1;
  CasingMesh.csz := 3 # 10;
  CasingMesh.nza := 1;
  CasingMesh.pfz := 15 # 10;
  CasingMesh.npadzu := 1;
  CasingMesh.npadzd := 1;
  CasingMesh.cp := stub;
  CasingMesh._hx := None;
  CasingMesh._ncz := None;
  CasingMesh._hz := None;
  CasingMesh._mesh := None
|}.

(** A mesh for [short] whose second cell size is too near the first for a
    padding cell: [csx1 = 1], [csx2 = 1.2], [pfx1 = 1.3]. *)
Definition no_padding : CasingMesh.t := {|
  CasingMesh.csx1 := 1;
  CasingMesh.csx2 := 12 # 10;
  CasingMesh.pfx1 := 13 # 10;
  CasingMesh.pfx2 := 15 # 10;
  CasingMesh.dx2 := 12;
  CasingMesh.npadx2 := 1;
  CasingMesh.csz := 1;
  CasingMesh.nza := 1;
  CasingMesh.pfz := 15 # 10;
  CasingMesh.npadzu := 1;
  CasingMesh.npadzd := 1;
  CasingMesh.cp := short;
  CasingMesh._hx := None;
  CasingMesh._ncz := None;
  CasingMesh._hz := None;
  CasingMesh._mesh := None
|}.

(** A source on [quad] whose electrodes lie outside the mesh. *)
Definition far_src : DownHoleCasingSrc.t :=
  DownHoleCasingSrc.init quad (0, 0, -10) (50, 0, -10) 1 [1; 2].

End Samples.

(** ** Further notions used in the statements *)

Module Design.

Import CasingMesh.

(** Two mesh designers with the same properties and the same casing; the
    attributes that reads set may differ. *)
Definition same_design (a b : CasingMesh.t) : Prop :=
  csx1 a = csx1 b /\ csx2 a = csx2 b /\ pfx1 a = pfx1 b /\ pfx2 a = pfx2 b
  /\ dx2 a = dx2 b /\ npadx2 a = npadx2 b /\ csz a = csz b /\ nza a = nza b
  /\ pfz a = pfz b /\ npadzu a = npadzu b /\ npadzd a = npadzd b
  /\ cp a = cp b.

End Design.

Module Shapes.

Import Currents.

(** A profile entry with one sequence per frequency, each [n] long. *)
Definition shaped (nfreq n : nat) (p : list (list complex)) : Prop :=
  length p = nfreq /\ Forall (fun c => length c = n) p.

End Shapes.

(** * Properties *)

(** ** Comparisons and sums *)

Lemma Qlt_bool_iff x y : Qlt_bool x y = true <-> x < y.
Proof.
  unfold Qlt_bool. rewrite negb_true_iff. split.
  - intros H. apply Qnot_le_lt. intros Hle.
    apply Qle_bool_iff in Hle. congruence.
  - intros H. destruct (Qle_bool y x) eqn:E; [|reflexivity].
    apply Qle_bool_iff in E. exfalso. exact (Qlt_not_le _ _ H E).
Qed.

Lemma Qsum_app l1 l2 : Qsum (l1 ++ l2) == Qsum l1 + Qsum l2.
Proof.
  induction l1 as [|x l1 IH]; simpl.
  - ring.
  - rewrite IH. ring.
Qed.

Lemma Qsum_scale c l : Qsum (map (fun h => h * c) l) == Qsum l * c.
Proof.
  induction l as [|x l IH]; simpl.
  - ring.
  - rewrite IH. ring.
Qed.

Lemma Qsum_repeat h n : Qsum (repeat h n) == inject_Z (Z.of_nat n) * h.
Proof.
  induction n as [|n IH].
  - simpl. ring.
  - rewrite Nat2Z.inj_succ. unfold Z.succ. rewrite inject_Z_plus.
    simpl repeat. simpl Qsum. rewrite IH. ring.
Qed.

Lemma Qsum_pos l :
  l <> [] -> Forall (fun h => 0 < h) l -> 0 < Qsum l.
Proof.
  intros Hne Hall. induction Hall as [|x l Hx Hall IH]; [congruence|].
  simpl. destruct l as [|y l].
  - simpl. lra.
  - assert (0 < Qsum (y :: l)) by (apply IH; discriminate). lra.
Qed.

Lemma Qlt_bool_false x y : Qlt_bool x y = false <-> y <= x.
Proof. unfold Qlt_bool. rewrite negb_false_iff. apply Qle_bool_iff. Qed.

Lemma Qopp_opp_eq (q : Q) : - - q = q.
Proof.
  destruct q as [n d]. unfold Qopp. simpl. rewrite Z.opp_involutive. reflexivity.
Qed.

Lemma Qabs_opp_eq (f : Q) : Qabs (- f) = Qabs f.
Proof. destruct f as [n d]. unfold Qabs, Qopp. simpl. rewrite Z.abs_opp. reflexivity. Qed.

Lemma Qabs_nonneg_eq (q : Q) : 0 <= q -> Qabs q = q.
Proof.
  destruct q as [n d]. unfold Qle, Qabs. simpl. intros H.
  rewrite Z.abs_eq by lia. reflexivity.
Qed.

Lemma Qred_Qred (q : Q) : Qred (Qred q) = Qred q.
Proof. apply Qred_complete, Qred_correct. Qed.

(** ** Double precision *)

Module DoubleFacts.

Import Double.

Lemma pow2_pos e : 0 < 2 ^ e.
Proof. apply Qpower_0_lt. reflexivity. Qed.

Lemma pow2_plus a b : 2 ^ (a + b) == 2 ^ a * 2 ^ b.
Proof. apply Qpower_plus. intros E. discriminate E. Qed.

Lemma pow2_le a b : (a <= b)%Z -> 2 ^ a <= 2 ^ b.
Proof. intros H. apply Qpower_le_compat_l; [exact H|]. intros E. discriminate E. Qed.

Lemma pow2_lt a b : (a < b)%Z -> 2 ^ a < 2 ^ b.
Proof. intros H. apply Qpower_lt_compat_l; [exact H|reflexivity]. Qed.

Lemma pow2_lt_inv a b : 2 ^ a < 2 ^ b -> (a < b)%Z.
Proof. intros H. apply (Qpower_lt_compat_l_inv 2); [exact H|reflexivity]. Qed.

Lemma pow2_Z k : (0 <= k)%Z -> inject_Z (2 ^ k) == 2 ^ k.
Proof. intros H. rewrite Zpower_Qpower by exact H. reflexivity. Qed.

Lemma log2_bounds (n : Z) :
  (0 < n)%Z ->
  2 ^ Z.log2 n <= inject_Z n /\ inject_Z n < 2 ^ (Z.log2 n + 1).
Proof.
  intros H. destruct (Z.log2_spec n H) as [Lo Hi].
  pose proof (Z.log2_nonneg n) as Hn.
  split.
  - rewrite <- pow2_Z by exact Hn. rewrite <- Zle_Qle. exact Lo.
  - rewrite <- pow2_Z by lia. rewrite <- Zlt_Qlt. exact Hi.
Qed.

(** [ilog2 a] is the exponent of the power of two at or below [a]. *)
Lemma ilog2_spec (a : Q) :
  0 < a -> 2 ^ ilog2 a <= a /\ a < 2 ^ (ilog2 a + 1).
Proof.
  intros Ha. destruct a as [n d]. unfold ilog2. cbn [Qnum Qden].
  assert (Hn : (0 < n)%Z).
  { unfold Qlt in Ha. simpl in Ha. lia. }
  destruct (log2_bounds n Hn) as [Nlo Nhi].
  destruct (log2_bounds (Zpos d) eq_refl) as [Dlo Dhi].
  set (ln := Z.log2 n) in *. set (ld := Z.log2 (Zpos d)) in *.
  assert (HD : 0 < inject_Z (Zpos d)) by reflexivity.
  assert (Ea : (n # d) * inject_Z (Zpos d) == inject_Z n).
  { rewrite (Qmake_Qdiv n d). field. intros E. discriminate E. }
  destruct (Qle_bool (2 ^ (ln - ld)) (n # d)) eqn:E.
  - apply Qle_bool_iff in E. split; [exact E|].
    apply (Qmult_lt_r _ _ (inject_Z (Zpos d)) HD). rewrite Ea.
    replace (ln - ld + 1)%Z with ((ln + 1) + - ld)%Z by ring.
    rewrite pow2_plus.
    assert (H1 : 2 ^ (ln + 1) * 2 ^ (- ld) * 2 ^ ld
                 <= 2 ^ (ln + 1) * 2 ^ (- ld) * inject_Z (Zpos d)).
    { apply Qmult_le_l; [|exact Dlo].
      apply Qmult_lt_0_compat; apply pow2_pos. }
    assert (H2 : 2 ^ (ln + 1) * 2 ^ (- ld) * 2 ^ ld == 2 ^ (ln + 1)).
    { rewrite <- Qmult_assoc, <- pow2_plus.
      replace (- ld + ld)%Z with 0%Z by ring. simpl. ring. }
    rewrite H2 in H1. lra.
  - assert (Hlt : (n # d) < 2 ^ (ln - ld)).
    { apply Qnot_le_lt. intros Hle. apply Qle_bool_iff in Hle. congruence. }
    replace (ln - ld - 1 + 1)%Z with (ln - ld)%Z by ring.
    split; [|exact Hlt].
    apply (Qmult_le_r _ _ (inject_Z (Zpos d)) HD). rewrite Ea.
    replace (ln - ld - 1)%Z with (ln + - (ld + 1))%Z by ring.
    rewrite pow2_plus.
    assert (H1 : 2 ^ ln * 2 ^ (- (ld + 1)) * inject_Z (Zpos d)
                 <= 2 ^ ln * 2 ^ (- (ld + 1)) * 2 ^ (ld + 1)).
    { apply Qmult_le_l; [|apply Qlt_le_weak, Dhi].
      apply Qmult_lt_0_compat; apply pow2_pos. }
    assert (H2 : 2 ^ ln * 2 ^ (- (ld + 1)) * 2 ^ (ld + 1) == 2 ^ ln).
    { rewrite <- Qmult_assoc, <- pow2_plus.
      replace (- (ld + 1) + (ld + 1))%Z with 0%Z by ring. simpl. ring. }
    rewrite H2 in H1. lra.
Qed.

Lemma ilog2_unique (a : Q) (k : Z) :
  2 ^ k <= a -> a < 2 ^ (k + 1) -> ilog2 a = k.
Proof.
  intros Lo Hi.
  assert (Ha : 0 < a) by (pose proof (pow2_pos k); lra).
  destruct (ilog2_spec a Ha) as [Lo' Hi'].
  assert (H1 : (ilog2 a < k + 1)%Z) by (apply pow2_lt_inv; lra).
  assert (H2 : (k < ilog2 a + 1)%Z) by (apply pow2_lt_inv; lra).
  lia.
Qed.

Lemma ilog2_comp (a b : Q) : 0 < a -> a == b -> ilog2 a = ilog2 b.
Proof.
  intros Ha E. destruct (ilog2_spec a Ha) as [Lo Hi].
  symmetry. apply ilog2_unique; rewrite <- E; assumption.
Qed.

Lemma rne_comp (q q' : Q) : q == q' -> rne q = rne q'.
Proof.
  intros E. unfold rne. rewrite (Qfloor_comp _ _ E).
  assert (E' : q - inject_Z (Qfloor q') == q' - inject_Z (Qfloor q'))
    by (rewrite E; reflexivity).
  rewrite (Qcompare_comp _ _ E' _ _ (Qeq_refl (1 # 2))). reflexivity.
Qed.

Lemma rne_Z (z : Z) : rne (inject_Z z) = z.
Proof.
  unfold rne. rewrite Qfloor_Z.
  assert (E : inject_Z z - inject_Z z == 0) by ring.
  rewrite (Qcompare_comp _ _ E _ _ (Qeq_refl (1 # 2))). reflexivity.
Qed.

Lemma rne_near (q : Q) :
  rne q = Qfloor q
  \/ (rne q = Qfloor q + 1)%Z /\ inject_Z (Qfloor q) < q.
Proof.
  unfold rne.
  destruct (Qcompare_spec (q - inject_Z (Qfloor q)) (1 # 2)) as [E|E|E].
  - destruct (Z.even (Qfloor q)); [left; reflexivity|right].
    split; [reflexivity|lra].
  - left. reflexivity.
  - right. split; [reflexivity|lra].
Qed.

Lemma rne_le (q : Q) (N : Z) : q <= inject_Z N -> (rne q <= N)%Z.
Proof.
  intros H. pose proof (Qfloor_le q) as Hf.
  destruct (rne_near q) as [->|[-> Hlt]].
  - rewrite Zle_Qle. lra.
  - assert (Hs : inject_Z (Qfloor q) < inject_Z N) by lra.
    rewrite <- Zlt_Qlt in Hs. lia.
Qed.

Lemma rne_ge (q : Q) (N : Z) : inject_Z N <= q -> (N <= rne q)%Z.
Proof.
  intros H. apply Qfloor_resp_le in H. rewrite Qfloor_Z in H.
  destruct (rne_near q) as [->|[-> _]]; lia.
Qed.

Lemma round_pos_comp (a b : Q) : 0 < a -> a == b -> round_pos a = round_pos b.
Proof.
  intros Ha E. unfold round_pos. rewrite (ilog2_comp a b Ha E).
  set (e := Z.max (-1074) (ilog2 b - 52)).
  rewrite (rne_comp (a / 2 ^ e) (b / 2 ^ e)); [reflexivity|].
  rewrite E. reflexivity.
Qed.

(** Rounding a positive number gives [m * 2^e] with at most 53 bits in
    [m] and [e] not below the least exponent. *)
Lemma round_pos_form (a : Q) :
  0 < a ->
  exists m e, round_pos a = inject_Z m * 2 ^ e
              /\ (0 <= m <= 2 ^ 53)%Z /\ (-1074 <= e)%Z.
Proof.
  intros Ha. unfold round_pos.
  set (e := Z.max (-1074) (ilog2 a - 52)).
  exists (rne (a / 2 ^ e)), e. split; [reflexivity|].
  destruct (ilog2_spec a Ha) as [_ Hi].
  pose proof (pow2_pos e) as He.
  split; [|lia]. split.
  - apply rne_ge. apply Qle_shift_div_l; [exact He|].
    change (inject_Z 0) with 0. lra.
  - apply rne_le. rewrite pow2_Z by lia.
    apply Qle_shift_div_r; [exact He|].
    rewrite <- pow2_plus.
    assert (Hle : 2 ^ (ilog2 a + 1) <= 2 ^ (53 + e)) by (apply pow2_le; lia).
    lra.
Qed.

(** Such a number is its own rounding. *)
Lemma round_pos_fix (m e : Z) :
  (0 < m <= 2 ^ 53)%Z -> (-1074 <= e)%Z ->
  round_pos (inject_Z m * 2 ^ e) == inject_Z m * 2 ^ e.
Proof.
  intros Hm He.
  destruct (log2_bounds m ltac:(lia)) as [Lo Hi].
  pose proof (Z.log2_nonneg m) as Hl0.
  set (L := Z.log2 m) in *.
  pose proof (pow2_pos e) as Pe.
  assert (Hlog : ilog2 (inject_Z m * 2 ^ e) = (L + e)%Z).
  { apply ilog2_unique.
    - rewrite pow2_plus. apply Qmult_le_r; [exact Pe|exact Lo].
    - replace (L + e + 1)%Z with ((L + 1) + e)%Z by ring.
      rewrite pow2_plus. apply Qmult_lt_r; [exact Pe|exact Hi]. }
  assert (HL : (L <= 53)%Z).
  { destruct (Z.le_gt_cases L 53) as [H|H]; [exact H|exfalso].
    assert (H54 : 2 ^ 54 <= 2 ^ L) by (apply pow2_le; lia).
    assert (Hm' : inject_Z m <= inject_Z (2 ^ 53)) by (rewrite <- Zle_Qle; lia).
    rewrite pow2_Z in Hm' by lia.
    assert (H53 : (2:Q) ^ 53 < 2 ^ 54) by (apply pow2_lt; lia).
    lra. }
  unfold round_pos. rewrite Hlog.
  set (e' := Z.max (-1074) (L + e - 52)).
  pose proof (pow2_pos e') as Pe'.
  assert (Hint : exists z, inject_Z m * 2 ^ e / 2 ^ e' == inject_Z z).
  { destruct (Z.le_gt_cases L 52) as [H|H].
    - exists (m * 2 ^ (e - e'))%Z.
      rewrite inject_Z_mult, pow2_Z by lia.
      replace e with ((e - e') + e')%Z at 1 by ring.
      rewrite pow2_plus. field. lra.
    - assert (EL : L = 53%Z) by lia.
      assert (Em : inject_Z m == 2 ^ 53).
      { rewrite EL in Lo.
        assert (Hm' : inject_Z m <= inject_Z (2 ^ 53)) by (rewrite <- Zle_Qle; lia).
        rewrite pow2_Z in Hm' by lia. lra. }
      exists (2 ^ 52)%Z. rewrite pow2_Z by lia. rewrite Em.
      assert (Ee : e' = (e + 1)%Z) by lia. rewrite Ee.
      rewrite pow2_plus.
      change ((2:Q) ^ 53) with (2 ^ 52 * 2 ^ 1). field.
      lra. }
  destruct Hint as [z Hz].
  rewrite (rne_comp _ _ Hz), rne_Z, <- Hz. field. lra.
Qed.

Lemma round_comp (x y : Q) : x == y -> round x = round y.
Proof. intros E. unfold round. rewrite (Qred_complete x y E). reflexivity. Qed.

(** Rounding is symmetric about zero. *)
Lemma round_opp (x : Q) :
  round (- x) = (v <- round x ;; Ok (- v)).
Proof.
  unfold round. rewrite Qred_opp. set (x' := Qred x).
  destruct (Qeq_bool x' 0) eqn:E0.
  - apply Qeq_bool_eq in E0.
    assert (E1 : Qeq_bool (- x') 0 = true)
      by (apply Qeq_bool_iff; rewrite E0; reflexivity).
    rewrite E1. reflexivity.
  - assert (H0 : ~ x' == 0) by (apply Qeq_bool_neq, E0).
    assert (E1 : Qeq_bool (- x') 0 = false).
    { destruct (Qeq_bool (- x') 0) eqn:E; [|reflexivity].
      apply Qeq_bool_eq in E. exfalso. apply H0. lra. }
    rewrite E1, Qabs_opp_eq.
    destruct (Qle_bool _ _); [reflexivity|].
    destruct (Qlt_bool x' 0) eqn:Es.
    + apply Qlt_bool_iff in Es.
      assert (Es' : Qlt_bool (- x') 0 = false) by (apply Qlt_bool_false; lra).
      rewrite Es'. cbn [rbind]. rewrite Qopp_opp_eq. reflexivity.
    + apply Qlt_bool_false in Es.
      assert (Es' : Qlt_bool (- x') 0 = true) by (apply Qlt_bool_iff; lra).
      rewrite Es'. reflexivity.
Qed.

(** The result of a rounding is a double: rounding it again changes
    nothing. *)
Lemma round_idem (x v : Q) : round x = Ok v -> round v = Ok v.
Proof.
  unfold round at 1. set (x' := Qred x).
  destruct (Qeq_bool x' 0) eqn:E0; [intros [= <-]; reflexivity|].
  assert (H0 : ~ x' == 0) by (apply Qeq_bool_neq, E0).
  assert (Ha : 0 < Qabs x').
  { destruct (Qlt_le_dec 0 (Qabs x')) as [H|H]; [exact H|exfalso].
    apply H0. apply Qabs_Qle_condition in H. lra. }
  destruct (round_pos_form (Qabs x') Ha) as (m & e & Er & Hm & He).
  set (r := Qred (round_pos (Qabs x'))).
  assert (Hr : r == inject_Z m * 2 ^ e).
  { unfold r. rewrite Qred_correct, Er. reflexivity. }
  destruct (Qle_bool (2 ^ 1024) r) eqn:Eo; [discriminate|].
  assert (Hfix : round r = Ok r).
  { destruct (Z.eq_dec m 0%Z) as [->|Hm0].
    - assert (Er0 : r = 0).
      { unfold r. change 0 with (Qred 0). apply Qred_complete.
        rewrite Er. ring. }
      rewrite Er0. reflexivity.
    - assert (Hpos : 0 < inject_Z m * 2 ^ e).
      { apply Qmult_lt_0_compat; [|apply pow2_pos].
        change 0 with (inject_Z 0). rewrite <- Zlt_Qlt. lia. }
      assert (Hrpos : 0 < r) by (rewrite Hr; exact Hpos).
      unfold round.
      assert (Err : Qred r = r) by apply Qred_Qred.
      rewrite Err.
      assert (E1 : Qeq_bool r 0 = false).
      { destruct (Qeq_bool r 0) eqn:E; [|reflexivity].
        apply Qeq_bool_eq in E. lra. }
      rewrite E1, (Qabs_nonneg_eq r) by lra.
      assert (Erp : Qred (round_pos r) = r).
      { rewrite <- Err at 2. apply Qred_complete.
        rewrite (round_pos_comp r _ Hrpos Hr).
        rewrite round_pos_fix by lia. symmetry. exact Hr. }
      rewrite Erp, Eo.
      assert (Es : Qlt_bool r 0 = false) by (apply Qlt_bool_false; lra).
      rewrite Es. reflexivity. }
  destruct (Qlt_bool x' 0); intros [= <-]; [|exact Hfix].
  rewrite round_opp, Hfix. reflexivity.
Qed.

(** Some decimal literals and quotients, as Python prints them:
    [0.1 + 0.2 = 0.30000000000000004], [2.1 / 0.3 = 7.000000000000001],
    [1100 / 0.05 = 22000.0]; the largest double; a literal that is [inf]. *)
Example round_samples :
  (a <- round (1 # 10) ;; b <- round (2 # 10) ;; fadd a b)
    = Ok (1351079888211149 # 4503599627370496)
  /\ (a <- round (21 # 10) ;; b <- round (3 # 10) ;; fdiv a b)
      = Ok (7881299347898369 # 1125899906842624)
  /\ (b <- round (5 # 100) ;; fdiv 1100 b) = Ok 22000
  /\ round (2 ^ 1024 - 2 ^ 970 - 1) = Ok (2 ^ 1024 - 2 ^ 971)
  /\ round (2 ^ 1024 - 2 ^ 970) = Raise NonFinite
  /\ round (1 # 2 ^ 1075) = Ok 0.
Proof.
  split; [vm_compute; reflexivity|].
  split; [vm_compute; reflexivity|].
  split; [vm_compute; reflexivity|].
  split; [vm_compute; reflexivity|].
  split; vm_compute; reflexivity.
Qed.

End DoubleFacts.

(** ** The mesh designer *)

Module GridFacts.

Import Utils CasingProperties CasingMesh.


Lemma pad_cells_pos h n f :
  0 < h -> ~ f == 0 -> Forall (fun w => 0 < w) (pad_cells h n f).
Proof.
  intros Hh Hf. unfold pad_cells. apply Forall_map, Forall_forall.
  intros k _. simpl. apply Qmult_lt_0_compat; [|exact Hh].
  apply Qpower_0_lt. destruct (Qlt_le_dec 0 (Qabs f)) as [Hp|Hn]; [exact Hp|].
  exfalso. apply Hf.
  assert (Ha : Qabs f <= 0) by exact Hn.
  apply Qabs_Qle_condition in Ha. lra.
Qed.

Lemma expand_padded_sum h n f :
  0 < h -> ~ f == 0 -> (1 <= n)%Z ->
  exists b, expand (Padded h n f) = Ok b /\ 0 < Qsum b
            /\ length b = Z.to_nat n.
Proof.
  intros Hh Hf Hn. unfold expand.
  destruct (Z.ltb_spec n 0) as [Hlt|_]; [lia|].
  pose proof (pad_cells_pos h (Z.to_nat n) f Hh Hf) as Hall.
  assert (Hlen : length (pad_cells h (Z.to_nat n) f) = Z.to_nat n).
  { unfold pad_cells. rewrite length_map. apply length_seq. }
  assert (Hne : pad_cells h (Z.to_nat n) f <> []).
  { intros E. rewrite E in Hlen. simpl in Hlen. lia. }
  destruct (Qlt_bool f 0).
  - exists (rev (pad_cells h (Z.to_nat n) f)). split; [reflexivity|]. split.
    + apply Qsum_pos.
      * intros E. apply (f_equal (@rev Q)) in E. rewrite rev_involutive in E.
        exact (Hne E).
      * apply Forall_rev. exact Hall.
    + rewrite length_rev. exact Hlen.
  - exists (pad_cells h (Z.to_nat n) f). split; [reflexivity|]. split.
    + apply Qsum_pos; assumption.
    + exact Hlen.
Qed.

Lemma expand_padded_ok h n f :
  (0 <= n)%Z -> exists b, expand (Padded h n f) = Ok b.
Proof.
  intros Hn. unfold expand.
  destruct (Z.ltb_spec n 0) as [Hlt|_]; [lia|]. eauto.
Qed.

Lemma meshTensor_cells h n : meshTensor [Cells h n] = Ok (repeat h (Z.to_nat n)).
Proof. simpl. rewrite app_nil_r. reflexivity. Qed.

Lemma meshTensor_padded h n f b :
  expand (Padded h n f) = Ok b -> meshTensor [Padded h n f] = Ok b.
Proof.
  intros E. cbn [meshTensor]. rewrite E. simpl. rewrite app_nil_r. reflexivity.
Qed.

(** C1 (as amended): in double arithmetic the first read of [ncz] gives
    [ceil(d / csz) + 10], where [d] is the double nearest to
    [casing_l - casing_top], the depth of the bottom of the casing, and the
    quotient is rounded to a double before the ceiling is taken; it is
    [ceil(casing_l / csz) + 10] when the casing starts at the surface
    ([casing_top = 0]).  The read raises where a literal or a result is not
    a finite double or [csz] is zero. *)
Theorem ncz_counts_to_casing_bottom (self : CasingMesh.t) :
  _ncz self = None ->
  fst (ncz self)
    = (l <- Double.round (casing_l (cp self)) ;;
       top <- Double.round (casing_top (cp self)) ;;
       d <- Double.fsub l top ;;
       c <- Double.round (csz self) ;;
       q <- Double.fdiv d c ;;
       Ok (Qceiling q + 10)%Z)
  /\ (casing_top (cp self) == 0 ->
      fst (ncz self)
      = (l <- Double.round (casing_l (cp self)) ;;
         c <- Double.round (csz self) ;;
         q <- Double.fdiv l c ;;
         Ok (Qceiling q + 10)%Z)).
Proof.
  intros Hcache.
  assert (E : fst (ncz self) = ncz_body self).
  { unfold ncz. rewrite Hcache. destruct (ncz_body self); reflexivity. }
  rewrite E. clear E. unfold ncz_body, casing_z.
  destruct (Double.round (casing_l (cp self))) as [l|e] eqn:El; cbn [rbind];
    [|split; [reflexivity|intros _; reflexivity]].
  assert (Ez : forall t, Double.round (casing_top (cp self)) = Ok t ->
             (z0 <- Double.fadd (- l) t ;; z1 <- Double.fadd 0 t ;; Ok (z0, z1))
             = (d <- Double.fsub l t ;; Ok (- d, t))).
  { intros t Et. unfold Double.fadd, Double.fsub.
    rewrite (DoubleFacts.round_comp (- l + t) (- (l - t))) by ring.
    rewrite DoubleFacts.round_opp.
    rewrite (DoubleFacts.round_comp (0 + t) t) by ring.
    rewrite (DoubleFacts.round_idem _ _ Et).
    destruct (Double.round (l - t)); reflexivity. }
  split.
  - destruct (Double.round (casing_top (cp self))) as [t|e] eqn:Et; cbn [rbind];
      [|reflexivity].
    rewrite (Ez t eq_refl).
    destruct (Double.fsub l t) as [d|e]; cbn [rbind fst]; [|reflexivity].
    rewrite Qopp_opp_eq. reflexivity.
  - intros Htop.
    assert (Et : Double.round (casing_top (cp self)) = Ok 0)
      by (rewrite (DoubleFacts.round_comp _ 0 Htop); reflexivity).
    rewrite Et. cbn [rbind]. rewrite (Ez 0 Et).
    unfold Double.fsub.
    rewrite (DoubleFacts.round_comp (l - 0) l) by ring.
    rewrite (DoubleFacts.round_idem _ _ El). cbn [rbind fst].
    rewrite Qopp_opp_eq. reflexivity.
Qed.

Lemma ncz_counts_to_casing_bottom_witness :
  fst (ncz (init CasingProperties.default))
    = (l <- Double.round (casing_l CasingProperties.default) ;;
       top <- Double.round (casing_top CasingProperties.default) ;;
       d <- Double.fsub l top ;;
       c <- Double.round (csz (init CasingProperties.default)) ;;
       q <- Double.fdiv d c ;;
       Ok (Qceiling q + 10)%Z)
  /\ (casing_top CasingProperties.default == 0 ->
      fst (ncz (init CasingProperties.default))
      = (l <- Double.round (casing_l CasingProperties.default) ;;
         c <- Double.round (csz (init CasingProperties.default)) ;;
         q <- Double.fdiv l c ;;
         Ok (Qceiling q + 10)%Z)).
Proof.
  apply (ncz_counts_to_casing_bottom (init CasingProperties.default)).
  reflexivity.
Defined.

(** The quotient is rounded before the ceiling: for a casing of 2.1 m and
    layers of 0.3 m the doubles give [2.1 / 0.3 = 7.000000000000001] and 18
    core layers, one more than [ceil(7) + 10]. *)
Example ncz_rounds_the_quotient :
  fst (ncz Samples.thin_layers) = Ok 18%Z
  /\ (Qceiling (casing_l Samples.stub / csz Samples.thin_layers) + 10 = 17)%Z.
Proof. split; vm_compute; reflexivity. Qed.

(** The defaults: 24 fine cells, 35 padding cells, 20010 core layers. *)
Example ncz_default : fst (ncz (init CasingProperties.default)) = Ok 20010%Z.
Proof. reflexivity. Qed.

Example ncx1_default : ncx1 (init CasingProperties.default) = Ok 24%Z.
Proof. reflexivity. Qed.

Example npadx1_default : npadx1 (init CasingProperties.default) = Ok 35%Z.
Proof. vm_compute. reflexivity. Qed.

(** With the defaults the rescaled padding ends at 4 * 25 m and forty cells
    of 25 m follow, so that the third region ends at 1100 m. *)
Example hx_default :
  (L <- hx_body (init CasingProperties.default) ;;
   Ok (length (hx1a L), length (hx1b L), Qred (dx1 L), ncx2 L,
       length (hx2a L)))
  = Ok (24%nat, 35%nat, 4, 40%Z, 40%nat).
Proof. vm_compute. reflexivity. Qed.

(** C1 (as stated) fails: with the top of the casing 100 m down, [ncz] is
    22010 and not [ceil(casing_l / csz) + 10 = 20010]. *)
Lemma ncz_varies_with_casing_top :
  fst (ncz (init Samples.buried)) = Ok 22010%Z
  /\ fst (ncz (init Samples.buried))
     <> Ok (Qceiling (casing_l Samples.buried / csz (init Samples.buried)) + 10)%Z
  /\ fst (ncz (init Samples.buried)) <> fst (ncz (init CasingProperties.default))
  /\ casing_l Samples.buried = casing_l CasingProperties.default
  /\ csz (init Samples.buried) = csz (init CasingProperties.default).
Proof.
  split; [vm_compute; reflexivity|].
  split; [vm_compute; intros E; discriminate E|].
  split; [vm_compute; intros E; discriminate E|].
  split; reflexivity.
Qed.

Lemma np_div_inv a b q : np_div a b = Ok q -> ~ b == 0 /\ q = a / b.
Proof.
  unfold np_div. destruct (Qeq_bool b 0) eqn:E; [discriminate|].
  intros [= <-]. split; [apply Qeq_bool_neq, E | reflexivity].
Qed.

Lemma pad_length h n f : length (pad_cells h n f) = n.
Proof. unfold pad_cells. rewrite length_map. apply length_seq. Qed.

Lemma pad_or_rev_length (b : bool) h n f :
  length (if b then rev (pad_cells h n f) else pad_cells h n f) = n.
Proof. destruct b; rewrite ?length_rev; apply pad_length. Qed.

Lemma pad_or_rev_pos (b : bool) h n f :
  0 < h -> ~ f == 0 ->
  Forall (fun w => 0 < w) (if b then rev (pad_cells h n f) else pad_cells h n f).
Proof.
  intros Hh Hf. destruct b; [apply Forall_rev|]; apply pad_cells_pos; assumption.
Qed.

Lemma meshTensor_padded_inv h n f b :
  meshTensor [Padded h n f] = Ok b ->
  (0 <= n)%Z
  /\ b = (if Qlt_bool f 0 then rev (pad_cells h (Z.to_nat n) f)
          else pad_cells h (Z.to_nat n) f).
Proof.
  cbn [meshTensor expand]. destruct (Z.ltb_spec n 0); cbn [rbind]; [discriminate|].
  rewrite app_nil_r. intros [= <-]. split; [lia|reflexivity].
Qed.


Lemma rescale_inv b num den b' :
  rescale b num den = Ok b' ->
  b' = map (fun h => h * (num / den)) b /\ (b <> [] -> ~ den == 0).
Proof.
  destruct b as [|x b]; simpl.
  - intros [= <-]. split; [reflexivity|congruence].
  - destruct (np_div num den) as [f|] eqn:E; cbn [rbind]; [|discriminate].
    apply np_div_inv in E. destruct E as [Hd ->].
    intros [= <-]. split; [reflexivity|intros _; exact Hd].
Qed.


(** What a successful run of the lines of [hx] went through. *)
Lemma hx_cells_inv (self : CasingMesh.t) (n1 np1 : Z) (L : hx_locals) :
  hx_cells self n1 np1 = Ok L ->
  (0 <= np1)%Z
  /\ (0 <= npadx2 self)%Z
  /\ ~ csx2 self == 0
  /\ (hx1b_pad L <> [] -> ~ Qsum (hx1b_pad L) == 0)
  /\ hx1a L = repeat (csx1 self) (Z.to_nat n1)
  /\ hx1b_pad L = (if Qlt_bool (pfx1 self) 0
                   then rev (pad_cells (csx1 self) (Z.to_nat np1) (pfx1 self))
                   else pad_cells (csx1 self) (Z.to_nat np1) (pfx1 self))
  /\ dx1_sum L = Qsum (hx1a L) + Qsum (hx1b_pad L)
  /\ dx1 L = inject_Z (Qfloor (dx1_sum L / csx2 self))
  /\ hx1b L = map (fun h => h * ((dx1 L * csx2 self - Qsum (hx1a L))
                                 / Qsum (hx1b_pad L))) (hx1b_pad L)
  /\ ncx2 L = Qceiling ((dx2 self - dx1 L) / csx2 self)
  /\ hx2a L = repeat (csx2 self) (Z.to_nat (ncx2 L))
  /\ hx2b L = (if Qlt_bool (pfx2 self) 0
               then rev (pad_cells (csx2 self) (Z.to_nat (npadx2 self)) (pfx2 self))
               else pad_cells (csx2 self) (Z.to_nat (npadx2 self)) (pfx2 self)).
Proof.
  intros H. unfold hx_cells in H.
  rewrite meshTensor_cells in H. cbn [rbind] in H.
  destruct (meshTensor [Padded (csx1 self) np1 (pfx1 self)]) as [b|] eqn:E3;
    cbn [rbind] in H; [|discriminate].
  destruct (np_div (Qsum (repeat (csx1 self) (Z.to_nat n1)) + Qsum b) (csx2 self))
    as [q|] eqn:E4; cbn [rbind] in H; [|discriminate].
  destruct (rescale b (inject_Z (Qfloor q) * csx2 self
                       - Qsum (repeat (csx1 self) (Z.to_nat n1))) (Qsum b))
    as [b'|] eqn:E5; cbn [rbind] in H; [|discriminate].
  destruct (np_div (dx2 self - inject_Z (Qfloor q)) (csx2 self))
    as [q2|] eqn:E6; cbn [rbind] in H; [|discriminate].
  rewrite meshTensor_cells in H. cbn [rbind] in H.
  destruct (meshTensor [Padded (csx2 self) (npadx2 self) (pfx2 self)])
    as [b2|] eqn:E7; cbn [rbind] in H; [|discriminate].
  injection H as <-. cbn [hx1a hx1b hx1b_pad dx1 dx1_sum ncx2 hx2a hx2b].
  apply meshTensor_padded_inv in E3, E7.
  destruct E3 as [Hnp Eb], E7 as [Hnp2 ->].
  apply np_div_inv in E4, E6. destruct E4 as [Hc2 ->], E6 as [_ ->].
  apply rescale_inv in E5. destruct E5 as [-> Hden].
  rewrite <- Eb.
  split; [exact Hnp|]. split; [exact Hnp2|]. split; [exact Hc2|].
  split; [exact Hden|]. repeat split; reflexivity.
Qed.

Lemma hx_body_inv (self : CasingMesh.t) (L : hx_locals) :
  hx_body self = Ok L ->
  exists n1 np1,
    ncx1 self = Ok n1 /\ npadx1 self = Ok np1 /\ hx_cells self n1 np1 = Ok L.
Proof.
  unfold hx_body.
  destruct (ncx1 self) as [n1|]; cbn [rbind]; [|discriminate].
  destruct (npadx1 self) as [np1|]; cbn [rbind]; [|discriminate].
  intros H. exists n1, np1. auto.
Qed.



(** The counts that the sample mesh reads, and those of a mesh whose
    padding factor leaves no room for a padding cell. *)
Example counts_on_samples :
  ncx1 Samples.half_metre = Ok 102%Z
  /\ npadx1 Samples.half_metre = Ok 5%Z
  /\ ncx1 Samples.no_padding = Ok 4%Z
  /\ npadx1 Samples.no_padding = Ok 0%Z.
Proof. repeat split; vm_compute; reflexivity. Qed.


(** C3 on the sample mesh with [csx2 = 0.5] and [dx2 = 10]: the first two
    regions end at 1.5, [ncx2] is [ceil((10 - 3) / 0.5) = 14], and the three
    regions together end at 8.5, short of [dx2]. *)
Theorem hx_coarse_region_falls_short :
  exists L,
    hx_body Samples.half_metre = Ok L
    /\ dx1 L == 3
    /\ ncx2 L = 14%Z
    /\ Qsum (hx1a L) + Qsum (hx1b L) == 3 # 2
    /\ Qsum (hx1a L) + Qsum (hx1b L) + Qsum (hx2a L) == 17 # 2
    /\ Qsum (hx1a L) + Qsum (hx1b L) + Qsum (hx2a L) < dx2 Samples.half_metre.
Proof.
  eexists. split; [vm_compute; reflexivity|].
  split; [vm_compute; reflexivity|].
  split; [vm_compute; reflexivity|].
  split; [vm_compute; reflexivity|].
  split; vm_compute; reflexivity.
Qed.

End GridFacts.

(** ** The source *)

Module SourceFacts.

Import Mesh DownHoleCasingSrc.

Lemma zip_with_map2 {A B C D} (f : B -> C -> D) (p : A -> B) (g : A -> C) l :
  zip_with f (map p l) (map g l) = map (fun x => f (p x) (g x)) l.
Proof.
  induction l as [|x l IH]; simpl; [reflexivity|]. rewrite IH. reflexivity.
Qed.

Lemma zeros_map {A} (l : list A) : zeros (length l) = map (fun _ => C0) l.
Proof.
  unfold zeros. induction l as [|x l IH]; simpl; [reflexivity|].
  rewrite IH. reflexivity.
Qed.

Lemma mask_set_map {A} (p : A -> bool) (g : A -> complex) v (l : list A) :
  mask_set (map g l) (map p l) v
  = Ok (map (fun x => if p x then v else g x) l).
Proof.
  unfold mask_set. rewrite !length_map, Nat.eqb_refl.
  rewrite zip_with_map2. reflexivity.
Qed.

(** The three arrays in closed form. *)
Lemma dg_parts_closed (self : t) (hxmin hzmin : Q) :
  amin (hx (mesh self)) = Ok hxmin ->
  amin (hz (mesh self)) = Ok hzmin ->
  length (gridFx (mesh self)) = nFx (mesh self) ->
  length (gridFz (mesh self)) = nFz (mesh self) ->
  dg_parts self
  = Ok (map (unit_x self hzmin) (gridFx (mesh self)),
        zeros (nFy (mesh self)),
        map (unit_z self hxmin hzmin) (gridFz (mesh self))).
Proof.
  intros Hx Hz Lx Lz.
  unfold dg_parts, dgv_ind, dgh_ind2, sgh_ind, sgv_ind, vnF.
  rewrite Hx, Hz. cbn [rbind fst snd].
  rewrite <- Lx, <- Lz, !zeros_map.
  rewrite mask_set_map. cbn [rbind].
  rewrite mask_set_map. cbn [rbind].
  rewrite mask_set_map. cbn [rbind].
  rewrite mask_set_map. cbn [rbind].
  reflexivity.
Qed.

Lemma Csum_app u v :
  re (Csum (u ++ v)) == re (Csum u) + re (Csum v)
  /\ im (Csum (u ++ v)) == im (Csum u) + im (Csum v).
Proof.
  induction u as [|c u [IHr IHi]]; simpl.
  - split; ring.
  - rewrite IHr, IHi. split; ring.
Qed.

Lemma Csum_zeros n : re (Csum (zeros n)) == 0 /\ im (Csum (zeros n)) == 0.
Proof.
  unfold zeros. induction n as [|n [IHr IHi]]; simpl.
  - split; reflexivity.
  - rewrite IHr, IHi. split; reflexivity.
Qed.

Lemma qnat_S n : qnat (S n) == qnat n + 1.
Proof.
  unfold qnat. rewrite Nat2Z.inj_succ. unfold Z.succ.
  rewrite inject_Z_plus. reflexivity.
Qed.

(** A sum of entries that are [lo] where [a] holds, else [hi] where [b]
    holds, else zero. *)
Lemma Csum_two_masks {A} (a b : A -> bool) (l : list A) :
  re (Csum (map (fun f => if a f then C1 else if b f then Cm1 else C0) l))
    == qnat (count_if a l) - qnat (count_if (fun f => b f && negb (a f)) l)
  /\ re (Csum (map (fun f => if a f then Cm1 else if b f then C1 else C0) l))
    == qnat (count_if (fun f => b f && negb (a f)) l) - qnat (count_if a l)
  /\ im (Csum (map (fun f => if a f then C1 else if b f then Cm1 else C0) l))
    == 0
  /\ im (Csum (map (fun f => if a f then Cm1 else if b f then C1 else C0) l))
    == 0.
Proof.
  induction l as [|f l (IH1 & IH2 & IH3 & IH4)]; cbn [map Csum fold_right count_if].
  - unfold qnat. simpl. repeat split; reflexivity.
  - fold (Csum (map (fun f => if a f then C1 else if b f then Cm1 else C0) l)).
    fold (Csum (map (fun f => if a f then Cm1 else if b f then C1 else C0) l)).
    destruct (a f), (b f); cbn [andb negb Cadd re im C0 C1 Cm1];
      rewrite ?qnat_S, ?IH1, ?IH2, ?IH3, ?IH4; repeat split; ring.
Qed.

Lemma div_zip_ok (v : list complex) (a : list Q) :
  length v = length a ->
  Forall (fun x => ~ x == 0) a ->
  div_zip v a = Ok (zip_with Cdivr v a).
Proof.
  revert a. induction v as [|c v IH]; intros [|x a] Hlen Hall;
    simpl in *; try reflexivity; try discriminate.
  inversion Hall as [|? ? Hx Ha]; subst.
  unfold div_entry. destruct (Qeq_bool x 0) eqn:E.
  - apply Qeq_bool_eq in E. contradiction.
  - cbn [rbind]. rewrite IH by (try lia; assumption). reflexivity.
Qed.

Lemma sources_ok (v : list complex) (a : list Q) (fs : list Q) :
  length v = length a ->
  Forall (fun x => ~ x == 0) a ->
  sources v a fs
  = Ok (map (fun f => {| rxList := []; freq := f; s_e := zip_with Cdivr v a |}) fs).
Proof.
  intros Hlen Hall. induction fs as [|f fs IH]; simpl; [reflexivity|].
  unfold array_div. rewrite Hlen, Nat.eqb_refl.
  rewrite (div_zip_ok v a Hlen Hall). cbn [rbind]. rewrite IH. reflexivity.
Qed.

(** C2 (as amended): the signed unit injections are the same vector for
    every frequency, and their sum is the number of return-electrode faces
    plus the number of coupling faces that are not surface-wire faces, minus
    the number of surface-wire faces and of borehole faces that are not
    return-electrode faces. *)
Theorem unit_injections_sum (self : DownHoleCasingSrc.t) (hxmin hzmin : Q) :
  amin (hx (mesh self)) = Ok hxmin ->
  amin (hz (mesh self)) = Ok hzmin ->
  length (gridFx (mesh self)) = nFx (mesh self) ->
  length (gridFz (mesh self)) = nFz (mesh self) ->
  exists v,
    dg self = Ok v
    /\ dg_p_body self = sources v (area (mesh self)) (freqs self)
    /\ re (Csum v)
       == qnat (count_if (sgv_test self hzmin) (gridFz (mesh self)))
          + qnat (count_if (fun f => dgh_test self hzmin f
                                     && negb (sgh_test self hzmin f))
                    (gridFx (mesh self)))
          - qnat (count_if (sgh_test self hzmin) (gridFx (mesh self)))
          - qnat (count_if (fun f => dgv_test self hxmin hzmin f
                                     && negb (sgv_test self hzmin f))
                    (gridFz (mesh self)))
    /\ im (Csum v) == 0.
Proof.
  intros Hx Hz Lx Lz.
  pose proof (dg_parts_closed self hxmin hzmin Hx Hz Lx Lz) as Hp.
  eexists. split; [unfold dg; rewrite Hp; reflexivity|].
  split; [unfold dg_p_body, dg; rewrite Hp; reflexivity|].
  cbn [fst snd].
  destruct (Csum_app (map (unit_x self hzmin) (gridFx (mesh self)))
              (zeros (nFy (mesh self))
               ++ map (unit_z self hxmin hzmin) (gridFz (mesh self))))
    as [Er Ei].
  destruct (Csum_app (zeros (nFy (mesh self)))
              (map (unit_z self hxmin hzmin) (gridFz (mesh self))))
    as [Er' Ei'].
  destruct (Csum_zeros (nFy (mesh self))) as [Zr Zi].
  destruct (Csum_two_masks (sgh_test self hzmin) (dgh_test self hzmin)
              (gridFx (mesh self))) as (_ & X2 & _ & X4).
  destruct (Csum_two_masks (sgv_test self hzmin) (dgv_test self hxmin hzmin)
              (gridFz (mesh self))) as (Z1 & _ & Z3 & _).
  unfold unit_x, unit_z in *.
  rewrite Er, Ei, Er', Ei', Zr, Zi, X2, X4, Z1, Z3. split; ring.
Qed.

Lemma unit_injections_sum_witness :
  exists v,
    dg Samples.toy_src = Ok v
    /\ dg_p_body Samples.toy_src
       = sources v (area (mesh Samples.toy_src)) (freqs Samples.toy_src)
    /\ re (Csum v)
       == qnat (count_if (sgv_test Samples.toy_src 1)
                  (gridFz (mesh Samples.toy_src)))
          + qnat (count_if (fun f => dgh_test Samples.toy_src 1 f
                                     && negb (sgh_test Samples.toy_src 1 f))
                    (gridFx (mesh Samples.toy_src)))
          - qnat (count_if (sgh_test Samples.toy_src 1)
                    (gridFx (mesh Samples.toy_src)))
          - qnat (count_if (fun f => dgv_test Samples.toy_src 1 1 f
                                     && negb (sgv_test Samples.toy_src 1 f))
                    (gridFz (mesh Samples.toy_src)))
    /\ im (Csum v) == 0.
Proof.
  apply (unit_injections_sum Samples.toy_src 1 1); reflexivity.
Defined.

(** C2 (as stated) fails: on the mesh designed for the sample casing
    (radial widths 1, 1, 1, 1, 0.8, 1.2, 3, 3, 3, 3, 4.5; fourteen layers
    from z = -12.5 to z = 2.5) three borehole faces and six surface faces
    carry -1, one coupling face and three return faces carry +1, and the
    sum is -5. *)
Lemma unit_injections_do_not_cancel :
  ~ (forall m v,
       fst (CasingMesh.mesh Samples.coarse (repeat 1 319%nat) []) = Ok m ->
       dg (Samples.short_src m) = Ok v ->
       Ceq (Csum v) C0).
Proof.
  intros H.
  destruct (fst (CasingMesh.mesh Samples.coarse (repeat 1 319%nat) []))
    as [m|e] eqn:Em; [|vm_compute in Em; discriminate Em].
  destruct (dg (Samples.short_src m)) as [v|e] eqn:Ev.
  - destruct (H m v eq_refl Ev) as [Hr _].
    vm_compute in Em. injection Em as <-.
    vm_compute in Ev. injection Ev as <-.
    vm_compute in Hr. discriminate Hr.
  - vm_compute in Em. injection Em as <-.
    vm_compute in Ev. discriminate Ev.
Qed.

(** C5 (as amended): a return-electrode face carries +1 and a surface-wire
    face -1; a borehole face carries -1 unless it is also a return-electrode
    face, a coupling face +1 unless it is also a surface-wire face; every
    other face carries 0.  Each source holds these entries divided by the
    area of their face. *)
Theorem dg_p_entries (self : DownHoleCasingSrc.t) (hxmin hzmin : Q) :
  amin (hx (mesh self)) = Ok hxmin ->
  amin (hz (mesh self)) = Ok hzmin ->
  length (gridFx (mesh self)) = nFx (mesh self) ->
  length (gridFz (mesh self)) = nFz (mesh self) ->
  length (area (mesh self)) = nF (mesh self) ->
  Forall (fun x => ~ x == 0) (area (mesh self)) ->
  exists srcs,
    dg_p_body self = Ok srcs
    /\ map freq srcs = freqs self
    /\ dg self
       = Ok (map (fun f => if sgh_test self hzmin f then Cm1
                           else if dgh_test self hzmin f then C1 else C0)
               (gridFx (mesh self))
             ++ zeros (nFy (mesh self))
             ++ map (fun f => if sgv_test self hzmin f then C1
                              else if dgv_test self hxmin hzmin f then Cm1
                              else C0)
                  (gridFz (mesh self)))
    /\ forall s i c v,
         In s srcs -> dg self = Ok v -> v !! i = Some c ->
         exists a, area (mesh self) !! i = Some a
                   /\ s_e s !! i = Some (Cdivr c a).
Proof.
  intros Hx Hz Lx Lz La Hall.
  pose proof (dg_parts_closed self hxmin hzmin Hx Hz Lx Lz) as Hp.
  assert (Hdg : dg self
    = Ok (map (unit_x self hzmin) (gridFx (mesh self))
          ++ zeros (nFy (mesh self))
          ++ map (unit_z self hxmin hzmin) (gridFz (mesh self)))).
  { unfold dg. rewrite Hp. reflexivity. }
  set (u := map (unit_x self hzmin) (gridFx (mesh self))
            ++ zeros (nFy (mesh self))
            ++ map (unit_z self hxmin hzmin) (gridFz (mesh self))) in *.
  assert (Hlen : length u = length (area (mesh self))).
  { unfold u, zeros. rewrite !length_app, !length_map, repeat_length, La.
    unfold nF. lia. }
  exists (map (fun f => {| rxList := []; freq := f;
                           s_e := zip_with Cdivr u (area (mesh self)) |})
            (freqs self)).
  split; [unfold dg_p_body; rewrite Hdg; cbn [rbind];
          apply sources_ok; assumption|].
  split; [rewrite map_map; simpl; apply map_id|].
  split; [exact Hdg|].
  intros s i c v Hin Hv Hi. rewrite Hdg in Hv. injection Hv as <-.
  apply in_map_iff in Hin. destruct Hin as (f & <- & _). simpl.
  destruct (area (mesh self) !! i) as [a|] eqn:Ea.
  - exists a. split; [reflexivity|].
    rewrite lookup_zip_with, Hi, Ea. reflexivity.
  - apply lookup_ge_None in Ea. apply lookup_lt_Some in Hi. lia.
Qed.

Lemma dg_p_entries_witness :
  exists srcs,
    dg_p_body Samples.toy_src = Ok srcs
    /\ map freq srcs = freqs Samples.toy_src
    /\ dg Samples.toy_src
       = Ok (map (fun f => if sgh_test Samples.toy_src 1 f then Cm1
                           else if dgh_test Samples.toy_src 1 f then C1 else C0)
               (gridFx (mesh Samples.toy_src))
             ++ zeros (nFy (mesh Samples.toy_src))
             ++ map (fun f => if sgv_test Samples.toy_src 1 f then C1
                              else if dgv_test Samples.toy_src 1 1 f then Cm1
                              else C0)
                  (gridFz (mesh Samples.toy_src)))
    /\ forall s i c v,
         In s srcs -> dg Samples.toy_src = Ok v -> v !! i = Some c ->
         exists a, area (mesh Samples.toy_src) !! i = Some a
                   /\ s_e s !! i = Some (Cdivr c a).
Proof.
  apply (dg_p_entries Samples.toy_src 1 1); try reflexivity.
  simpl. repeat constructor; intros E; discriminate E.
Defined.

(** C5 (as stated) fails: with the return electrode inside the innermost
    cell, the z-face at radius 0.5 and height 0 is a borehole face and
    carries +1, the value of the later assignment. *)
Lemma borehole_face_overwritten :
  ~ (forall i f p,
       gridFz (mesh Samples.near_src) !! i = Some f ->
       dgv_test Samples.near_src 1 1 f = true ->
       dg_parts Samples.near_src = Ok p ->
       snd p !! i = Some Cm1).
Proof.
  intros H.
  destruct (dg_parts Samples.near_src) as [p|e] eqn:E;
    [|vm_compute in E; discriminate E].
  pose proof (H 12%nat (1 # 2, 0, 0) p eq_refl eq_refl eq_refl) as Hi.
  vm_compute in E. injection E as <-. vm_compute in Hi. discriminate Hi.
Qed.

(** C6 (as amended): the coupling faces are the x-faces whose radial
    coordinate is at most the inner radius of the casing and whose vertical
    coordinate is at or below the source depth, by less than one minimum
    vertical cell width. *)
Theorem dgh_ind2_at_or_below_source (self : DownHoleCasingSrc.t) (hzmin : Q) :
  amin (hz (mesh self)) = Ok hzmin ->
  exists mask,
    dgh_ind2 self = Ok mask
    /\ length mask = length (gridFx (mesh self))
    /\ forall i f,
         gridFx (mesh self) !! i = Some f ->
         exists b, mask !! i = Some b
           /\ (b = true <->
                 col0 f <= casing_a self
                 /\ col2 (src_a self) - hzmin < col2 f
                 /\ col2 f <= col2 (src_a self)).
Proof.
  intros Hz. unfold dgh_ind2. rewrite Hz. cbn [rbind].
  eexists. split; [reflexivity|]. split; [apply length_map|].
  intros i f Hf. exists (dgh_test self hzmin f). split.
  - rewrite list_lookup_fmap_Some. exists f. split; [reflexivity|exact Hf].
  - unfold dgh_test. rewrite !andb_true_iff, !Qle_bool_iff, Qlt_bool_iff. tauto.
Qed.

Lemma dgh_ind2_at_or_below_source_witness :
  exists mask,
    dgh_ind2 Samples.toy_src = Ok mask
    /\ length mask = length (gridFx (mesh Samples.toy_src))
    /\ forall i f,
         gridFx (mesh Samples.toy_src) !! i = Some f ->
         exists b, mask !! i = Some b
           /\ (b = true <->
                 col0 f <= casing_a Samples.toy_src
                 /\ col2 (src_a Samples.toy_src) - 1 < col2 f
                 /\ col2 f <= col2 (src_a Samples.toy_src)).
Proof.
  apply (dgh_ind2_at_or_below_source Samples.toy_src 1). reflexivity.
Defined.

(** C6 (as stated) fails: on the sample mesh the source is at depth 2; the
    selected face is the one at height -2.5, below the source, and the face
    at height -1.5, within one cell above it, is left out. *)
Lemma dgh_ind2_not_above_source :
  dgh_ind2 Samples.toy_src
  <> Ok (map (dgh_test_above Samples.toy_src 1)
           (gridFx (mesh Samples.toy_src))).
Proof.
  vm_compute. intros E. discriminate E.
Qed.

End SourceFacts.

(** ** Casing currents *)

Module CurrentsFacts.

Import Store Currents.

Lemma fresh_ne (h : gmap positive (list Q)) (l : positive) (v : list Q) :
  h !! l = Some v -> fresh (dom h) <> l.
Proof.
  intros E Heq. apply (is_fresh (dom h)). rewrite Heq.
  apply elem_of_dom. eauto.
Qed.

(** One run of the indicator lines on a model vector of four entries or
    more: a new array holds [marked v]; nothing else changes. *)
Lemma casing_indicator_run (h : gmap positive (list Q)) (sigma_m : ref)
    (v : list Q) :
  h !! sigma_m = Some v ->
  (4 <= length v)%nat ->
  casing_indicator sigma_m h
  = (Ok (fresh (dom h)), <[fresh (dom h) := marked v]> h).
Proof.
  intros E Hlen. unfold casing_indicator, bind, copy, setitem, setitems, ret.
  rewrite E. cbn iota. rewrite lookup_insert_eq. cbn iota.
  assert (H3 : forallb (fun i => Nat.ltb i (length v)) [0; 1; 3]%nat = true).
  { simpl. rewrite !andb_true_iff, !Nat.ltb_lt. lia. }
  rewrite H3. cbn iota. rewrite lookup_insert_eq. cbn iota.
  assert (H2 : forallb (fun i => Nat.ltb i
              (length (foldr (fun i a' => <[i:=0]> a') v [0; 1; 3]%nat)))
              [2%nat] = true).
  { simpl. rewrite !length_insert, andb_true_iff, Nat.ltb_lt. split; [lia|reflexivity]. }
  rewrite H2. cbn iota. rewrite !insert_insert_eq. reflexivity.
Qed.

(** The entries of the indicator. *)
Lemma marked_entries (v : list Q) :
  (4 <= length v)%nat ->
  length (marked v) = length v
  /\ marked v !! 0%nat = Some 0
  /\ marked v !! 1%nat = Some 0
  /\ marked v !! 2%nat = Some 1
  /\ marked v !! 3%nat = Some 0
  /\ forall i, (4 <= i)%nat -> marked v !! i = v !! i.
Proof.
  intros Hlen. unfold marked. rewrite !length_insert.
  split; [reflexivity|].
  split.
  { rewrite list_lookup_insert_ne by lia.
    apply list_lookup_insert_eq. rewrite !length_insert. lia. }
  split.
  { rewrite !list_lookup_insert_ne by lia.
    apply list_lookup_insert_eq. rewrite !length_insert. lia. }
  split.
  { apply list_lookup_insert_eq. rewrite !length_insert. lia. }
  split.
  { rewrite !list_lookup_insert_ne by lia.
    apply list_lookup_insert_eq. lia. }
  intros i Hi. rewrite !list_lookup_insert_ne by lia. reflexivity.
Qed.

Lemma threshold_lookup (a : list Q) (i : nat) (x : Q) :
  a !! i = Some x ->
  threshold a !! i = Some (if Qlt_bool x (1 # 4) then 0 else x).
Proof.
  intros Hx. unfold threshold. rewrite list_lookup_fmap_Some. exists x.
  split; [reflexivity|exact Hx].
Qed.

Lemma bind_frame {A B} (c : M A) (k : A -> M B) (l : ref)
    (h : gmap positive (list Q)) :
  (forall a h', snd (k a h') !! l = h' !! l) ->
  snd (bind c k h) !! l = snd (c h) !! l.
Proof.
  intros Hk. unfold bind. destruct (c h) as [[a|e] h']; simpl; [apply Hk|reflexivity].
Qed.

Lemma setitems_frame (l' l : ref) idx x (h : gmap positive (list Q)) :
  l' <> l -> snd (setitems l' idx x h) !! l = h !! l.
Proof.
  intros Hne. unfold setitems. destruct (h !! l') as [a|]; [|reflexivity].
  destruct (forallb _ idx); [|reflexivity].
  simpl. apply lookup_insert_ne. exact Hne.
Qed.

Lemma casing_indicator_frame (sigma_m : ref) (h : gmap positive (list Q)) :
  snd (casing_indicator sigma_m h) !! sigma_m = h !! sigma_m.
Proof.
  unfold casing_indicator, bind at 1, copy.
  destruct (h !! sigma_m) as [v|] eqn:E; [|simpl; exact E].
  pose proof (fresh_ne h sigma_m v E) as Hne.
  rewrite bind_frame.
  - rewrite setitems_frame by exact Hne.
    rewrite lookup_insert_ne by exact Hne. exact E.
  - intros _ h'. rewrite bind_frame; [|intros; reflexivity].
    apply setitems_frame. exact Hne.
Qed.

(** C10: whatever the inputs and whether or not the call raises, the store
    holds for [sigma_m] after the call what it held before: the indicator
    is written into a copy. *)
Theorem CasingCurrents_keeps_sigma_m (cp : CasingProperties.t)
    (fields : list (Q * list (list complex))) (m : Mesh.t) (sigma_m : ref)
    (indActive : list bool) (casingMap : list Q -> result (list Q))
    (h : gmap positive (list Q)) :
  snd (CasingCurrents cp fields m sigma_m indActive casingMap h) !! sigma_m
  = h !! sigma_m.
Proof.
  unfold CasingCurrents. rewrite bind_frame; [|intros; reflexivity].
  unfold casing_faces. rewrite bind_frame.
  - apply casing_indicator_frame.
  - intros ci h'. rewrite bind_frame; [|intros; reflexivity].
    unfold get. destruct (h' !! ci); reflexivity.
Qed.

Example CasingCurrents_on_sample :
  exists Ix Iz h',
    CasingCurrents Samples.one_run Samples.one_field Samples.quad
      Samples.sigma_ref [true; true; true; true]
      (by_category [0; 2; 1; 3]%nat) Samples.one_vector
    = (Ok (Ix, Iz), h')
    /\ h' !! Samples.sigma_ref
       = Some [1 # 100000000; 1 # 100; 1 # 100; 5500000]
    /\ h' !! 2%positive = Some [0; 0; 1; 0].
Proof.
  do 3 eexists. split; [vm_compute; reflexivity|].
  split; vm_compute; reflexivity.
Qed.

Lemma Csum_zero (l : list complex) : zero_entries l -> Ceq (Csum l) C0.
Proof.
  induction 1 as [|c l [Hr Hi] _ [IHr IHi]]; simpl.
  - split; reflexivity.
  - unfold Ceq in *. simpl in *. rewrite Hr, Hi, IHr, IHi. split; reflexivity.
Qed.

Lemma block_sums_zero (n0 n2 : nat) (v : list complex) :
  zero_entries v -> zero_entries (block_sums n0 n2 v).
Proof.
  revert v. induction n2 as [|n2 IH]; intros v Hv; simpl; constructor.
  - apply Csum_zero, Forall_take, Hv.
  - apply IH, Forall_drop, Hv.
Qed.

Lemma reshape_sum0_ok (n0 n2 : nat) (v : list complex) :
  length v = (n0 * n2)%nat -> reshape_sum0 n0 n2 v = Ok (block_sums n0 n2 v).
Proof.
  intros E. unfold reshape_sum0. rewrite E, Nat.eqb_refl. reflexivity.
Qed.

Lemma sdiag_mul_cols_ok (d : list Q) (j : list (list complex)) :
  Forall (fun c => length c = length d) j ->
  sdiag_mul_cols d j = Ok (map (zip_with Cscale d) j).
Proof.
  induction 1 as [|c j Hc _ IH]; simpl; [reflexivity|].
  unfold sdiag_mul. rewrite Hc, Nat.eqb_refl. cbn [rbind].
  rewrite IH. reflexivity.
Qed.

Lemma zip_scale_zero (d : list Q) (c : list complex) :
  Forall (fun x => x == 0) d -> zero_entries (zip_with Cscale d c).
Proof.
  intros Hd. revert c. induction Hd as [|x d Hx _ IH]; intros [|y c]; simpl;
    constructor.
  - unfold Ceq, Cscale. simpl. rewrite Hx. split; ring.
  - apply IH.
Qed.

Lemma freq_loop_zero (m : Mesh.t) (cols : list (list complex)) (L : nat)
    (freqinds : list nat) :
  Forall (fun c => length c = L /\ zero_entries c) cols ->
  Mesh.nFx m = (fst (fst (Mesh.vnFx m)) * snd (Mesh.vnFx m))%nat ->
  (Mesh.nFx m <= L)%nat ->
  (L - Mesh.nFx m)%nat = (fst (fst (Mesh.vnFz m)) * snd (Mesh.vnFz m))%nat ->
  Forall (fun i => (i < length cols)%nat) freqinds ->
  exists r,
    freq_loop m cols freqinds = Ok r
    /\ length (fst r) = length freqinds
    /\ length (snd r) = length freqinds
    /\ Forall zero_entries (fst r)
    /\ Forall zero_entries (snd r).
Proof.
  intros Hcols Hx Hle Hz Hidx.
  induction Hidx as [|i rest Hi _ (r & Hr & L1 & L2 & Z1 & Z2)]; simpl.
  - exists ([], []). repeat split; constructor.
  - destruct (lookup_lt_is_Some_2 cols i Hi) as [c Hc].
    unfold column. rewrite Hc. cbn [rbind].
    rewrite Forall_forall in Hcols.
    destruct (Hcols c) as [Hlen Hzero].
    { eapply list_elem_of_lookup_2. exact Hc. }
    rewrite reshape_sum0_ok by (rewrite length_take; lia). cbn [rbind].
    rewrite reshape_sum0_ok by (rewrite length_drop; lia). cbn [rbind].
    rewrite Hr. cbn [rbind].
    eexists. split; [reflexivity|]. cbn [fst snd length].
    split; [lia|]. split; [lia|]. split; constructor; try assumption.
    + apply block_sums_zero, Forall_take, Hzero.
    + apply block_sums_zero, Forall_drop, Hzero.
Qed.

Lemma dict_set_zero (d : profile) (k : Q) (v : list (list complex)) :
  all_zero d -> Forall zero_entries v -> all_zero (dict_set d k v).
Proof.
  unfold all_zero. intros Hd Hv. induction Hd as [|[k' v'] d Hkv Hd IH]; simpl.
  - constructor; [exact Hv|constructor].
  - destruct (Qeq_bool k' k); constructor; assumption.
Qed.

Lemma mu_loop_zero (cp : CasingProperties.t)
    (fields : list (Q * list (list complex))) (m : Mesh.t) (faces : list Q)
    (murs : list Q) :
  Forall (fun x => x == 0) faces ->
  length faces = length (Mesh.area m) ->
  Mesh.nFx m = (fst (fst (Mesh.vnFx m)) * snd (Mesh.vnFx m))%nat ->
  (Mesh.nFx m <= length (Mesh.area m))%nat ->
  (length (Mesh.area m) - Mesh.nFx m)%nat
    = (fst (fst (Mesh.vnFz m)) * snd (Mesh.vnFz m))%nat ->
  (forall mur, In mur murs ->
     exists j, dict_get fields mur = Ok j
       /\ (length (CasingProperties.freqs cp) <= length j)%nat
       /\ Forall (fun c => length c = length (Mesh.area m)) j) ->
  forall Ix Iz, all_zero Ix -> all_zero Iz ->
  exists Ix' Iz',
    mu_loop cp fields m faces murs Ix Iz = Ok (Ix', Iz')
    /\ all_zero Ix' /\ all_zero Iz'.
Proof.
  intros Hzero Hlen Hx Hle Hz.
  induction murs as [|mur rest IH]; intros Hf Ix Iz HIx HIz; simpl.
  - exists Ix, Iz. auto.
  - destruct (Hf mur (or_introl eq_refl)) as (j & Hj & Hn & Hcols).
    rewrite Hj. cbn [rbind].
    rewrite (sdiag_mul_cols_ok _ _ Hcols). cbn [rbind].
    assert (HjA : Forall (fun c => length c = length faces)
                    (map (zip_with Cscale (Mesh.area m)) j)).
    { apply Forall_map. eapply Forall_impl; [exact Hcols|].
      intros c Hc. simpl. rewrite length_zip_with, Hc, Hlen. lia. }
    rewrite (sdiag_mul_cols_ok _ _ HjA). cbn [rbind].
    destruct (freq_loop_zero m
                (map (zip_with Cscale faces)
                   (map (zip_with Cscale (Mesh.area m)) j))
                (length (Mesh.area m))
                (seq 0 (length (CasingProperties.freqs cp))))
      as (r & Hr & _ & _ & Z1 & Z2); try assumption.
    + apply Forall_map. eapply Forall_impl; [exact HjA|].
      intros c Hc. simpl. split.
      * rewrite length_zip_with, Hc, Hlen. lia.
      * apply zip_scale_zero, Hzero.
    + apply Forall_forall. intros i Hi. apply list_elem_of_In, in_seq in Hi.
      rewrite !length_map. lia.
    + rewrite Hr. cbn [rbind].
      apply IH.
      * intros mur' Hin. apply Hf. right. exact Hin.
      * apply dict_set_zero; assumption.
      * apply dict_set_zero; assumption.
Qed.

End CurrentsFacts.

(** ** Empty selections *)

Module SelectionFacts.

Import Store Currents DownHoleCasingSrc.
Import SourceFacts CurrentsFacts.

Lemma zero_entries_div (v : list complex) (a : list Q) :
  zero_entries v -> zero_entries (zip_with Cdivr v a).
Proof.
  intros Hv. revert a. induction Hv as [|c v [Hr Hi] _ IH]; intros [|x a];
    simpl; constructor.
  - unfold Ceq, Cdivr, Qdiv. simpl in *. rewrite Hr, Hi. split; ring.
  - apply IH.
Qed.

Lemma zero_entries_zeros (n : nat) : zero_entries (zeros n).
Proof.
  unfold zeros. induction n; simpl; constructor; [split; reflexivity|assumption].
Qed.

(** C9 (as amended): a selection without faces is not an error.  When the
    four masks of the source select no face, [dg_p] gives one source per
    frequency whose vector is zero on every face; when the threshold leaves
    no face, [CasingCurrents] gives profiles whose entries are all zero. *)
Theorem empty_selection_gives_zeros
    (self : DownHoleCasingSrc.t) (hxmin hzmin : Q)
    (cp : CasingProperties.t) (fields : list (Q * list (list complex)))
    (m : Mesh.t) (sigma_m : ref) (indActive : list bool)
    (casingMap : list Q -> result (list Q))
    (h h1 : gmap positive (list Q)) (faces : list Q) :
  amin (Mesh.hx (mesh self)) = Ok hxmin ->
  amin (Mesh.hz (mesh self)) = Ok hzmin ->
  length (Mesh.gridFx (mesh self)) = Mesh.nFx (mesh self) ->
  length (Mesh.gridFz (mesh self)) = Mesh.nFz (mesh self) ->
  length (Mesh.area (mesh self)) = Mesh.nF (mesh self) ->
  Forall (fun x => ~ x == 0) (Mesh.area (mesh self)) ->
  Forall (fun f => dgv_test self hxmin hzmin f = false
                   /\ sgv_test self hzmin f = false)
    (Mesh.gridFz (mesh self)) ->
  Forall (fun f => dgh_test self hzmin f = false
                   /\ sgh_test self hzmin f = false)
    (Mesh.gridFx (mesh self)) ->
  casing_faces m sigma_m indActive casingMap h = (Ok faces, h1) ->
  Forall (fun x => x == 0) faces ->
  length faces = length (Mesh.area m) ->
  Mesh.nFx m = (fst (fst (Mesh.vnFx m)) * snd (Mesh.vnFx m))%nat ->
  (Mesh.nFx m <= length (Mesh.area m))%nat ->
  (length (Mesh.area m) - Mesh.nFx m)%nat
    = (fst (fst (Mesh.vnFz m)) * snd (Mesh.vnFz m))%nat ->
  (forall mur, In mur (CasingProperties.muModels cp) ->
     exists j, dict_get fields mur = Ok j
       /\ (length (CasingProperties.freqs cp) <= length j)%nat
       /\ Forall (fun c => length c = length (Mesh.area m)) j) ->
  (exists srcs,
     fst (dg_p (init (mesh self) (src_a self) (src_b self) (casing_a self)
                  (freqs self)))
     = Ok srcs
     /\ dg_p_body self = Ok srcs
     /\ map freq srcs = freqs self
     /\ Forall (fun s => length (s_e s) = Mesh.nF (mesh self)
                         /\ Forall (fun c => Ceq c C0) (s_e s)) srcs)
  /\ (exists Ix Iz,
        CasingCurrents cp fields m sigma_m indActive casingMap h
        = (Ok (Ix, Iz), h1)
        /\ all_zero Ix /\ all_zero Iz).
Proof.
  intros Hx Hz Lx Lz La Hall Tz Tx Hfaces Hzero Hlen Hnx Hle Hnz Hfields.
  split.
  - pose proof (dg_parts_closed self hxmin hzmin Hx Hz Lx Lz) as Hp.
    set (u := map (unit_x self hzmin) (Mesh.gridFx (mesh self))
              ++ zeros (Mesh.nFy (mesh self))
              ++ map (unit_z self hxmin hzmin) (Mesh.gridFz (mesh self))).
    assert (Hdg : dg self = Ok u) by (unfold dg; rewrite Hp; reflexivity).
    assert (Hu : length u = length (Mesh.area (mesh self))).
    { unfold u, zeros. rewrite !length_app, !length_map, repeat_length, La.
      unfold Mesh.nF. lia. }
    assert (Zu : zero_entries u).
    { unfold u. apply Forall_app. split; [|apply Forall_app; split].
      - apply Forall_map. eapply Forall_impl; [exact Tx|].
        intros f [E1 E2]. unfold unit_x. simpl. rewrite E1, E2.
        split; reflexivity.
      - apply zero_entries_zeros.
      - apply Forall_map. eapply Forall_impl; [exact Tz|].
        intros f [E1 E2]. unfold unit_z. simpl. rewrite E1, E2.
        split; reflexivity. }
    assert (Hbody : dg_p_body self
      = Ok (map (fun f => {| rxList := []; freq := f;
                             s_e := zip_with Cdivr u (Mesh.area (mesh self)) |})
              (freqs self))).
    { unfold dg_p_body. rewrite Hdg. cbn [rbind].
      apply sources_ok; assumption. }
    eexists. split; [|split; [exact Hbody|split]].
    + unfold dg_p. cbn [_dg_p init].
      change (dg_p_body (init (mesh self) (src_a self) (src_b self)
                           (casing_a self) (freqs self)))
        with (dg_p_body self).
      rewrite Hbody. reflexivity.
    + rewrite map_map. simpl. apply map_id.
    + apply Forall_map, Forall_forall. intros f _. simpl. split.
      * rewrite length_zip_with, Hu, La. lia.
      * apply zero_entries_div, Zu.
  - destruct (mu_loop_zero cp fields m faces (CasingProperties.muModels cp)
                Hzero Hlen Hnx Hle Hnz Hfields [] [])
      as (Ix & Iz & Hloop & ZIx & ZIz); [constructor|constructor|].
    exists Ix, Iz. split; [|split; assumption].
    unfold CasingCurrents, bind. rewrite Hfaces. unfold lift.
    rewrite Hloop. reflexivity.
Qed.

Lemma empty_selection_gives_zeros_witness :
  (exists srcs,
     fst (dg_p (init (mesh Samples.far_src) (src_a Samples.far_src)
                  (src_b Samples.far_src) (casing_a Samples.far_src)
                  (freqs Samples.far_src)))
     = Ok srcs
     /\ dg_p_body Samples.far_src = Ok srcs
     /\ map freq srcs = freqs Samples.far_src
     /\ Forall (fun s => length (s_e s) = Mesh.nF (mesh Samples.far_src)
                         /\ Forall (fun c => Ceq c C0) (s_e s)) srcs)
  /\ (exists Ix Iz,
        CasingCurrents Samples.one_run Samples.one_field Samples.quad
          Samples.sigma_ref [true; true; true; true]
          (by_category [0; 1; 1; 3]%nat) Samples.one_vector
        = (Ok (Ix, Iz),
           snd (casing_faces Samples.quad Samples.sigma_ref
                  [true; true; true; true] (by_category [0; 1; 1; 3]%nat)
                  Samples.one_vector))
        /\ all_zero Ix /\ all_zero Iz).
Proof.
  apply (empty_selection_gives_zeros Samples.far_src 1 1 Samples.one_run
           Samples.one_field Samples.quad Samples.sigma_ref
           [true; true; true; true] (by_category [0; 1; 1; 3]%nat)
           Samples.one_vector
           (snd (casing_faces Samples.quad Samples.sigma_ref
                   [true; true; true; true] (by_category [0; 1; 1; 3]%nat)
                   Samples.one_vector))
           (repeat 0 10%nat)).
  - reflexivity.
  - reflexivity.
  - reflexivity.
  - reflexivity.
  - reflexivity.
  - simpl. repeat constructor; intros E; discriminate E.
  - simpl. repeat constructor.
  - simpl. repeat constructor.
  - vm_compute. reflexivity.
  - simpl. repeat constructor.
  - reflexivity.
  - reflexivity.
  - vm_compute. lia.
  - reflexivity.
  - intros mur [<-|[]]. eexists. split; [reflexivity|].
    split; [vm_compute; lia|]. repeat constructor.
Defined.

(** C9 (as stated) fails: on the sample mesh no cell belongs to the category
    at position 2, the threshold leaves no face, and [CasingCurrents]
    returns; the electrodes of the sample source lie outside the mesh, no
    mask selects a face, and [dg_p] returns. *)
Lemma empty_selection_is_not_raised :
  ~ (forall faces h1,
       casing_faces Samples.quad Samples.sigma_ref [true; true; true; true]
         (by_category [0; 1; 1; 3]%nat) Samples.one_vector
       = (Ok faces, h1) ->
       Forall (fun x => x == 0) faces ->
       exists e h2,
         CasingCurrents Samples.one_run Samples.one_field Samples.quad
           Samples.sigma_ref [true; true; true; true]
           (by_category [0; 1; 1; 3]%nat) Samples.one_vector
         = (Raise e, h2))
  /\ ~ (forall m1 m2 m3 m4,
         dgv_ind Samples.far_src = Ok m1 ->
         dgh_ind2 Samples.far_src = Ok m2 ->
         sgh_ind Samples.far_src = Ok m3 ->
         sgv_ind Samples.far_src = Ok m4 ->
         Forall (fun b => b = false) (m1 ++ m2 ++ m3 ++ m4) ->
         exists e, fst (dg_p Samples.far_src) = Raise e).
Proof.
  split.
  - intros H.
    destruct (H (repeat 0 10%nat)
                (snd (casing_faces Samples.quad Samples.sigma_ref
                        [true; true; true; true]
                        (by_category [0; 1; 1; 3]%nat) Samples.one_vector)))
      as (e & h2 & E).
    + vm_compute. reflexivity.
    + simpl. repeat constructor.
    + apply (f_equal fst) in E. vm_compute in E. discriminate E.
  - intros H.
    destruct (H _ _ _ _ eq_refl eq_refl eq_refl eq_refl) as (e & E).
    + simpl. repeat constructor.
    + vm_compute in E. discriminate E.
Qed.

End SelectionFacts.

(** ** More on the mesh designer *)

Module GridMore.

Import Utils CasingProperties CasingMesh GridFacts.

Lemma floor_log_inv p r n :
  floor_log p r = Ok n -> 0 < r /\ (0 < p \/ p == 0 /\ n = 0%Z).
Proof.
  unfold floor_log.
  destruct (Qle_bool r 0) eqn:Er; [discriminate|].
  assert (Hr : 0 < r) by (apply Qlt_bool_iff; unfold Qlt_bool; rewrite Er; reflexivity).
  destruct (Qeq_bool p 0) eqn:E0.
  - intros [= <-]. apply Qeq_bool_eq in E0. auto.
  - destruct (Qle_bool p 0) eqn:Ep; [discriminate|]. intros _.
    split; [exact Hr|left].
    apply Qlt_bool_iff. unfold Qlt_bool. rewrite Ep. reflexivity.
Qed.

Lemma inject_Z_to_nat (n : Z) :
  (0 <= n)%Z -> inject_Z (Z.of_nat (Z.to_nat n)) = inject_Z n.
Proof. intros H. rewrite Z2Nat.id by exact H. reflexivity. Qed.

Lemma Qsum_cells h n :
  (0 <= n)%Z -> Qsum (repeat h (Z.to_nat n)) == inject_Z n * h.
Proof. intros H. rewrite Qsum_repeat, inject_Z_to_nat by exact H. reflexivity. Qed.

Lemma floor_times_le (x c : Q) : 0 < c -> inject_Z (Qfloor (x / c)) * c <= x.
Proof.
  intros Hc. pose proof (Qfloor_le (x / c)) as Hf.
  assert (Hm : inject_Z (Qfloor (x / c)) * c <= x / c * c)
    by (apply Qmult_le_compat_r; [exact Hf | apply Qlt_le_weak, Hc]).
  assert (Hx : x / c * c == x) by (field; intros E; rewrite E in Hc; lra).
  lra.
Qed.

(** The fine cells and the padding after the rescaling add up to
    [dx1 * csx2] when there are padding cells; without them they are the
    fine cells, which end at or after [dx1 * csx2]. *)
Lemma hx_fine_sum (self : CasingMesh.t) (n1 np1 : Z) (L : hx_locals) :
  hx_cells self n1 np1 = Ok L ->
  0 < csx2 self ->
  (hx1b_pad L <> [] -> Qsum (hx1a L) + Qsum (hx1b L) == dx1 L * csx2 self)
  /\ dx1 L * csx2 self <= Qsum (hx1a L) + Qsum (hx1b L).
Proof.
  intros H Hc.
  destruct (hx_cells_inv self n1 np1 L H)
    as (_ & _ & _ & Hb & _ & _ & Es & Ed & Eb & _).
  assert (Heq : hx1b_pad L <> [] ->
                Qsum (hx1a L) + Qsum (hx1b L) == dx1 L * csx2 self).
  { intros Hne. rewrite Eb, Qsum_scale. field. apply Hb, Hne. }
  split; [exact Heq|].
  destruct (hx1b_pad L) as [|x b] eqn:Ep.
  - change (Qsum []) with 0 in Es. rewrite Eb.
    change (Qsum (map _ [])) with 0. rewrite Ed, Es.
    pose proof (floor_times_le (Qsum (hx1a L) + 0) (csx2 self) Hc). lra.
  - rewrite Heq by discriminate. apply Qle_refl.
Qed.

(** Over exact arithmetic, and whatever the counts [n1] of fine cells and
    [np1] of padding cells are: with a second cell size of at least one,
    the three inner regions reach the extent [dx2], with or without
    padding cells. *)
Theorem coarse_region_reaches_dx2 (self : CasingMesh.t) (n1 np1 : Z)
    (L : hx_locals) :
  hx_cells self n1 np1 = Ok L ->
  1 <= csx2 self ->
  0 <= dx1 L ->
  dx2 self <= Qsum (hx1a L) + Qsum (hx1b L) + Qsum (hx2a L).
Proof.
  intros Hcells Hc Hd.
  assert (Hc0 : 0 < csx2 self) by lra.
  destruct (hx_fine_sum self n1 np1 L Hcells Hc0) as [_ Hs].
  destruct (hx_cells_inv self n1 np1 L Hcells)
    as (_ & _ & Hne & _ & _ & _ & _ & _ & _ & En & Ea & _).
  rewrite Ea.
  assert (Hprod : dx1 L <= dx1 L * csx2 self).
  { assert (Hm : 1 * dx1 L <= csx2 self * dx1 L)
      by (apply Qmult_le_compat_r; assumption).
    lra. }
  set (x := (dx2 self - dx1 L) / csx2 self) in *.
  assert (Hx : x * csx2 self == dx2 self - dx1 L) by (unfold x; field; exact Hne).
  pose proof (Qle_ceiling x) as Hceil. rewrite <- En in Hceil.
  destruct (Z.le_gt_cases 0 (ncx2 L)) as [Hpos|Hneg].
  - rewrite (Qsum_cells _ _ Hpos).
    assert (Hm : x * csx2 self <= inject_Z (ncx2 L) * csx2 self)
      by (apply Qmult_le_compat_r; [exact Hceil | lra]).
    lra.
  - replace (Z.to_nat (ncx2 L)) with O by lia. simpl Qsum.
    assert (Hlt : inject_Z (ncx2 L) < 0).
    { change 0 with (inject_Z 0). rewrite <- Zlt_Qlt. lia. }
    assert (Hx0 : x < 0) by lra.
    assert (Hm : x * csx2 self <= 0 * csx2 self)
      by (apply Qmult_le_compat_r; lra).
    lra.
Qed.

Lemma coarse_region_reaches_dx2_witness :
  exists L,
    hx_cells Samples.no_padding 4 0 = Ok L
    /\ hx_body Samples.no_padding = Ok L
    /\ hx1b L = []
    /\ 12 <= Qsum (hx1a L) + Qsum (hx1b L) + Qsum (hx2a L).
Proof.
  eexists. split; [vm_compute; reflexivity|].
  split; [vm_compute; reflexivity|].
  split; [vm_compute; reflexivity|].
  apply (coarse_region_reaches_dx2 Samples.no_padding 4 0).
  - vm_compute. reflexivity.
  - vm_compute. intros E. discriminate E.
  - vm_compute. intros E. discriminate E.
Defined.

(** Whatever the counts [n1] of fine cells and [np1] of padding cells
    are, when the lines of [hx] return, [np1] and [npadx2] are not
    negative and the radial widths are as many as the four counts say:
    [n1] fine cells, [np1] padding cells, [ncx2] coarse cells and [npadx2]
    cells of padding to infinity (a negative count of uniform cells stands
    for none); grids without padding cells are among them. *)
Theorem hx_length (self : CasingMesh.t) (n1 np1 : Z) (L : hx_locals) :
  hx_cells self n1 np1 = Ok L ->
  (0 <= np1)%Z
  /\ (0 <= npadx2 self)%Z
  /\ length (hx1a L) = Z.to_nat n1
  /\ length (hx1b L) = Z.to_nat np1
  /\ length (hx2a L) = Z.to_nat (ncx2 L)
  /\ length (hx2b L) = Z.to_nat (npadx2 self)
  /\ length (hstack L)
     = (Z.to_nat n1 + Z.to_nat np1 + Z.to_nat (ncx2 L)
        + Z.to_nat (npadx2 self))%nat
  /\ (ncx1 self = Ok n1 -> npadx1 self = Ok np1 -> _hx self = None ->
      exists s', hx self = (Ok (hstack L), s')).
Proof.
  intros Hcells.
  destruct (hx_cells_inv self n1 np1 L Hcells)
    as (Hnp & Hnp2 & _ & _ & Ea & Ebp & _ & _ & Eb & _ & Ea2 & Eb2).
  assert (La : length (hx1a L) = Z.to_nat n1)
    by (rewrite Ea; apply repeat_length).
  assert (Lb : length (hx1b L) = Z.to_nat np1)
    by (rewrite Eb, length_map, Ebp; apply pad_or_rev_length).
  assert (La2 : length (hx2a L) = Z.to_nat (ncx2 L))
    by (rewrite Ea2; apply repeat_length).
  assert (Lb2 : length (hx2b L) = Z.to_nat (npadx2 self))
    by (rewrite Eb2; apply pad_or_rev_length).
  repeat split; try assumption.
  - unfold hstack. rewrite !length_app. lia.
  - intros E1 E2 Hnone. unfold hx, hx_body. rewrite Hnone, E1, E2.
    cbn [rbind]. rewrite Hcells. eexists. reflexivity.
Qed.

Lemma hx_length_witness :
  exists L,
    hx_cells Samples.no_padding 4 0 = Ok L
    /\ (0 <= 0)%Z
    /\ (0 <= npadx2 Samples.no_padding)%Z
    /\ length (hx1a L) = Z.to_nat 4
    /\ length (hx1b L) = Z.to_nat 0
    /\ length (hx2a L) = Z.to_nat (ncx2 L)
    /\ length (hx2b L) = Z.to_nat (npadx2 Samples.no_padding)
    /\ length (hstack L)
       = (Z.to_nat 4 + Z.to_nat 0 + Z.to_nat (ncx2 L)
          + Z.to_nat (npadx2 Samples.no_padding))%nat
    /\ (ncx1 Samples.no_padding = Ok 4%Z ->
        npadx1 Samples.no_padding = Ok 0%Z ->
        _hx Samples.no_padding = None ->
        exists s', hx Samples.no_padding = (Ok (hstack L), s')).
Proof.
  eexists. split; [vm_compute; reflexivity|].
  apply (hx_length Samples.no_padding 4 0).
  vm_compute. reflexivity.
Defined.

(** When the rescaled padding has room (the fine cells end before
    [dx1 * csx2]) and the cell sizes are positive, every radial width is
    positive. *)
Theorem hx_widths_positive (self : CasingMesh.t) (L : hx_locals) :
  hx_body self = Ok L ->
  0 < csx1 self ->
  0 < csx2 self ->
  ~ pfx2 self == 0 ->
  Qsum (hx1a L) < dx1 L * csx2 self ->
  Forall (fun w => 0 < w) (hstack L).
Proof.
  intros H H1 H2 Hp2 Hroom.
  destruct (hx_body_inv self L H) as (n1 & np1 & E1 & E2 & Hcells).
  destruct (hx_cells_inv self n1 np1 L Hcells)
    as (Hnp & Hnp2 & _ & Hb & Ea & Ebp & _ & _ & Eb & _ & Ea2 & Eb2).
  assert (Hwide : Forall (fun w => 0 < w) (hx1b L)).
  { destruct (hx1b_pad L) as [|x b] eqn:Epad; [rewrite Eb; constructor|].
    assert (Hn1 : (1 <= np1)%Z).
    { apply (f_equal (@length Q)) in Ebp. rewrite pad_or_rev_length in Ebp.
      simpl in Ebp. lia. }
    assert (Hp1 : ~ pfx1 self == 0).
    { unfold npadx1 in E2.
      destruct (np_div (csx2 self) (csx1 self)) as [r|]; cbn [rbind] in E2;
        [|discriminate].
      apply floor_log_inv in E2. destruct E2 as [_ [Hp|[_ Hz]]]; [|lia].
      intros E0. rewrite E0 in Hp. lra. }
    assert (Hpad : Forall (fun w => 0 < w) (x :: b))
      by (rewrite Ebp; apply pad_or_rev_pos; assumption).
    assert (Hbpos : 0 < Qsum (x :: b))
      by (apply Qsum_pos; [discriminate|exact Hpad]).
    assert (Hscale : 0 < (dx1 L * csx2 self - Qsum (hx1a L)) / Qsum (x :: b)).
    { unfold Qdiv. apply Qmult_lt_0_compat; [lra|].
      apply Qinv_lt_0_compat. exact Hbpos. }
    rewrite Eb. apply Forall_map. eapply Forall_impl; [exact Hpad|].
    intros w Hw. simpl. apply Qmult_lt_0_compat; assumption. }
  unfold hstack. repeat (apply Forall_app; split).
  - rewrite Ea. apply Forall_forall. intros w Hw.
    apply list_elem_of_In, repeat_spec in Hw. rewrite Hw. exact H1.
  - exact Hwide.
  - rewrite Ea2. apply Forall_forall. intros w Hw.
    apply list_elem_of_In, repeat_spec in Hw. rewrite Hw. exact H2.
  - rewrite Eb2. apply pad_or_rev_pos; assumption.
Qed.

Lemma hx_widths_positive_witness :
  exists L,
    hx_body Samples.coarse = Ok L /\ Forall (fun w => 0 < w) (hstack L).
Proof.
  eexists. split; [vm_compute; reflexivity|].
  apply (hx_widths_positive Samples.coarse).
  - vm_compute. reflexivity.
  - reflexivity.
  - reflexivity.
  - intros E. discriminate E.
  - vm_compute. reflexivity.
Defined.

Import Design.

Lemma same_design_refl (a : CasingMesh.t) : same_design a a.
Proof. unfold same_design. tauto. Qed.

Lemma same_design_trans (a b c : CasingMesh.t) :
  same_design a b -> same_design b c -> same_design a c.
Proof. unfold same_design. intuition congruence. Qed.

(** What a read of [hx], [ncz] and [hz] leaves behind. *)
Lemma hx_effect (self s' : CasingMesh.t) (r : result (list Q)) :
  hx self = (r, s') ->
  same_design s' self
  /\ _ncz s' = _ncz self /\ _hz s' = _hz self /\ _mesh s' = _mesh self
  /\ (forall x, r = Ok x -> _hx s' = Some x).
Proof.
  unfold hx. destruct (_hx self) as [v|] eqn:E.
  - intros [= <- <-]. split; [apply same_design_refl|].
    repeat split. intros x [= <-]. exact E.
  - destruct (hx_body self) as [L|e]; intros [= <- <-].
    + split; [unfold same_design; simpl; tauto|]. repeat split.
      intros x [= <-]. reflexivity.
    + split; [apply same_design_refl|]. repeat split. intros x [=].
Qed.

Lemma ncz_effect (self s' : CasingMesh.t) (r : result Z) :
  ncz self = (r, s') ->
  same_design s' self
  /\ _hx s' = _hx self /\ _hz s' = _hz self /\ _mesh s' = _mesh self
  /\ (forall n, r = Ok n -> _ncz s' = Some n)
  /\ (_ncz self = None -> r = ncz_body self).
Proof.
  unfold ncz. destruct (_ncz self) as [v|] eqn:E.
  - intros [= <- <-]. split; [apply same_design_refl|].
    repeat split; [|intros [=]]. intros n [= <-]. exact E.
  - destruct (ncz_body self) as [v|e]; intros [= <- <-].
    + split; [unfold same_design; simpl; tauto|]. repeat split.
      intros n [= <-]. reflexivity.
    + split; [apply same_design_refl|]. repeat split. intros n [=].
Qed.

Lemma hz_effect (self s' : CasingMesh.t) (z : list Q) :
  hz self = (Ok z, s') ->
  same_design s' self
  /\ _hx s' = _hx self /\ _mesh s' = _mesh self
  /\ _hz s' = Some z
  /\ (_hz self = None ->
      exists n s1,
        ncz self = (Ok n, s1)
        /\ _ncz s' = Some n
        /\ meshTensor [Padded (csz self) (npadzd self) (- pfz self);
                        Cells (csz self) n;
                        Padded (csz self) (npadzu self) (pfz self)] = Ok z).
Proof.
  unfold hz. destruct (_hz self) as [v|] eqn:E.
  - intros [= <- <-]. split; [apply same_design_refl|].
    repeat split; [exact E|intros [=]].
  - destruct (ncz self) as [rn s1] eqn:En.
    destruct (ncz_effect _ _ _ En) as (Hd & Hx & _ & Hm & Hn & _).
    destruct rn as [n|e]; cbn [rbind]; [|intros [=]].
    destruct (meshTensor _) as [v|e] eqn:Et; intros [= <- <-].
    split.
    { eapply same_design_trans; [|exact Hd]. unfold same_design. simpl. tauto. }
    simpl. repeat split; try assumption.
    intros _. exists n, s1. split; [reflexivity|]. split; [apply Hn; reflexivity|].
    destruct Hd as (_ & _ & _ & _ & _ & _ & D7 & _ & D9 & D10 & D11 & _).
    rewrite <- D7, <- D9, <- D10, <- D11. exact Et.
Qed.

(** What a successful first read of [mesh] went through. *)
Lemma mesh_inv (self s1 : CasingMesh.t) (area0 : list Q)
    (ave : list (list Q)) (m : Mesh.t) :
  _mesh self = None ->
  mesh self area0 ave = (Ok m, s1) ->
  exists x z n s3,
    s1 = set_mesh s3 m
    /\ same_design s3 self
    /\ _hx s3 = Some x /\ _hz s3 = Some z /\ _ncz s3 = Some n
    /\ m = Mesh.cyl x z
             (- Qsum (slice_to z (npadzu self + n - nza self))) area0 ave.
Proof.
  intros Hnone. unfold mesh. rewrite Hnone.
  destruct (hx self) as [rx s1a] eqn:Ex. destruct rx as [x|e]; [|intros [=]].
  destruct (hz s1a) as [rz s2] eqn:Ez. destruct rz as [z|e]; [|intros [=]].
  destruct (ncz s2) as [rn s3] eqn:En. destruct rn as [n|e]; [|intros [=]].
  intros [= <- <-].
  destruct (hx_effect _ _ _ Ex) as (D1 & _ & _ & _ & Hx).
  destruct (hz_effect _ _ _ Ez) as (D2 & Hx2 & _ & Hz & _).
  destruct (ncz_effect _ _ _ En) as (D3 & Hx3 & Hz3 & _ & Hn & _).
  assert (D : same_design s3 self)
    by (eapply same_design_trans; [exact D3|];
        eapply same_design_trans; [exact D2|exact D1]).
  exists x, z, n, s3. split; [reflexivity|]. split; [exact D|].
  split; [rewrite Hx3, Hx2; apply Hx; reflexivity|].
  split; [rewrite Hz3; exact Hz|].
  split; [apply Hn; reflexivity|].
  destruct D as (_ & _ & _ & _ & _ & _ & _ & D8 & _ & D10 & _).
  rewrite D8, D10. reflexivity.
Qed.

(** After a successful first read of [mesh], the object holds the mesh
    and the widths it was built from: later reads of [mesh], [hx], [hz]
    and [ncz] return them and leave the object as it is, whatever areas
    and averaging matrix are passed; the design itself is unchanged. *)
Theorem mesh_read_is_kept (self s1 : CasingMesh.t) (area0 : list Q)
    (ave : list (list Q)) (m : Mesh.t) :
  _mesh self = None ->
  mesh self area0 ave = (Ok m, s1) ->
  same_design s1 self
  /\ hx s1 = (Ok (Mesh.hx m), s1)
  /\ hz s1 = (Ok (Mesh.hz m), s1)
  /\ (exists n, ncz s1 = (Ok n, s1))
  /\ forall area1 ave1, mesh s1 area1 ave1 = (Ok m, s1).
Proof.
  intros Hnone Hm.
  destruct (mesh_inv _ _ _ _ _ Hnone Hm)
    as (x & z & n & s3 & -> & D & Hx & Hz & Hn & ->).
  split.
  { eapply same_design_trans; [|exact D]. unfold same_design. simpl. tauto. }
  split; [unfold hx; cbn [_hx set_mesh]; rewrite Hx; reflexivity|].
  split; [unfold hz; cbn [_hz set_mesh]; rewrite Hz; reflexivity|].
  split; [exists n; unfold ncz; cbn [_ncz set_mesh]; rewrite Hn; reflexivity|].
  intros area1 ave1. reflexivity.
Qed.

Lemma mesh_read_is_kept_witness :
  exists m s1,
    mesh Samples.coarse (repeat 1 319%nat) [] = (Ok m, s1)
    /\ same_design s1 Samples.coarse
    /\ hx s1 = (Ok (Mesh.hx m), s1)
    /\ hz s1 = (Ok (Mesh.hz m), s1)
    /\ (exists n, ncz s1 = (Ok n, s1))
    /\ forall area1 ave1, mesh s1 area1 ave1 = (Ok m, s1).
Proof.
  do 2 eexists. split; [vm_compute; reflexivity|].
  apply (mesh_read_is_kept Samples.coarse _ (repeat 1 319%nat) []).
  - reflexivity.
  - vm_compute. reflexivity.
Defined.

Lemma pad_cells_opp h n f : pad_cells h n (- f) = pad_cells h n f.
Proof. unfold pad_cells. rewrite Qabs_opp_eq. reflexivity. Qed.

Lemma rev_repeat_eq {A} (x : A) n : rev (repeat x n) = repeat x n.
Proof.
  induction n as [|n IH]; [reflexivity|].
  simpl. rewrite IH. clear IH.
  induction n as [|n IH]; [reflexivity|]. simpl. rewrite IH. reflexivity.
Qed.

Lemma expand_padded_inv h n f b :
  expand (Padded h n f) = Ok b ->
  (0 <= n)%Z
  /\ b = (if Qlt_bool f 0 then rev (pad_cells h (Z.to_nat n) f)
          else pad_cells h (Z.to_nat n) f).
Proof.
  unfold expand. destruct (Z.ltb_spec n 0); [discriminate|].
  intros [= <-]. split; [lia|reflexivity].
Qed.

Lemma meshTensor_three h nd fd n nu fu z :
  meshTensor [Padded h nd fd; Cells h n; Padded h nu fu] = Ok z ->
  exists below above,
    expand (Padded h nd fd) = Ok below
    /\ expand (Padded h nu fu) = Ok above
    /\ z = below ++ repeat h (Z.to_nat n) ++ above.
Proof.
  cbn [meshTensor].
  destruct (expand (Padded h nd fd)) as [below|] eqn:E1; cbn [rbind];
    [|discriminate].
  change (expand (Cells h n)) with (Ok (repeat h (Z.to_nat n))). cbn [rbind].
  destruct (expand (Padded h nu fu)) as [above|] eqn:E2; cbn [rbind];
    [|discriminate].
  rewrite app_nil_r. intros [= <-]. eauto.
Qed.

(** The vertical widths: [npadzd] padding cells, [ncz] core cells of
    width [csz], [npadzu] padding cells; with a positive padding factor
    and as many padding cells down as up, the sequence reads the same from
    the bottom and from the top. *)
Theorem hz_layout (self s1 : CasingMesh.t) (z : list Q) :
  _hz self = None ->
  hz self = (Ok z, s1) ->
  exists n below above,
    fst (ncz self) = Ok n
    /\ z = below ++ repeat (csz self) (Z.to_nat n) ++ above
    /\ (0 <= npadzd self)%Z /\ (0 <= npadzu self)%Z
    /\ length below = Z.to_nat (npadzd self)
    /\ length above = Z.to_nat (npadzu self)
    /\ (0 < pfz self -> npadzd self = npadzu self -> rev z = z).
Proof.
  intros Hnone Hz.
  destruct (hz_effect _ _ _ Hz) as (_ & _ & _ & _ & H).
  destruct (H Hnone) as (n & s' & En & _ & Et). clear H.
  apply meshTensor_three in Et. destruct Et as (below & above & Eb & Ea & ->).
  apply expand_padded_inv in Eb, Ea.
  destruct Eb as [Hd ->], Ea as [Hu ->].
  exists n. do 2 eexists. split; [rewrite En; reflexivity|].
  split; [reflexivity|]. split; [assumption|]. split; [assumption|].
  split; [apply pad_or_rev_length|]. split; [apply pad_or_rev_length|].
  intros Hp Heq. rewrite Heq, pad_cells_opp.
  assert (E1 : Qlt_bool (- pfz self) 0 = true) by (apply Qlt_bool_iff; lra).
  assert (E2 : Qlt_bool (pfz self) 0 = false).
  { destruct (Qlt_bool (pfz self) 0) eqn:E; [|reflexivity].
    apply Qlt_bool_iff in E. lra. }
  rewrite E1, E2, !rev_app_distr, rev_involutive, rev_repeat_eq, <- app_assoc.
  reflexivity.
Qed.

Lemma hz_layout_witness :
  exists z s1 n below above,
    hz Samples.coarse = (Ok z, s1)
    /\ fst (ncz Samples.coarse) = Ok n
    /\ z = below ++ repeat (csz Samples.coarse) (Z.to_nat n) ++ above
    /\ (0 <= npadzd Samples.coarse)%Z /\ (0 <= npadzu Samples.coarse)%Z
    /\ length below = Z.to_nat (npadzd Samples.coarse)
    /\ length above = Z.to_nat (npadzu Samples.coarse)
    /\ (0 < pfz Samples.coarse ->
        npadzd Samples.coarse = npadzu Samples.coarse -> rev z = z).
Proof.
  do 2 eexists.
  assert (E : hz Samples.coarse = (Ok _, _)) by (vm_compute; reflexivity).
  destruct (hz_layout Samples.coarse _ _ eq_refl E) as (n & below & above & H).
  exists n, below, above. split; [exact E | exact H].
Defined.

End GridMore.

(** ** More on the source *)

Module SourceMore.

Import Mesh DownHoleCasingSrc SourceFacts.

(** With the return electrode away from the axis ([hx.min() <= 0.9 *
    src_b[0]]) and the source not above the first cell over the datum
    ([src_a[2] <= hz.min()]) the four selections do not overlap: every
    borehole face carries -1, every coupling face +1, every surface-wire
    face -1, every return-electrode face +1, and every other face 0. *)
Theorem loop_signs_when_separate (self : DownHoleCasingSrc.t)
    (hxmin hzmin : Q) :
  amin (hx (mesh self)) = Ok hxmin ->
  amin (hz (mesh self)) = Ok hzmin ->
  length (gridFx (mesh self)) = nFx (mesh self) ->
  length (gridFz (mesh self)) = nFz (mesh self) ->
  hxmin <= col0 (src_b self) * (9 # 10) ->
  col2 (src_a self) <= hzmin ->
  exists dg_x dg_z,
    dg_parts self = Ok (dg_x, zeros (nFy (mesh self)), dg_z)
    /\ (forall i f, gridFz (mesh self) !! i = Some f ->
          dg_z !! i
          = Some (if dgv_test self hxmin hzmin f then Cm1
                  else if sgv_test self hzmin f then C1 else C0))
    /\ (forall i f, gridFx (mesh self) !! i = Some f ->
          dg_x !! i
          = Some (if dgh_test self hzmin f then C1
                  else if sgh_test self hzmin f then Cm1 else C0))
    /\ (forall f, dgv_test self hxmin hzmin f = true ->
                  sgv_test self hzmin f = false)
    /\ (forall f, dgh_test self hzmin f = true ->
                  sgh_test self hzmin f = false).
Proof.
  intros Hx Hz Lx Lz Hfar Hdeep.
  assert (Dz : forall f, dgv_test self hxmin hzmin f = true ->
                         sgv_test self hzmin f = false).
  { intros f Hd. unfold dgv_test in Hd. unfold sgv_test.
    apply andb_true_iff in Hd. destruct Hd as [Hr _].
    apply Qlt_bool_iff in Hr.
    destruct (Qlt_bool (col0 (src_b self) * (9 # 10)) (col0 f)) eqn:E;
      [|reflexivity].
    apply Qlt_bool_iff in E. lra. }
  assert (Dx : forall f, dgh_test self hzmin f = true ->
                         sgh_test self hzmin f = false).
  { intros f Hd. unfold dgh_test in Hd. unfold sgh_test.
    apply andb_true_iff in Hd. destruct Hd as [_ Hd].
    apply andb_true_iff in Hd. destruct Hd as [Hle _].
    apply Qle_bool_iff in Hle.
    destruct (Qlt_bool hzmin (col2 f)) eqn:E;
      [|rewrite andb_false_r; reflexivity].
    apply Qlt_bool_iff in E. lra. }
  rewrite (dg_parts_closed self hxmin hzmin Hx Hz Lx Lz).
  do 2 eexists. split; [reflexivity|].
  split; [|split; [|split; assumption]].
  - intros i f Hf. rewrite list_lookup_fmap, Hf. simpl. f_equal.
    unfold unit_z. destruct (dgv_test self hxmin hzmin f) eqn:E.
    + rewrite (Dz f E). reflexivity.
    + reflexivity.
  - intros i f Hf. rewrite list_lookup_fmap, Hf. simpl. f_equal.
    unfold unit_x. destruct (dgh_test self hzmin f) eqn:E.
    + rewrite (Dx f E). reflexivity.
    + reflexivity.
Qed.

Lemma loop_signs_when_separate_witness :
  exists dg_x dg_z,
    dg_parts Samples.toy_src
    = Ok (dg_x, zeros (nFy (mesh Samples.toy_src)), dg_z)
    /\ (forall i f, gridFz (mesh Samples.toy_src) !! i = Some f ->
          dg_z !! i
          = Some (if dgv_test Samples.toy_src 1 1 f then Cm1
                  else if sgv_test Samples.toy_src 1 f then C1 else C0))
    /\ (forall i f, gridFx (mesh Samples.toy_src) !! i = Some f ->
          dg_x !! i
          = Some (if dgh_test Samples.toy_src 1 f then C1
                  else if sgh_test Samples.toy_src 1 f then Cm1 else C0))
    /\ (forall f, dgv_test Samples.toy_src 1 1 f = true ->
                  sgv_test Samples.toy_src 1 f = false)
    /\ (forall f, dgh_test Samples.toy_src 1 f = true ->
                  sgh_test Samples.toy_src 1 f = false).
Proof.
  apply (loop_signs_when_separate Samples.toy_src 1 1); try reflexivity.
  - vm_compute. intros E. discriminate E.
  - vm_compute. intros E. discriminate E.
Defined.

Lemma mask_set_inv (P : complex -> Prop) arr mask x arr' :
  mask_set arr mask x = Ok arr' ->
  Forall P arr -> P x ->
  length arr' = length arr /\ Forall P arr'.
Proof.
  unfold mask_set. destruct (Nat.eqb_spec (length mask) (length arr)) as [E|];
    [|discriminate].
  intros [= <-] Harr Hx. split.
  - rewrite length_zip_with. lia.
  - clear E. revert mask. induction Harr as [|a arr Ha _ IH]; intros [|b mask];
      simpl; constructor.
    + destruct b; assumption.
    + apply IH.
Qed.

Lemma zeros_units n : Forall (fun c => c = C0 \/ c = C1 \/ c = Cm1) (zeros n).
Proof.
  unfold zeros. induction n; simpl; constructor; [left; reflexivity|assumption].
Qed.

(** The vector of unit injections has one entry per face of the mesh, and
    every entry is 0, +1 or -1. *)
Theorem dg_entries_are_units (self : DownHoleCasingSrc.t) (v : list complex) :
  dg self = Ok v ->
  length v = nF (mesh self)
  /\ Forall (fun c => c = C0 \/ c = C1 \/ c = Cm1) v.
Proof.
  unfold dg, dg_parts. intros H.
  destruct (dgv_ind self) as [m1|]; cbn [rbind] in H; [|discriminate].
  destruct (mask_set _ m1 Cm1) as [z1|] eqn:E1; cbn [rbind] in H; [|discriminate].
  destruct (dgh_ind2 self) as [m2|]; cbn [rbind] in H; [|discriminate].
  destruct (mask_set _ m2 C1) as [x1|] eqn:E2; cbn [rbind] in H; [|discriminate].
  destruct (sgh_ind self) as [m3|]; cbn [rbind] in H; [|discriminate].
  destruct (mask_set x1 m3 Cm1) as [x2|] eqn:E3; cbn [rbind] in H; [|discriminate].
  destruct (sgv_ind self) as [m4|]; cbn [rbind] in H; [|discriminate].
  destruct (mask_set z1 m4 C1) as [z2|] eqn:E4; cbn [rbind] in H; [|discriminate].
  injection H as <-. cbn [fst snd].
  set (P := fun c => c = C0 \/ c = C1 \/ c = Cm1).
  assert (P1 : P C1) by (right; left; reflexivity).
  assert (Pm : P Cm1) by (right; right; reflexivity).
  destruct (mask_set_inv P _ _ _ _ E1 (zeros_units _) Pm) as [L1 F1].
  destruct (mask_set_inv P _ _ _ _ E2 (zeros_units _) P1) as [L2 F2].
  destruct (mask_set_inv P _ _ _ _ E3 F2 Pm) as [L3 F3].
  destruct (mask_set_inv P _ _ _ _ E4 F1 P1) as [L4 F4].
  split.
  - rewrite !length_app, L3, L2, L4, L1. unfold zeros.
    rewrite !repeat_length. unfold nF, vnF. simpl. lia.
  - repeat (apply Forall_app; split); try assumption. apply zeros_units.
Qed.

Lemma dg_entries_are_units_witness :
  exists v,
    dg Samples.toy_src = Ok v
    /\ length v = nF (mesh Samples.toy_src)
    /\ Forall (fun c => c = C0 \/ c = C1 \/ c = Cm1) v.
Proof.
  eexists. split; [vm_compute; reflexivity|].
  apply (dg_entries_are_units Samples.toy_src). vm_compute. reflexivity.
Defined.

Lemma sources_inv (v : list complex) (a : list Q) (fs : list Q)
    (srcs : list RawVec_e) :
  sources v a fs = Ok srcs ->
  (fs <> [] -> exists d, array_div v a = Ok d)
  /\ forall d, array_div v a = Ok d ->
       srcs = map (fun f => {| rxList := []; freq := f; s_e := d |}) fs.
Proof.
  revert srcs. induction fs as [|f fs IH]; intros srcs H; simpl in H.
  - injection H as <-. split; [congruence|reflexivity].
  - destruct (array_div v a) as [d0|] eqn:Ed; cbn [rbind] in H; [|discriminate].
    destruct (sources v a fs) as [rest|] eqn:Er; cbn [rbind] in H; [|discriminate].
    injection H as <-. split; [eauto|].
    intros d [= <-]. simpl. f_equal.
    apply (proj2 (IH rest eq_refl)). reflexivity.
Qed.

(** [dg_p] gives one source per frequency, in the order of [freqs], without
    receivers, and all sources carry the same vector: the pattern does not
    depend on the frequency. *)
Theorem sources_share_the_vector (self : DownHoleCasingSrc.t)
    (srcs : list RawVec_e) :
  dg_p_body self = Ok srcs ->
  map freq srcs = freqs self
  /\ (forall s, In s srcs -> rxList s = [])
  /\ (forall s s', In s srcs -> In s' srcs -> s_e s = s_e s')
  /\ fst (dg_p (init (mesh self) (src_a self) (src_b self) (casing_a self)
                  (freqs self))) = Ok srcs.
Proof.
  intros H.
  assert (Hfirst : fst (dg_p (init (mesh self) (src_a self) (src_b self)
                                (casing_a self) (freqs self))) = Ok srcs).
  { unfold dg_p. cbn [_dg_p init].
    change (dg_p_body (init (mesh self) (src_a self) (src_b self)
                         (casing_a self) (freqs self)))
      with (dg_p_body self).
    rewrite H. reflexivity. }
  unfold dg_p_body in H.
  destruct (dg self) as [v|]; cbn [rbind] in H; [|discriminate].
  destruct (sources_inv _ _ _ _ H) as [Hd Hs].
  destruct (freqs self) as [|f fs] eqn:Ef.
  - simpl in H. injection H as <-. repeat split; try reflexivity.
    + intros s [].
    + intros s s' [].
    + exact Hfirst.
  - destruct Hd as [d Hd]; [discriminate|].
    rewrite (Hs d Hd). split; [rewrite map_map; simpl; f_equal; apply map_id|].
    split; [|split].
    + intros s Hin. apply in_map_iff in Hin. destruct Hin as (g & <- & _).
      reflexivity.
    + intros s s' Hin Hin'. apply in_map_iff in Hin, Hin'.
      destruct Hin as (g & <- & _), Hin' as (g' & <- & _). reflexivity.
    + rewrite <- (Hs d Hd). exact Hfirst.
Qed.

Lemma sources_share_the_vector_witness :
  exists srcs,
    dg_p_body Samples.toy_src = Ok srcs
    /\ map freq srcs = freqs Samples.toy_src
    /\ (forall s, In s srcs -> rxList s = [])
    /\ (forall s s', In s srcs -> In s' srcs -> s_e s = s_e s')
    /\ fst (dg_p (init (mesh Samples.toy_src) (src_a Samples.toy_src)
                    (src_b Samples.toy_src) (casing_a Samples.toy_src)
                    (freqs Samples.toy_src))) = Ok srcs.
Proof.
  eexists. split; [vm_compute; reflexivity|].
  apply (sources_share_the_vector Samples.toy_src). vm_compute. reflexivity.
Defined.











End SourceMore.

(** ** More on the casing currents *)

Module CurrentsMore.

Import Store Currents CurrentsFacts.

(** Every array that exists before the call is the same after it, whether
    the call returns or raises: the only array written is the new copy. *)
Theorem CasingCurrents_writes_only_its_copy (cp : CasingProperties.t)
    (fields : list (Q * list (list complex))) (m : Mesh.t) (sigma_m : ref)
    (indActive : list bool) (casingMap : list Q -> result (list Q))
    (h : gmap positive (list Q)) (l : ref) (a : list Q) :
  h !! l = Some a ->
  snd (CasingCurrents cp fields m sigma_m indActive casingMap h) !! l = Some a.
Proof.
  intros Hl. rewrite <- Hl.
  unfold CasingCurrents. rewrite bind_frame; [|intros; reflexivity].
  unfold casing_faces. rewrite bind_frame.
  2:{ intros ci h'. rewrite bind_frame; [|intros; reflexivity].
      unfold get. destruct (h' !! ci); reflexivity. }
  unfold casing_indicator, bind at 1, copy.
  destruct (h !! sigma_m) as [v|] eqn:E; [|reflexivity].
  pose proof (fresh_ne h l a Hl) as Hne.
  rewrite bind_frame.
  - rewrite setitems_frame by exact Hne.
    apply lookup_insert_ne. exact Hne.
  - intros _ h'. rewrite bind_frame; [|intros; reflexivity].
    apply setitems_frame. exact Hne.
Qed.

Lemma CasingCurrents_writes_only_its_copy_witness :
  snd (CasingCurrents Samples.one_run Samples.one_field Samples.quad
         Samples.sigma_ref [true; true; true; true]
         (by_category [0; 2; 1; 3]%nat)
         (<[5%positive := [7; 8]]> Samples.one_vector))
    !! 5%positive
  = Some [7; 8].
Proof.
  apply (CasingCurrents_writes_only_its_copy Samples.one_run Samples.one_field
           Samples.quad Samples.sigma_ref [true; true; true; true]
           (by_category [0; 2; 1; 3]%nat)
           (<[5%positive := [7; 8]]> Samples.one_vector) 5%positive).
  reflexivity.
Defined.

(** A material vector with fewer than four entries: the call raises
    [IndexError] at the first indexed assignment, after the copy was made
    and before anything is written. *)
Theorem short_vector_is_an_index_error (cp : CasingProperties.t)
    (fields : list (Q * list (list complex))) (m : Mesh.t) (sigma_m : ref)
    (indActive : list bool) (casingMap : list Q -> result (list Q))
    (h : gmap positive (list Q)) (v : list Q) :
  h !! sigma_m = Some v ->
  (length v < 4)%nat ->
  CasingCurrents cp fields m sigma_m indActive casingMap h
  = (Raise IndexError, <[fresh (dom h) := v]> h).
Proof.
  intros E Hlen.
  unfold CasingCurrents, casing_faces, casing_indicator, bind, copy, setitems.
  rewrite E. cbn iota. rewrite lookup_insert_eq. cbn iota.
  assert (H3 : forallb (fun i => Nat.ltb i (length v)) [0; 1; 3]%nat = false).
  { simpl. destruct (Nat.ltb_spec 3 (length v)); [lia|].
    rewrite !andb_false_r. reflexivity. }
  rewrite H3. reflexivity.
Qed.

Lemma short_vector_is_an_index_error_witness :
  CasingCurrents Samples.one_run Samples.one_field Samples.quad
    Samples.sigma_ref [true; true; true; true]
    (by_category [0; 2; 1; 3]%nat) {[ Samples.sigma_ref := [1; 2; 3] ]}
  = (Raise IndexError,
     <[fresh (dom ({[ Samples.sigma_ref := [1; 2; 3] ]}
                     : gmap positive (list Q))) := [1; 2; 3]]>
       {[ Samples.sigma_ref := [1; 2; 3] ]}).
Proof.
  apply (short_vector_is_an_index_error Samples.one_run Samples.one_field
           Samples.quad Samples.sigma_ref [true; true; true; true]
           (by_category [0; 2; 1; 3]%nat)
           {[ Samples.sigma_ref := [1; 2; 3] ]} [1; 2; 3]).
  - reflexivity.
  - simpl. lia.
Defined.

(** Writing a key and reading any key back. *)
Lemma dict_get_set {V} (d : list (Q * V)) (k q : Q) (v : V) :
  dict_get (dict_set d k v) q
  = if Qeq_bool k q then Ok v else dict_get d q.
Proof.
  induction d as [|[k1 v1] d IH]; simpl; [reflexivity|].
  destruct (Qeq_bool k1 k) eqn:E1; simpl.
  - apply Qeq_bool_eq in E1.
    destruct (Qeq_bool k1 q) eqn:E2, (Qeq_bool k q) eqn:E3; try reflexivity.
    + apply Qeq_bool_eq in E2. apply Qeq_bool_neq in E3.
      exfalso. apply E3. rewrite <- E1. exact E2.
    + apply Qeq_bool_neq in E2. apply Qeq_bool_eq in E3.
      exfalso. apply E2. rewrite E1. exact E3.
  - rewrite IH.
    destruct (Qeq_bool k1 q) eqn:E2, (Qeq_bool k q) eqn:E3; try reflexivity.
    apply Qeq_bool_eq in E2, E3. apply Qeq_bool_neq in E1.
    exfalso. apply E1. rewrite E2, E3. reflexivity.
Qed.

Lemma block_sums_length n0 n2 v : length (block_sums n0 n2 v) = n2.
Proof.
  revert v. induction n2 as [|n2 IH]; intros v; simpl; [reflexivity|].
  rewrite IH. reflexivity.
Qed.

Lemma reshape_sum0_inv n0 n2 v s :
  reshape_sum0 n0 n2 v = Ok s ->
  length v = (n0 * n2)%nat /\ s = block_sums n0 n2 v.
Proof.
  unfold reshape_sum0. destruct (Nat.eqb_spec (length v) (n0 * n2)); [|discriminate].
  intros [= <-]. split; [assumption|reflexivity].
Qed.

(** The shape of what one permeability contributes. *)
Lemma freq_loop_shape (m : Mesh.t) (cols : list (list complex))
    (freqinds : list nat) r :
  freq_loop m cols freqinds = Ok r ->
  length (fst r) = length freqinds
  /\ length (snd r) = length freqinds
  /\ Forall (fun c => length c = snd (Mesh.vnFx m)) (fst r)
  /\ Forall (fun c => length c = snd (Mesh.vnFz m)) (snd r).
Proof.
  revert r. induction freqinds as [|i rest IH]; intros r H; simpl in H.
  - injection H as <-. repeat split; constructor.
  - destruct (column cols i) as [c|]; cbn [rbind] in H; [|discriminate].
    destruct (reshape_sum0 _ _ (take _ c)) as [jx|] eqn:Ex; cbn [rbind] in H;
      [|discriminate].
    destruct (reshape_sum0 _ _ (drop _ c)) as [jz|] eqn:Ez; cbn [rbind] in H;
      [|discriminate].
    destruct (freq_loop m cols rest) as [r'|]; cbn [rbind] in H; [|discriminate].
    injection H as <-. destruct (IH r' eq_refl) as (L1 & L2 & F1 & F2).
    apply reshape_sum0_inv in Ex, Ez. destruct Ex as [_ ->], Ez as [_ ->].
    cbn [fst snd length]. split; [lia|]. split; [lia|].
    split; constructor; try assumption; apply block_sums_length.
Qed.

Import Shapes.

Lemma mu_loop_inv (cp : CasingProperties.t)
    (fields : list (Q * list (list complex))) (m : Mesh.t) (faces : list Q)
    (murs : list Q) :
  forall Ix Iz Ix' Iz',
  mu_loop cp fields m faces murs Ix Iz = Ok (Ix', Iz') ->
  let nf := length (CasingProperties.freqs cp) in
  let Sx := shaped nf (snd (Mesh.vnFx m)) in
  let Sz := shaped nf (snd (Mesh.vnFz m)) in
  (forall k, In k murs ->
     (exists j, dict_get fields k = Ok j)
     /\ (exists px, dict_get Ix' k = Ok px /\ Sx px)
     /\ (exists pz, dict_get Iz' k = Ok pz /\ Sz pz))
  /\ (forall k, (exists px, dict_get Ix k = Ok px /\ Sx px) ->
                 exists px, dict_get Ix' k = Ok px /\ Sx px)
  /\ (forall k, (exists pz, dict_get Iz k = Ok pz /\ Sz pz) ->
                 exists pz, dict_get Iz' k = Ok pz /\ Sz pz)
  /\ (forall k, is_ok (dict_get Ix' k) = true ->
                 is_ok (dict_get Ix k) = true
                 \/ exists mur, In mur murs /\ mur == k)
  /\ (forall k, is_ok (dict_get Iz' k) = true ->
                 is_ok (dict_get Iz k) = true
                 \/ exists mur, In mur murs /\ mur == k).
Proof.
  induction murs as [|mur rest IH]; intros Ix Iz Ix' Iz' H nf Sx Sz; simpl in H.
  - injection H as <- <-. split; [intros k []|]. repeat split; auto.
  - destruct (dict_get fields mur) as [j|] eqn:Ej; cbn [rbind] in H; [|discriminate].
    destruct (sdiag_mul_cols (Mesh.area m) j) as [jA|]; cbn [rbind] in H;
      [|discriminate].
    destruct (sdiag_mul_cols faces jA) as [jAC|]; cbn [rbind] in H; [|discriminate].
    destruct (freq_loop m jAC _) as [r|] eqn:Er; cbn [rbind] in H; [|discriminate].
    destruct (freq_loop_shape _ _ _ _ Er) as (L1 & L2 & F1 & F2).
    rewrite length_seq in L1, L2.
    destruct (IH _ _ _ _ H) as (Hin & Px & Pz & Kx & Kz).
    assert (Nx : forall k, (exists px, dict_get Ix k = Ok px /\ Sx px)
                  \/ Qeq_bool mur k = true ->
                  exists px, dict_get Ix' k = Ok px /\ Sx px).
    { intros k Hk. apply Px. rewrite dict_get_set.
      destruct (Qeq_bool mur k); [exists (fst r); split; [reflexivity|split; assumption]|].
      destruct Hk as [Hk|Hk]; [exact Hk|discriminate]. }
    assert (Nz : forall k, (exists pz, dict_get Iz k = Ok pz /\ Sz pz)
                  \/ Qeq_bool mur k = true ->
                  exists pz, dict_get Iz' k = Ok pz /\ Sz pz).
    { intros k Hk. apply Pz. rewrite dict_get_set.
      destruct (Qeq_bool mur k); [exists (snd r); split; [reflexivity|split; assumption]|].
      destruct Hk as [Hk|Hk]; [exact Hk|discriminate]. }
    split; [|split; [|split; [|split]]].
    + intros k [<-|Hk].
      * split; [eauto|]. split; [apply Nx|apply Nz]; right; apply Qeq_bool_refl.
      * apply Hin. exact Hk.
    + intros k Hk. apply Nx. left. exact Hk.
    + intros k Hk. apply Nz. left. exact Hk.
    + intros k Hk. apply Kx in Hk. rewrite dict_get_set in Hk.
      destruct Hk as [Hk|(mu & Hmu & Emu)]; [|right; exists mu; split; [right|]; assumption].
      destruct (Qeq_bool mur k) eqn:E; [|left; exact Hk].
      right. exists mur. split; [left; reflexivity|apply Qeq_bool_eq, E].
    + intros k Hk. apply Kz in Hk. rewrite dict_get_set in Hk.
      destruct Hk as [Hk|(mu & Hmu & Emu)]; [|right; exists mu; split; [right|]; assumption].
      destruct (Qeq_bool mur k) eqn:E; [|left; exact Hk].
      right. exists mur. split; [left; reflexivity|apply Qeq_bool_eq, E].
Qed.

(** When [CasingCurrents] returns, every permeability of [muModels] is a
    key of [fields] and of both results; its entry has one sequence per
    frequency, as long as the mesh has layers of x-faces (for the radial
    current) or of z-faces (for the vertical current); and the results have
    no other keys. *)
Theorem CasingCurrents_profile_shape (cp : CasingProperties.t)
    (fields : list (Q * list (list complex))) (m : Mesh.t) (sigma_m : ref)
    (indActive : list bool) (casingMap : list Q -> result (list Q))
    (h h' : gmap positive (list Q)) (Ix Iz : profile) :
  CasingCurrents cp fields m sigma_m indActive casingMap h = (Ok (Ix, Iz), h') ->
  (forall mur, In mur (CasingProperties.muModels cp) ->
     (exists j, dict_get fields mur = Ok j)
     /\ (exists px, dict_get Ix mur = Ok px
                    /\ shaped (length (CasingProperties.freqs cp))
                          (snd (Mesh.vnFx m)) px)
     /\ (exists pz, dict_get Iz mur = Ok pz
                    /\ shaped (length (CasingProperties.freqs cp))
                          (snd (Mesh.vnFz m)) pz))
  /\ (forall k, is_ok (dict_get Ix k) = true \/ is_ok (dict_get Iz k) = true ->
                 exists mur, In mur (CasingProperties.muModels cp) /\ mur == k).
Proof.
  unfold CasingCurrents, bind, lift.
  destruct (casing_faces m sigma_m indActive casingMap h) as [[faces|e] h1];
    [|intros [=]].
  destruct (mu_loop cp fields m faces (CasingProperties.muModels cp) [] [])
    as [[Ix0 Iz0]|e] eqn:E; intros [= <- <- <-].
  destruct (mu_loop_inv _ _ _ _ _ _ _ _ _ E) as (Hin & _ & _ & Kx & Kz).
  split; [exact Hin|].
  intros k [Hk|Hk]; [apply Kx in Hk|apply Kz in Hk];
    (destruct Hk as [Hk|Hk]; [simpl in Hk; discriminate|exact Hk]).
Qed.

Lemma CasingCurrents_profile_shape_witness :
  exists Ix Iz h',
    CasingCurrents Samples.one_run Samples.one_field Samples.quad
      Samples.sigma_ref [true; true; true; true]
      (by_category [0; 2; 1; 3]%nat) Samples.one_vector
    = (Ok (Ix, Iz), h')
    /\ (forall mur, In mur (CasingProperties.muModels Samples.one_run) ->
          (exists j, dict_get Samples.one_field mur = Ok j)
          /\ (exists px, dict_get Ix mur = Ok px /\ shaped 1 2 px)
          /\ (exists pz, dict_get Iz mur = Ok pz /\ shaped 1 3 pz))
    /\ (forall k, is_ok (dict_get Ix k) = true \/ is_ok (dict_get Iz k) = true ->
          exists mur,
            In mur (CasingProperties.muModels Samples.one_run) /\ mur == k).
Proof.
  do 3 eexists. split; [vm_compute; reflexivity|].
  eapply (CasingCurrents_profile_shape Samples.one_run Samples.one_field
            Samples.quad Samples.sigma_ref [true; true; true; true]
            (by_category [0; 2; 1; 3]%nat) Samples.one_vector).
  vm_compute. reflexivity.
Defined.

Lemma Ceq_refl c : Ceq c c.
Proof. split; reflexivity. Qed.

Lemma Csum_take_drop (n : nat) (v : list complex) :
  Ceq (Cadd (Csum (take n v)) (Csum (drop n v))) (Csum v).
Proof.
  destruct (SourceFacts.Csum_app (take n v) (drop n v)) as [Hr Hi].
  rewrite take_drop in Hr, Hi. unfold Ceq. simpl. rewrite Hr, Hi.
  split; reflexivity.
Qed.

Lemma block_sums_total (n0 n2 : nat) (v : list complex) :
  length v = (n0 * n2)%nat -> Ceq (Csum (block_sums n0 n2 v)) (Csum v).
Proof.
  revert v. induction n2 as [|n2 IH]; intros v Hlen.
  - rewrite Nat.mul_0_r in Hlen. destruct v; [apply Ceq_refl|discriminate].
  - simpl block_sums. simpl Csum.
    assert (Hd : length (drop n0 v) = (n0 * n2)%nat)
      by (rewrite length_drop; lia).
    destruct (IH _ Hd) as [Ir Ii].
    destruct (Csum_take_drop n0 v) as [Tr Ti].
    unfold Ceq in *. simpl in *. rewrite Ir, Ii, Tr, Ti. split; reflexivity.
Qed.

(** Summing over the radial index loses nothing: for every frequency the
    entries of the radial-current sequence add up to the sum over all
    x-faces of the masked face currents, those of the vertical-current
    sequence to the sum over all z-faces, and both together to the sum over
    all faces. *)
Theorem radial_sums_keep_the_total (m : Mesh.t) (cols : list (list complex))
    (freqinds : list nat) (r : list (list complex) * list (list complex)) :
  freq_loop m cols freqinds = Ok r ->
  forall k i, freqinds !! k = Some i ->
    exists c jx jz,
      cols !! i = Some c
      /\ fst r !! k = Some jx
      /\ snd r !! k = Some jz
      /\ Ceq (Csum jx) (Csum (take (Mesh.nFx m) c))
      /\ Ceq (Csum jz) (Csum (drop (Mesh.nFx m) c))
      /\ Ceq (Cadd (Csum jx) (Csum jz)) (Csum c).
Proof.
  revert r. induction freqinds as [|i0 rest IH]; intros r H k i Hk.
  - discriminate.
  - simpl in H. unfold column in H.
    destruct (cols !! i0) as [c|] eqn:Ec; cbn [rbind] in H; [|discriminate].
    destruct (reshape_sum0 _ _ (take _ c)) as [jx|] eqn:Ex; cbn [rbind] in H;
      [|discriminate].
    destruct (reshape_sum0 _ _ (drop _ c)) as [jz|] eqn:Ez; cbn [rbind] in H;
      [|discriminate].
    destruct (freq_loop m cols rest) as [r'|] eqn:Er; cbn [rbind] in H;
      [|discriminate].
    injection H as <-. destruct k as [|k].
    + simpl in Hk. injection Hk as <-. exists c, jx, jz.
      apply reshape_sum0_inv in Ex, Ez. destruct Ex as [Lx ->], Ez as [Lz ->].
      pose proof (block_sums_total _ _ _ Lx) as [Xr Xi].
      pose proof (block_sums_total _ _ _ Lz) as [Zr Zi].
      destruct (Csum_take_drop (Mesh.nFx m) c) as [Tr Ti].
      repeat split; try assumption; try reflexivity; simpl in *.
      * rewrite Xr, Zr. exact Tr.
      * rewrite Xi, Zi. exact Ti.
    + simpl in Hk. destruct (IH r' eq_refl k i Hk) as (c' & jx' & jz' & H').
      exists c', jx', jz'. exact H'.
Qed.

Lemma radial_sums_keep_the_total_witness :
  exists r,
    freq_loop Samples.quad [repeat (mkC 1 1) 10%nat] [0%nat] = Ok r
    /\ forall k i, [0%nat] !! k = Some i ->
         exists c jx jz,
           [repeat (mkC 1 1) 10%nat] !! i = Some c
           /\ fst r !! k = Some jx
           /\ snd r !! k = Some jz
           /\ Ceq (Csum jx) (Csum (take (Mesh.nFx Samples.quad) c))
           /\ Ceq (Csum jz) (Csum (drop (Mesh.nFx Samples.quad) c))
           /\ Ceq (Cadd (Csum jx) (Csum jz)) (Csum c).
Proof.
  eexists. split; [vm_compute; reflexivity|].
  apply (radial_sums_keep_the_total Samples.quad [repeat (mkC 1 1) 10%nat]
           [0%nat]).
  vm_compute. reflexivity.
Defined.

Lemma marked_agree (v v' : list Q) :
  length v' = length v ->
  (forall i, (4 <= i)%nat -> v' !! i = v !! i) ->
  marked v' = marked v.
Proof.
  intros Hlen Hi. apply list_eq. intros i. unfold marked.
  destruct (Nat.eq_dec i 2%nat) as [->|N2].
  { destruct (Nat.lt_ge_cases 2%nat (length v)) as [Hl|Hl].
    - rewrite !list_lookup_insert_eq by (rewrite !length_insert; lia). reflexivity.
    - rewrite !lookup_ge_None_2 by (rewrite !length_insert; lia). reflexivity. }
  rewrite !(list_lookup_insert_ne _ 2%nat i) by (intros E; apply N2; symmetry; exact E).
  destruct (Nat.eq_dec i 0%nat) as [->|N0].
  { destruct (Nat.lt_ge_cases 0%nat (length v)) as [Hl|Hl].
    - rewrite !list_lookup_insert_eq by (rewrite !length_insert; lia). reflexivity.
    - rewrite !lookup_ge_None_2 by (rewrite !length_insert; lia). reflexivity. }
  rewrite !(list_lookup_insert_ne _ 0%nat i) by (intros E; apply N0; symmetry; exact E).
  destruct (Nat.eq_dec i 1%nat) as [->|N1].
  { destruct (Nat.lt_ge_cases 1%nat (length v)) as [Hl|Hl].
    - rewrite !list_lookup_insert_eq by (rewrite !length_insert; lia). reflexivity.
    - rewrite !lookup_ge_None_2 by (rewrite !length_insert; lia). reflexivity. }
  rewrite !(list_lookup_insert_ne _ 1%nat i) by (intros E; apply N1; symmetry; exact E).
  destruct (Nat.eq_dec i 3%nat) as [->|N3].
  { destruct (Nat.lt_ge_cases 3%nat (length v)) as [Hl|Hl].
    - rewrite !list_lookup_insert_eq by lia. reflexivity.
    - rewrite !lookup_ge_None_2 by (rewrite !length_insert; lia). reflexivity. }
  rewrite !(list_lookup_insert_ne _ 3%nat i) by (intros E; apply N3; symmetry; exact E).
  apply Hi. lia.
Qed.

(** Only the length of the material vector and its entries from position 4
    on matter: with other numbers in the first four places the call gives
    the same outcome. *)
Theorem CasingCurrents_ignores_the_four_values (cp : CasingProperties.t)
    (fields : list (Q * list (list complex))) (m : Mesh.t) (sigma_m : ref)
    (indActive : list bool) (casingMap : list Q -> result (list Q))
    (h : gmap positive (list Q)) (v v' : list Q) :
  h !! sigma_m = Some v ->
  (4 <= length v)%nat ->
  length v' = length v ->
  (forall i, (4 <= i)%nat -> v' !! i = v !! i) ->
  fst (CasingCurrents cp fields m sigma_m indActive casingMap
         (<[sigma_m := v']> h))
  = fst (CasingCurrents cp fields m sigma_m indActive casingMap h).
Proof.
  intros E Hlen Hlen' Hi.
  assert (Hdom : dom (<[sigma_m := v']> h) = dom h).
  { rewrite dom_insert_L. apply subseteq_union_1_L.
    apply singleton_subseteq_l, elem_of_dom. eauto. }
  unfold CasingCurrents, casing_faces, bind at 1 4.
  unfold bind at 1 3.
  rewrite (casing_indicator_run h sigma_m v E Hlen).
  rewrite (casing_indicator_run (<[sigma_m := v']> h) sigma_m v'
             (lookup_insert_eq _ _ _)) by lia.
  rewrite Hdom, (marked_agree v v' Hlen' Hi).
  unfold bind, get, lift. rewrite !lookup_insert_eq.
  destruct (casing_faces_of m indActive casingMap (marked v)); reflexivity.
Qed.

Lemma CasingCurrents_ignores_the_four_values_witness :
  fst (CasingCurrents Samples.one_run Samples.one_field Samples.quad
         Samples.sigma_ref [true; true; true; true]
         (by_category [0; 2; 1; 3]%nat)
         (<[Samples.sigma_ref := [9; 8; 7; 6]]> Samples.one_vector))
  = fst (CasingCurrents Samples.one_run Samples.one_field Samples.quad
           Samples.sigma_ref [true; true; true; true]
           (by_category [0; 2; 1; 3]%nat) Samples.one_vector).
Proof.
  apply (CasingCurrents_ignores_the_four_values Samples.one_run
           Samples.one_field Samples.quad Samples.sigma_ref
           [true; true; true; true] (by_category [0; 2; 1; 3]%nat)
           Samples.one_vector [1 # 100000000; 1 # 100; 1 # 100; 5500000]
           [9; 8; 7; 6]).
  - reflexivity.
  - simpl. lia.
  - reflexivity.
  - intros i Hi. destruct i as [|[|[|[|i]]]]; try lia. reflexivity.
Defined.

End CurrentsMore.

(** ** From the indicator to the currents *)

Module ExtractorFacts.

Import Store Currents CurrentsFacts CurrentsMore.

Lemma count_true_take (indActive : list bool) (i : nat) :
  indActive !! i = Some true ->
  (count_true (take i indActive) < count_true indActive)%nat.
Proof.
  revert i. induction indActive as [|b ia IH]; intros i Hi; [discriminate|].
  destruct i as [|i].
  - simpl in Hi. injection Hi as ->. simpl. lia.
  - simpl in Hi. apply IH in Hi. destruct b; simpl; lia.
Qed.

(** Where the injection puts the values of the active cells. *)
Lemma inject_active_lookup (indActive : list bool) :
  forall (m out : list Q),
  inject_active indActive m = Ok out ->
  length out = length indActive
  /\ forall i,
       (indActive !! i = Some false -> out !! i = Some 0)
       /\ (indActive !! i = Some true ->
           out !! i = m !! count_true (take i indActive)).
Proof.
  induction indActive as [|b ia IH]; intros m out H.
  - simpl in H. destruct m; [|discriminate]. injection H as <-.
    split; [reflexivity|]. intros i. split; intros Hi; discriminate.
  - destruct b.
    + simpl in H. destruct m as [|x m']; [discriminate|].
      destruct (inject_active ia m') as [rest|] eqn:E; cbn [rbind] in H;
        [|discriminate].
      injection H as <-. destruct (IH _ _ E) as [Hlen Hi].
      split; [simpl; rewrite Hlen; reflexivity|].
      intros [|i]; simpl.
      * split; [discriminate|reflexivity].
      * apply Hi.
    + simpl in H.
      destruct (inject_active ia m) as [rest|] eqn:E; cbn [rbind] in H;
        [|discriminate].
      injection H as <-. destruct (IH _ _ E) as [Hlen Hi].
      split; [simpl; rewrite Hlen; reflexivity|].
      intros [|i]; simpl.
      * split; [reflexivity|discriminate].
      * apply Hi.
Qed.

Lemma inject_active_run (indActive : list bool) :
  forall m : list Q,
  length m = count_true indActive ->
  exists out, inject_active indActive m = Ok out.
Proof.
  induction indActive as [|b ia IH]; intros m Hm.
  - destruct m; [|discriminate]. exists []. reflexivity.
  - destruct b; simpl in *.
    + destruct m as [|x m']; [discriminate|].
      destruct (IH m') as [rest Hr]; [simpl in Hm; lia|].
      rewrite Hr. eexists. reflexivity.
    + destruct (IH m Hm) as [rest Hr]. rewrite Hr. eexists. reflexivity.
Qed.

(** The entry of the indicator for a category below four. *)
Lemma marked_nth (v : list Q) (c : nat) :
  (4 <= length v)%nat -> (c < 4)%nat ->
  nth c (marked v) 0 = (if Nat.eqb c 2 then 1 else 0).
Proof.
  intros Hlen Hc.
  destruct (marked_entries v Hlen) as (_ & E0 & E1 & E2 & E3 & _).
  destruct c as [|[|[|[|c]]]]; try lia;
    [rewrite (nth_lookup_Some _ _ _ _ E0)
    |rewrite (nth_lookup_Some _ _ _ _ E1)
    |rewrite (nth_lookup_Some _ _ _ _ E2)
    |rewrite (nth_lookup_Some _ _ _ _ E3)]; reflexivity.
Qed.

(** The run of the lines up to [indCasing] on a model vector of four
    entries or more. *)
Lemma indCasing_run (sigma_m : ref) (indActive : list bool)
    (casingMap : list Q -> result (list Q)) (h : gmap positive (list Q))
    (v : list Q) :
  h !! sigma_m = Some v ->
  (4 <= length v)%nat ->
  indCasing sigma_m indActive casingMap h
  = (on_active <- casingMap (marked v) ;; inject_active indActive on_active,
     <[fresh (dom h) := marked v]> h).
Proof.
  intros E Hlen. unfold indCasing, bind.
  rewrite (casing_indicator_run h sigma_m v E Hlen).
  unfold get, lift. rewrite lookup_insert_eq. reflexivity.
Qed.

Lemma casing_faces_run (m : Mesh.t) (sigma_m : ref) (indActive : list bool)
    (casingMap : list Q -> result (list Q)) (h : gmap positive (list Q))
    (v : list Q) :
  h !! sigma_m = Some v ->
  (4 <= length v)%nat ->
  casing_faces m sigma_m indActive casingMap h
  = (casing_faces_of m indActive casingMap (marked v),
     <[fresh (dom h) := marked v]> h).
Proof.
  intros E Hlen. unfold casing_faces, bind.
  rewrite (casing_indicator_run h sigma_m v E Hlen).
  unfold get, lift. rewrite lookup_insert_eq. reflexivity.
Qed.

(** C7 (as amended): the extractor copies the material vector and sets the
    copy to 1 at index 2 and to 0 at indices 0, 1 and 3, the entries from
    index 4 on staying as they are.  This indicator, written to a new
    array, is the vector that the extractor passes through the model map
    and the injection of the active cells, and from the cells through the
    face averaging and the threshold to the two loops.  For a model map
    that gives every active cell the entry of its category, with the
    categories 0 to 3, the indicator on the cells is 1 on the active cells
    of the category at index 2 and 0 on every other cell. *)
Theorem casing_indicator_reaches_the_cells (cp : CasingProperties.t)
    (fields : list (Q * list (list complex))) (m : Mesh.t) (sigma_m : ref)
    (indActive : list bool) (casingMap : list Q -> result (list Q))
    (h : gmap positive (list Q)) (v : list Q) :
  h !! sigma_m = Some v ->
  (4 <= length v)%nat ->
  exists ind,
    (length ind = length v
     /\ ind !! 0%nat = Some 0
     /\ ind !! 1%nat = Some 0
     /\ ind !! 2%nat = Some 1
     /\ ind !! 3%nat = Some 0
     /\ forall i, (4 <= i)%nat -> ind !! i = v !! i)
    /\ indCasing sigma_m indActive casingMap h
       = (on_active <- casingMap ind ;; inject_active indActive on_active,
          <[fresh (dom h) := ind]> h)
    /\ casing_faces m sigma_m indActive casingMap h
       = (on_active <- casingMap ind ;;
          cells <- inject_active indActive on_active ;;
          avg <- tmul (Mesh.nF m) (Mesh.aveF2CC m) cells ;;
          Ok (map (fun x => if Qlt_bool x (1 # 4) then 0 else x) avg),
          <[fresh (dom h) := ind]> h)
    /\ CasingCurrents cp fields m sigma_m indActive casingMap h
       = (on_active <- casingMap ind ;;
          cells <- inject_active indActive on_active ;;
          avg <- tmul (Mesh.nF m) (Mesh.aveF2CC m) cells ;;
          mu_loop cp fields m
            (map (fun x => if Qlt_bool x (1 # 4) then 0 else x) avg)
            (CasingProperties.muModels cp) [] [],
          <[fresh (dom h) := ind]> h)
    /\ forall cats,
         Forall (fun c => (c < 4)%nat) cats ->
         length cats = count_true indActive ->
         exists cells,
           indCasing sigma_m indActive (by_category cats) h
           = (Ok cells, <[fresh (dom h) := ind]> h)
           /\ length cells = length indActive
           /\ forall i,
                (indActive !! i = Some false -> cells !! i = Some 0)
                /\ (indActive !! i = Some true ->
                    exists c,
                      cats !! count_true (take i indActive) = Some c
                      /\ cells !! i = Some (if Nat.eqb c 2 then 1 else 0)).
Proof.
  intros E Hlen. exists (marked v).
  split; [apply marked_entries, Hlen|].
  split; [apply indCasing_run; assumption|].
  split; [apply casing_faces_run; assumption|].
  split.
  { unfold CasingCurrents, bind.
    rewrite (casing_faces_run m sigma_m indActive casingMap h v E Hlen).
    unfold casing_faces_of, lift.
    destruct (casingMap (marked v)) as [on_active|]; cbn [rbind];
      [|reflexivity].
    destruct (inject_active indActive on_active) as [cells|]; cbn [rbind];
      [|reflexivity].
    destruct (tmul _ _ cells) as [avg|]; reflexivity. }
  intros cats Hcats Hn.
  rewrite (indCasing_run sigma_m indActive (by_category cats) h v E Hlen).
  unfold by_category. cbn [rbind].
  destruct (inject_active_run indActive
              (map (fun c => nth c (marked v) 0) cats)) as [cells Hc].
  { rewrite length_map. exact Hn. }
  exists cells. rewrite Hc. split; [reflexivity|].
  destruct (inject_active_lookup _ _ _ Hc) as [Hl Hi].
  split; [exact Hl|]. intros i. split; [apply Hi|].
  intros Ht. pose proof (count_true_take _ _ Ht) as Hlt. rewrite <- Hn in Hlt.
  destruct (lookup_lt_is_Some_2 _ _ Hlt) as [c Hcat].
  exists c. split; [exact Hcat|].
  destruct (Hi i) as [_ Hv]. rewrite (Hv Ht).
  rewrite list_lookup_fmap, Hcat. simpl. f_equal.
  apply marked_nth; [exact Hlen|].
  rewrite Forall_forall in Hcats. apply Hcats.
  eapply list_elem_of_lookup_2. exact Hcat.
Qed.

Lemma casing_indicator_reaches_the_cells_witness :
  exists ind,
    (length ind = length [1 # 100000000; 1 # 100; 1 # 100; 5500000]
     /\ ind !! 0%nat = Some 0
     /\ ind !! 1%nat = Some 0
     /\ ind !! 2%nat = Some 1
     /\ ind !! 3%nat = Some 0
     /\ forall i, (4 <= i)%nat ->
          ind !! i = [1 # 100000000; 1 # 100; 1 # 100; 5500000] !! i)
    /\ indCasing Samples.sigma_ref [true; true; true; true]
         (by_category [0; 2; 1; 3]%nat) Samples.one_vector
       = (on_active <- by_category [0; 2; 1; 3]%nat ind ;;
          inject_active [true; true; true; true] on_active,
          <[fresh (dom Samples.one_vector) := ind]> Samples.one_vector)
    /\ casing_faces Samples.quad Samples.sigma_ref [true; true; true; true]
         (by_category [0; 2; 1; 3]%nat) Samples.one_vector
       = (on_active <- by_category [0; 2; 1; 3]%nat ind ;;
          cells <- inject_active [true; true; true; true] on_active ;;
          avg <- tmul (Mesh.nF Samples.quad) (Mesh.aveF2CC Samples.quad) cells ;;
          Ok (map (fun x => if Qlt_bool x (1 # 4) then 0 else x) avg),
          <[fresh (dom Samples.one_vector) := ind]> Samples.one_vector)
    /\ CasingCurrents Samples.one_run Samples.one_field Samples.quad
         Samples.sigma_ref [true; true; true; true]
         (by_category [0; 2; 1; 3]%nat) Samples.one_vector
       = (on_active <- by_category [0; 2; 1; 3]%nat ind ;;
          cells <- inject_active [true; true; true; true] on_active ;;
          avg <- tmul (Mesh.nF Samples.quad) (Mesh.aveF2CC Samples.quad) cells ;;
          mu_loop Samples.one_run Samples.one_field Samples.quad
            (map (fun x => if Qlt_bool x (1 # 4) then 0 else x) avg)
            (CasingProperties.muModels Samples.one_run) [] [],
          <[fresh (dom Samples.one_vector) := ind]> Samples.one_vector)
    /\ forall cats,
         Forall (fun c => (c < 4)%nat) cats ->
         length cats = count_true [true; true; true; true] ->
         exists cells,
           indCasing Samples.sigma_ref [true; true; true; true]
             (by_category cats) Samples.one_vector
           = (Ok cells,
              <[fresh (dom Samples.one_vector) := ind]> Samples.one_vector)
           /\ length cells = length [true; true; true; true]
           /\ forall i,
                ([true; true; true; true] !! i = Some false ->
                 cells !! i = Some 0)
                /\ ([true; true; true; true] !! i = Some true ->
                    exists c,
                      cats !! count_true (take i [true; true; true; true])
                      = Some c
                      /\ cells !! i = Some (if Nat.eqb c 2 then 1 else 0)).
Proof.
  apply (casing_indicator_reaches_the_cells Samples.one_run Samples.one_field
           Samples.quad Samples.sigma_ref [true; true; true; true]
           (by_category [0; 2; 1; 3]%nat) Samples.one_vector
           [1 # 100000000; 1 # 100; 1 # 100; 5500000]).
  - reflexivity.
  - simpl. lia.
Defined.

(** On the sample mesh, whose four cells are of the categories air, layer,
    background and casing in the numbering of the spec, the cell indicator
    is [0; 1; 0; 0]. *)
Example indCasing_on_sample :
  fst (indCasing Samples.sigma_ref [true; true; true; true]
         (by_category (map category_index [air; layer; background; casing]))
         Samples.one_vector)
  = Ok [0; 1; 0; 0].
Proof. vm_compute. reflexivity. Qed.

(** C7 (as stated) fails: with the categories numbered air 0, background 1,
    layer 2, casing 3, the cell indicator that the extractor builds is 0 on
    the cell of the casing category and 1 on the cell of the layer
    category. *)
Lemma casing_category_3_is_not_marked :
  ~ (forall cells h',
       indCasing Samples.sigma_ref [true; true; true; true]
         (by_category (map category_index [air; layer; background; casing]))
         Samples.one_vector
       = (Ok cells, h') ->
       forall i c,
         [air; layer; background; casing] !! i = Some c ->
         cells !! i = Some (match c with casing => 1 | _ => 0 end)).
Proof.
  intros H.
  destruct (indCasing Samples.sigma_ref [true; true; true; true]
              (by_category (map category_index [air; layer; background; casing]))
              Samples.one_vector) as [r h'] eqn:Ev.
  assert (Er : r = Ok [0; 1; 0; 0]).
  { change r with (fst (r, h')). rewrite <- Ev. vm_compute. reflexivity. }
  subst r.
  pose proof (H _ _ eq_refl 3%nat casing eq_refl) as Hc.
  vm_compute in Hc. discriminate Hc.
Qed.

Lemma dict_get_proper {V} (d : list (Q * V)) (k k' : Q) :
  k == k' -> dict_get d k = dict_get d k'.
Proof.
  intros E. induction d as [|[k0 v0] d IH]; simpl; [reflexivity|].
  rewrite IH.
  destruct (Qeq_bool k0 k) eqn:E1, (Qeq_bool k0 k') eqn:E2; try reflexivity.
  - apply Qeq_bool_eq in E1. apply Qeq_bool_neq in E2.
    exfalso. apply E2. rewrite E1. exact E.
  - apply Qeq_bool_neq in E1. apply Qeq_bool_eq in E2.
    exfalso. apply E1. rewrite E2. symmetry. exact E.
Qed.

Lemma sdiag_mul_cols_inv (d : list Q) (cols out : list (list complex)) :
  sdiag_mul_cols d cols = Ok out ->
  out = map (zip_with Cscale d) cols
  /\ Forall (fun c => length c = length d) cols.
Proof.
  revert out. induction cols as [|c cols IH]; intros out H; simpl in H.
  - injection H as <-. split; [reflexivity|constructor].
  - unfold sdiag_mul in H.
    destruct (Nat.eqb_spec (length d) (length c)) as [El|]; cbn [rbind] in H;
      [|discriminate].
    destruct (sdiag_mul_cols d cols) as [rest|]; cbn [rbind] in H;
      [|discriminate].
    injection H as <-. destruct (IH rest eq_refl) as [-> Hall].
    split; [reflexivity|]. constructor; [symmetry; exact El|exact Hall].
Qed.

(** What the inner loop returns for each frequency. *)
Lemma freq_loop_content (m : Mesh.t) (cols : list (list complex))
    (freqinds : list nat) (r : list (list complex) * list (list complex)) :
  freq_loop m cols freqinds = Ok r ->
  forall k i, freqinds !! k = Some i ->
    exists c,
      cols !! i = Some c
      /\ fst r !! k
         = Some (block_sums (fst (fst (Mesh.vnFx m))) (snd (Mesh.vnFx m))
                   (take (Mesh.nFx m) c))
      /\ snd r !! k
         = Some (block_sums (fst (fst (Mesh.vnFz m))) (snd (Mesh.vnFz m))
                   (drop (Mesh.nFx m) c)).
Proof.
  revert r. induction freqinds as [|i0 rest IH]; intros r H k i Hk.
  - discriminate.
  - simpl in H. unfold column in H.
    destruct (cols !! i0) as [c|] eqn:Ec; cbn [rbind] in H; [|discriminate].
    destruct (reshape_sum0 _ _ (take _ c)) as [jx|] eqn:Ex; cbn [rbind] in H;
      [|discriminate].
    destruct (reshape_sum0 _ _ (drop _ c)) as [jz|] eqn:Ez; cbn [rbind] in H;
      [|discriminate].
    destruct (freq_loop m cols rest) as [r'|] eqn:Er; cbn [rbind] in H;
      [|discriminate].
    injection H as <-. destruct k as [|k].
    + simpl in Hk. injection Hk as <-. exists c.
      apply reshape_sum0_inv in Ex, Ez. destruct Ex as [_ ->], Ez as [_ ->].
      split; [exact Ec|]. split; reflexivity.
    + simpl in Hk. destruct (IH r' eq_refl k i Hk) as (c' & H').
      exists c'. exact H'.
Qed.

Lemma masked_current_lookup (faces area : list Q) (col : list complex)
    (i : nat) (f a : Q) (c : complex) :
  faces !! i = Some f -> area !! i = Some a -> col !! i = Some c ->
  masked_current faces area col !! i = Some (Cscale f (Cscale a c)).
Proof.
  intros Hf Ha Hc. unfold masked_current.
  apply lookup_zip_with_Some. exists f, (Cscale a c).
  split; [reflexivity|]. split; [exact Hf|].
  apply lookup_zip_with_Some. exists a, c. auto.
Qed.

(** What one pass of the outer loop stores under a permeability: for every
    frequency the sums over the radial index of the masked currents of its
    column, on the x-faces and on the z-faces. *)
Lemma mu_loop_content (cp : CasingProperties.t)
    (fields : list (Q * list (list complex))) (m : Mesh.t) (faces : list Q)
    (murs : list Q) :
  forall Ix Iz Ix' Iz',
  mu_loop cp fields m faces murs Ix Iz = Ok (Ix', Iz') ->
  let P := fun (key : Q) (px pz : list (list complex)) =>
    exists j,
      dict_get fields key = Ok j
      /\ forall k, (k < length (CasingProperties.freqs cp))%nat ->
           exists col,
             j !! k = Some col
             /\ length col = length faces
             /\ length (Mesh.area m) = length faces
             /\ px !! k
                = Some (block_sums (fst (fst (Mesh.vnFx m))) (snd (Mesh.vnFx m))
                          (take (Mesh.nFx m)
                             (masked_current faces (Mesh.area m) col)))
             /\ pz !! k
                = Some (block_sums (fst (fst (Mesh.vnFz m))) (snd (Mesh.vnFz m))
                          (drop (Mesh.nFx m)
                             (masked_current faces (Mesh.area m) col))) in
  (forall key px pz, dict_get Ix key = Ok px -> dict_get Iz key = Ok pz ->
                     P key px pz) ->
  forall key px pz, dict_get Ix' key = Ok px -> dict_get Iz' key = Ok pz ->
                    P key px pz.
Proof.
  induction murs as [|mur rest IH]; intros Ix Iz Ix' Iz' H P Hinv; simpl in H.
  - injection H as <- <-. exact Hinv.
  - destruct (dict_get fields mur) as [j|] eqn:Ej; cbn [rbind] in H; [|discriminate].
    destruct (sdiag_mul_cols (Mesh.area m) j) as [jA|] eqn:EA; cbn [rbind] in H;
      [|discriminate].
    destruct (sdiag_mul_cols faces jA) as [jAC|] eqn:EC; cbn [rbind] in H;
      [|discriminate].
    destruct (freq_loop m jAC _) as [r|] eqn:Er; cbn [rbind] in H; [|discriminate].
    apply sdiag_mul_cols_inv in EA, EC.
    destruct EA as [-> HA], EC as [-> HC].
    apply (IH _ _ _ _ H). intros key px pz Hx Hz.
    rewrite dict_get_set in Hx, Hz.
    destruct (Qeq_bool mur key) eqn:Ek; [|apply Hinv; assumption].
    injection Hx as <-. injection Hz as <-.
    apply Qeq_bool_eq in Ek.
    exists j. split; [rewrite <- (dict_get_proper fields mur key Ek); exact Ej|].
    intros k Hk.
    destruct (freq_loop_content _ _ _ _ Er k k) as (c & Hc & Hpx & Hpz).
    { apply lookup_seq_lt. exact Hk. }
    rewrite !list_lookup_fmap in Hc.
    destruct (j !! k) as [col|] eqn:Ecol; [|discriminate].
    simpl in Hc. injection Hc as <-.
    assert (Hcol : length col = length (Mesh.area m)).
    { rewrite Forall_forall in HA. apply HA.
      eapply list_elem_of_lookup_2. exact Ecol. }
    assert (Hf : length (zip_with Cscale (Mesh.area m) col) = length faces).
    { rewrite Forall_forall in HC. apply HC.
      apply list_elem_of_fmap. exists col. split; [reflexivity|].
      eapply list_elem_of_lookup_2. exact Ecol. }
    rewrite length_zip_with in Hf.
    exists col. split; [reflexivity|]. split; [lia|]. split; [lia|].
    split; [exact Hpx|exact Hpz].
Qed.

(** C8 (as amended): when the extractor returns, the face weights are the
    averaged indicator with every value below 0.25 set to zero and every
    value of at least 0.25 kept; the current density of a face is
    multiplied by its area and by its weight, and the two results hold, for
    every permeability and frequency, the sums of these masked currents
    over the radial index, on the x-faces and on the z-faces.  A face
    whose averaged value is below 0.25 therefore adds nothing, and a face
    of at least 0.25 adds its current times its averaged value.  On a mesh
    that averages one casing cell to four faces with the weights 0.5, 0.2,
    0.5 and 0.1, the face weights are 0.5, 0, 0.5 and 0. *)
Theorem faces_from_a_quarter_weigh_the_currents (cp : CasingProperties.t)
    (fields : list (Q * list (list complex))) (m : Mesh.t) (sigma_m : ref)
    (indActive : list bool) (casingMap : list Q -> result (list Q))
    (h h' : gmap positive (list Q)) (Ix Iz : profile) :
  CasingCurrents cp fields m sigma_m indActive casingMap h = (Ok (Ix, Iz), h') ->
  (exists cells avg faces,
     indCasing sigma_m indActive casingMap h = (Ok cells, h')
     /\ tmul (Mesh.nF m) (Mesh.aveF2CC m) cells = Ok avg
     /\ casing_faces m sigma_m indActive casingMap h = (Ok faces, h')
     /\ length faces = length avg
     /\ (forall i x, avg !! i = Some x ->
           (1 # 4 <= x -> faces !! i = Some x)
           /\ (x < 1 # 4 -> faces !! i = Some 0))
     /\ forall mur, In mur (CasingProperties.muModels cp) ->
          exists j px pz,
            dict_get fields mur = Ok j
            /\ dict_get Ix mur = Ok px
            /\ dict_get Iz mur = Ok pz
            /\ forall k, (k < length (CasingProperties.freqs cp))%nat ->
                 exists col,
                   j !! k = Some col
                   /\ length col = length faces
                   /\ length (Mesh.area m) = length faces
                   /\ px !! k
                      = Some (block_sums (fst (fst (Mesh.vnFx m)))
                                (snd (Mesh.vnFx m))
                                (take (Mesh.nFx m)
                                   (masked_current faces (Mesh.area m) col)))
                   /\ pz !! k
                      = Some (block_sums (fst (fst (Mesh.vnFz m)))
                                (snd (Mesh.vnFz m))
                                (drop (Mesh.nFx m)
                                   (masked_current faces (Mesh.area m) col)))
                   /\ forall i f a c,
                        faces !! i = Some f ->
                        Mesh.area m !! i = Some a ->
                        col !! i = Some c ->
                        masked_current faces (Mesh.area m) col !! i
                        = Some (Cscale f (Cscale a c)))
  /\ (exists cells,
        fst (indCasing Samples.sigma_ref [true] (by_category [2%nat])
               Samples.one_vector) = Ok cells
        /\ tmul (Mesh.nF Samples.four_faces) (Mesh.aveF2CC Samples.four_faces)
             cells
           = Ok [1 # 2; 1 # 5; 1 # 2; 1 # 10]
        /\ fst (casing_faces Samples.four_faces Samples.sigma_ref [true]
                  (by_category [2%nat]) Samples.one_vector)
           = Ok [1 # 2; 0; 1 # 2; 0]).
Proof.
  intros H. split.
  2:{ exists [1]. split; [vm_compute; reflexivity|].
      split; vm_compute; reflexivity. }
  unfold CasingCurrents, bind in H.
  destruct (casing_faces m sigma_m indActive casingMap h) as [[faces|e] h1] eqn:Ef;
    [|discriminate].
  unfold lift in H.
  destruct (mu_loop cp fields m faces (CasingProperties.muModels cp) [] [])
    as [[Ix0 Iz0]|e] eqn:El; [|discriminate].
  injection H as -> -> ->.
  assert (Hcells : exists cells avg,
            indCasing sigma_m indActive casingMap h = (Ok cells, h')
            /\ tmul (Mesh.nF m) (Mesh.aveF2CC m) cells = Ok avg
            /\ faces = threshold avg).
  { unfold casing_faces, bind in Ef. unfold indCasing, bind.
    destruct (casing_indicator sigma_m h) as [[ci|e] h2]; [|discriminate].
    destruct (get ci h2) as [[ind|e] h3]; [|discriminate].
    unfold lift in *. injection Ef as Ef <-.
    unfold casing_faces_of in Ef.
    destruct (casingMap ind) as [on_active|]; cbn [rbind] in *; [|discriminate].
    destruct (inject_active indActive on_active) as [cells|]; cbn [rbind] in *;
      [|discriminate].
    destruct (tmul _ _ cells) as [avg|] eqn:Et; cbn [rbind] in Ef; [|discriminate].
    injection Ef as <-. exists cells, avg. auto. }
  destruct Hcells as (cells & avg & Hc & Ht & ->).
  exists cells, avg, (threshold avg).
  split; [exact Hc|]. split; [exact Ht|]. split; [reflexivity|].
  split; [unfold threshold; apply length_map|].
  split.
  { intros i x Hx. rewrite (threshold_lookup _ _ _ Hx).
    destruct (Qlt_bool x (1 # 4)) eqn:E.
    - apply Qlt_bool_iff in E. split; [intros Hge; lra|reflexivity].
    - apply Qlt_bool_false in E. split; [reflexivity|intros Hlt; lra]. }
  intros mur Hin.
  destruct (mu_loop_inv _ _ _ _ _ _ _ _ _ El) as (Hkeys & _).
  destruct (Hkeys mur Hin) as (_ & (px & Hpx & _) & (pz & Hpz & _)).
  destruct (mu_loop_content _ _ _ _ _ _ _ _ _ El) with (key := mur) (px := px)
    (pz := pz) as (j & Hj & Hsum); try assumption.
  { intros key px0 pz0 Hx. discriminate Hx. }
  exists j, px, pz. split; [exact Hj|]. split; [exact Hpx|]. split; [exact Hpz|].
  intros k Hk. destruct (Hsum k Hk) as (col & Ecol & L1 & L2 & Ex & Ez).
  exists col. split; [exact Ecol|]. split; [exact L1|]. split; [exact L2|].
  split; [exact Ex|]. split; [exact Ez|].
  intros i f a c. apply masked_current_lookup.
Qed.

Lemma faces_from_a_quarter_weigh_the_currents_witness :
  exists Ix Iz h',
    CasingCurrents Samples.one_run Samples.four_field Samples.four_faces
      Samples.sigma_ref [true] (by_category [2%nat]) Samples.one_vector
    = (Ok (Ix, Iz), h')
    /\ (exists cells avg faces,
          indCasing Samples.sigma_ref [true] (by_category [2%nat])
            Samples.one_vector = (Ok cells, h')
          /\ tmul (Mesh.nF Samples.four_faces)
               (Mesh.aveF2CC Samples.four_faces) cells = Ok avg
          /\ casing_faces Samples.four_faces Samples.sigma_ref [true]
               (by_category [2%nat]) Samples.one_vector = (Ok faces, h')
          /\ length faces = length avg
          /\ (forall i x, avg !! i = Some x ->
                (1 # 4 <= x -> faces !! i = Some x)
                /\ (x < 1 # 4 -> faces !! i = Some 0))
          /\ forall mur, In mur (CasingProperties.muModels Samples.one_run) ->
               exists j px pz,
                 dict_get Samples.four_field mur = Ok j
                 /\ dict_get Ix mur = Ok px
                 /\ dict_get Iz mur = Ok pz
                 /\ forall k,
                      (k < length (CasingProperties.freqs Samples.one_run))%nat ->
                      exists col,
                        j !! k = Some col
                        /\ length col = length faces
                        /\ length (Mesh.area Samples.four_faces) = length faces
                        /\ px !! k
                           = Some (block_sums
                                     (fst (fst (Mesh.vnFx Samples.four_faces)))
                                     (snd (Mesh.vnFx Samples.four_faces))
                                     (take (Mesh.nFx Samples.four_faces)
                                        (masked_current faces
                                           (Mesh.area Samples.four_faces) col)))
                        /\ pz !! k
                           = Some (block_sums
                                     (fst (fst (Mesh.vnFz Samples.four_faces)))
                                     (snd (Mesh.vnFz Samples.four_faces))
                                     (drop (Mesh.nFx Samples.four_faces)
                                        (masked_current faces
                                           (Mesh.area Samples.four_faces) col)))
                        /\ forall i f a c,
                             faces !! i = Some f ->
                             Mesh.area Samples.four_faces !! i = Some a ->
                             col !! i = Some c ->
                             masked_current faces
                               (Mesh.area Samples.four_faces) col !! i
                             = Some (Cscale f (Cscale a c)))
    /\ (exists cells,
          fst (indCasing Samples.sigma_ref [true] (by_category [2%nat])
                 Samples.one_vector) = Ok cells
          /\ tmul (Mesh.nF Samples.four_faces)
               (Mesh.aveF2CC Samples.four_faces) cells
             = Ok [1 # 2; 1 # 5; 1 # 2; 1 # 10]
          /\ fst (casing_faces Samples.four_faces Samples.sigma_ref [true]
                    (by_category [2%nat]) Samples.one_vector)
             = Ok [1 # 2; 0; 1 # 2; 0]).
Proof.
  do 3 eexists. split; [vm_compute; reflexivity|].
  eapply (faces_from_a_quarter_weigh_the_currents Samples.one_run
            Samples.four_field Samples.four_faces Samples.sigma_ref [true]
            (by_category [2%nat]) Samples.one_vector).
  vm_compute. reflexivity.
Defined.

(** On the sample mesh of two by two cells with one cell of the category
    at index 2, every face of that cell has the averaged value 0.25 (0.5 on
    the axis is not reached: the cell is the second of its row), no face
    has more, and the radial current of the lower layer is [0.5 + 0.5i]. *)
Example quarter_faces_on_sample :
  exists cells avg Ix Iz,
    fst (indCasing Samples.sigma_ref [true; true; true; true]
           (by_category [0; 2; 1; 3]%nat) Samples.one_vector) = Ok cells
    /\ tmul (Mesh.nF Samples.quad) (Mesh.aveF2CC Samples.quad) cells = Ok avg
    /\ map Qred avg = [1 # 4; 1 # 4; 0; 0; 0; 1 # 4; 0; 1 # 4; 0; 0]
    /\ fst (CasingCurrents Samples.one_run Samples.one_field Samples.quad
              Samples.sigma_ref [true; true; true; true]
              (by_category [0; 2; 1; 3]%nat) Samples.one_vector)
       = Ok (Ix, Iz)
    /\ map (fun kv => map (map (fun c => (Qred (re c), Qred (im c)))) (snd kv)) Ix
       = [ [ [(1 # 2, 1 # 2); (0, 0)] ] ].
Proof.
  do 4 eexists. split; [vm_compute; reflexivity|].
  split; [vm_compute; reflexivity|].
  split; [vm_compute; reflexivity|].
  split; vm_compute; reflexivity.
Qed.

(** C8 (as stated) fails: on the sample mesh a face whose averaged
    indicator is exactly 0.25 keeps a weight that is not zero, although
    0.25 does not strictly exceed 0.25; and although no face there has an
    averaged value above 0.25, the extracted radial current is not zero. *)
Lemma quarter_face_carries_current :
  ~ (forall cells avg faces h',
       indCasing Samples.sigma_ref [true; true; true; true]
         (by_category [0; 2; 1; 3]%nat) Samples.one_vector
       = (Ok cells, h') ->
       tmul (Mesh.nF Samples.quad) (Mesh.aveF2CC Samples.quad) cells = Ok avg ->
       casing_faces Samples.quad Samples.sigma_ref [true; true; true; true]
         (by_category [0; 2; 1; 3]%nat) Samples.one_vector
       = (Ok faces, h') ->
       forall i x w,
         avg !! i = Some x -> faces !! i = Some w -> ~ w == 0 -> 1 # 4 < x)
  /\ ~ (forall cells avg Ix Iz h',
         indCasing Samples.sigma_ref [true; true; true; true]
           (by_category [0; 2; 1; 3]%nat) Samples.one_vector
         = (Ok cells, h') ->
         tmul (Mesh.nF Samples.quad) (Mesh.aveF2CC Samples.quad) cells
         = Ok avg ->
         CasingCurrents Samples.one_run Samples.one_field Samples.quad
           Samples.sigma_ref [true; true; true; true]
           (by_category [0; 2; 1; 3]%nat) Samples.one_vector
         = (Ok (Ix, Iz), h') ->
         Forall (fun x => x <= 1 # 4) avg ->
         all_zero Ix /\ all_zero Iz).
Proof.
  destruct (indCasing Samples.sigma_ref [true; true; true; true]
              (by_category [0; 2; 1; 3]%nat) Samples.one_vector)
    as [rc h1] eqn:Ec.
  pose proof Ec as Ec2. vm_compute in Ec2. injection Ec2 as <- Eh1.
  destruct (tmul (Mesh.nF Samples.quad) (Mesh.aveF2CC Samples.quad)
              [0; 1; 0; 0]) as [avg|] eqn:Et.
  2:{ vm_compute in Et. discriminate Et. }
  pose proof Et as Et2. vm_compute in Et2. injection Et2 as <-.
  destruct (casing_faces Samples.quad Samples.sigma_ref
              [true; true; true; true] (by_category [0; 2; 1; 3]%nat)
              Samples.one_vector) as [rf h2] eqn:Ef.
  pose proof Ef as Ef2. vm_compute in Ef2. injection Ef2 as <- Eh2.
  rewrite Eh1 in Eh2. subst h2.
  destruct (CasingCurrents Samples.one_run Samples.one_field Samples.quad
              Samples.sigma_ref [true; true; true; true]
              (by_category [0; 2; 1; 3]%nat) Samples.one_vector)
    as [rI h2] eqn:EI.
  pose proof EI as EI2. vm_compute in EI2. injection EI2 as <- Eh2.
  rewrite Eh1 in Eh2. subst h2.
  split.
  - intros H.
    pose proof (H _ _ _ _ eq_refl Et eq_refl 0%nat _ _ eq_refl eq_refl) as Hlt.
    assert (Hq : 1 # 4 < 1 # 4).
    { eapply Qlt_compat; [reflexivity| |apply Hlt; intros E; discriminate E].
      vm_compute. reflexivity. }
    exact (Qlt_irrefl _ Hq).
  - intros H.
    destruct (H _ _ _ _ _ eq_refl Et eq_refl) as [Hx _].
    + repeat (constructor; [apply Qle_bool_iff; vm_compute; reflexivity|]).
      constructor.
    + apply Forall_inv in Hx. apply Forall_inv in Hx. apply Forall_inv in Hx.
      destruct Hx as [Hr _]. vm_compute in Hr. discriminate Hr.
Qed.

End ExtractorFacts.
